(** * MariFlow API: session/event bridge

    A shallow embedding of the WhatsApp session bridge of the MariFlow API
    ([src/services/WhatsAppService.ts], [src/middleware/auth.ts],
    [src/controllers/WhatsAppController.ts], [src/index.ts]) together with
    the properties of its session state, command facade, API-key middleware
    and event fan-out.

    Conventions.
    - [string | null] fields are [option string]; [number] timestamps are [Z].
    - [Date.now()] is a reading of the clock handed to the code that makes it.
    - The wrapped [whatsapp-web.js] client is a collaborator given as a
      function from calls to outcomes; every call made on it is recorded.
    - Calls to [logger] and to [console] have no effect on the modelled state
      and are left out.
    - [restart()], which builds a new client object, is not modelled.
    - The event loop is single-threaded: a listener or a request handler runs
      to its end before the next one starts, so a run of the application is
      a list of actions. *)

From Stdlib Require Import Ascii String List ZArith Bool Lia.
Import ListNotations.
Open Scope string_scope.
Open Scope list_scope.

(** ** JavaScript helpers *)

Module JS.

(** Truthiness of a string: only the empty string is falsy. *)
Definition truthy (s : string) : bool :=
  match s with
  | EmptyString => false
  | String _ _ => true
  end.

(** [x || null] on a possibly undefined string. *)
Definition or_null (o : option string) : option string :=
  match o with
  | Some s => if truthy s then Some s else None
  | None => None
  end.

(** [a || b] on possibly undefined strings. *)
Definition or_else (a b : option string) : option string :=
  match a with
  | Some s => if truthy s then Some s else b
  | None => b
  end.

(** [!x] on a possibly undefined string. *)
Definition falsy (o : option string) : bool :=
  match o with
  | Some s => negb (truthy s)
  | None => true
  end.

(** [s.startsWith(p)]. *)
Fixpoint starts_with (p s : string) : bool :=
  match p, s with
  | EmptyString, _ => true
  | String a p', String b s' => if Ascii.eqb a b then starts_with p' s' else false
  | String _ _, EmptyString => false
  end.

(** [s.slice(n)]. *)
Fixpoint drop (n : nat) (s : string) : string :=
  match n, s with
  | O, _ => s
  | S n', String _ s' => drop n' s'
  | S _, EmptyString => EmptyString
  end.

(** [s.replace(pat, rep)] with a string pattern and a replacement without
    [$]: the first occurrence of [pat] is replaced, a string without
    occurrence is returned as it is. *)
Fixpoint replace (pat rep s : string) : string :=
  if starts_with pat s then (rep ++ drop (String.length pat) s)%string
  else match s with
       | EmptyString => EmptyString
       | String c s' => String c (replace pat rep s')
       end.

End JS.

(** ** Data carried by the wrapped client *)

Record Message := {
  msg_id : string;          (* id._serialized *)
  msg_from : string;
  msg_to : string;
  msg_body : string;
  msg_timestamp : Z;
  msg_type : string;
  hasMedia : bool;
  isForwarded : bool;
  fromMe : bool
}.

Record MessageMedia := {
  mimetype : string;
  media_data : string;
  filename : option string
}.

Record Contact := { contact_id : string; contact_name : option string }.

Record Chat := { chat_id : string; chat_name : string; isGroup : bool }.

Record GroupChat := { group_id : string; group_name : string }.

(** [client.info]: [wid.user] and [pushname], either possibly missing. *)
Record ClientInfo := { wid_user : option string; pushname : option string }.

(** ** Errors ([src/types]) *)

Inductive Exn :=
| WhatsAppError (message code : string) (statusCode : Z)
| AuthenticationError (message : string)
| OtherError (message : string).

(** [new WhatsAppError(message, code)]: [statusCode] defaults to 500. *)
Definition mkWhatsAppError (message code : string) : Exn :=
  WhatsAppError message code 500.

Definition exn_code (e : Exn) : option string :=
  match e with
  | WhatsAppError _ c _ => Some c
  | _ => None
  end.

(** ** Events *)

Inductive EventName :=
| qr | authenticated | auth_failure | ready | disconnected
| message | message_create | message_ack | message_reaction
| group_join | group_leave | battery_changed | state_changed.

Definition EventName_eqb (a b : EventName) : bool :=
  match a, b with
  | qr, qr | authenticated, authenticated | auth_failure, auth_failure
  | ready, ready | disconnected, disconnected | message, message
  | message_create, message_create | message_ack, message_ack
  | message_reaction, message_reaction | group_join, group_join
  | group_leave, group_leave | battery_changed, battery_changed
  | state_changed, state_changed => true
  | _, _ => false
  end.

(** Arguments passed along with an event. Payloads typed [any] in the source
    (reaction, notification, battery, ack) are carried as opaque text. *)
Inductive Arg :=
| AStr (s : string)
| AMsg (m : Message)
| AAny (repr : string).

(** A raw event of the wrapped client, with the arguments it passes to the
    listener registered by [setupEventListeners]. *)
Inductive RawEvent :=
| EvQr (code : string)
| EvAuthenticated
| EvAuthFailure (msg : string)
| EvReady
| EvDisconnected (reason : string)
| EvMessage (m : Message)
| EvMessageCreate (m : Message)
| EvMessageAck (m : Message) (ack : string)
| EvMessageReaction (reaction : string)
| EvGroupJoin (notification : string)
| EvGroupLeave (notification : string)
| EvBatteryChanged (battery : string)
| EvStateChanged (state : string).

(** One call of [this.emit(name, ...args)] on the service. *)
Record Emission := { ename : EventName; eargs : list Arg }.

Definition raw_name (ev : RawEvent) : EventName :=
  match ev with
  | EvQr _ => qr
  | EvAuthenticated => authenticated
  | EvAuthFailure _ => auth_failure
  | EvReady => ready
  | EvDisconnected _ => disconnected
  | EvMessage _ => message
  | EvMessageCreate _ => message_create
  | EvMessageAck _ _ => message_ack
  | EvMessageReaction _ => message_reaction
  | EvGroupJoin _ => group_join
  | EvGroupLeave _ => group_leave
  | EvBatteryChanged _ => battery_changed
  | EvStateChanged _ => state_changed
  end.

(** The five session lifecycle events. *)
Definition is_lifecycle (ev : RawEvent) : bool :=
  match ev with
  | EvQr _ | EvAuthenticated | EvAuthFailure _ | EvReady | EvDisconnected _ => true
  | _ => false
  end.

(** ** The session state held by [WhatsAppService] *)

Record Session := {
  isReady : bool;
  isAuthenticated : bool;
  qrCode : option string;
  phoneNumber : option string;
  name : option string;
  lastSeen : Z
}.

(** Field initialisers of the class. *)
Definition initial : Session :=
  {| isReady := false; isAuthenticated := false; qrCode := None;
     phoneNumber := None; name := None; lastSeen := 0 |}.

Definition set_isReady (b : bool) (s : Session) : Session :=
  {| isReady := b; isAuthenticated := isAuthenticated s; qrCode := qrCode s;
     phoneNumber := phoneNumber s; name := name s; lastSeen := lastSeen s |}.

Definition set_isAuthenticated (b : bool) (s : Session) : Session :=
  {| isReady := isReady s; isAuthenticated := b; qrCode := qrCode s;
     phoneNumber := phoneNumber s; name := name s; lastSeen := lastSeen s |}.

Definition set_qrCode (q : option string) (s : Session) : Session :=
  {| isReady := isReady s; isAuthenticated := isAuthenticated s; qrCode := q;
     phoneNumber := phoneNumber s; name := name s; lastSeen := lastSeen s |}.

Definition set_phoneNumber (p : option string) (s : Session) : Session :=
  {| isReady := isReady s; isAuthenticated := isAuthenticated s; qrCode := qrCode s;
     phoneNumber := p; name := name s; lastSeen := lastSeen s |}.

Definition set_name (n : option string) (s : Session) : Session :=
  {| isReady := isReady s; isAuthenticated := isAuthenticated s; qrCode := qrCode s;
     phoneNumber := phoneNumber s; name := n; lastSeen := lastSeen s |}.

Definition set_lastSeen (t : Z) (s : Session) : Session :=
  {| isReady := isReady s; isAuthenticated := isAuthenticated s; qrCode := qrCode s;
     phoneNumber := phoneNumber s; name := name s; lastSeen := t |}.

(** [getStatus()] returns a fresh object with the six fields: a snapshot. *)
Definition getStatus (s : Session) : Session :=
  {| isReady := isReady s; isAuthenticated := isAuthenticated s; qrCode := qrCode s;
     phoneNumber := phoneNumber s; name := name s; lastSeen := lastSeen s |}.

(** ** Event normalizer: the listeners of [setupEventListeners] *)

(** What a listener reads besides its arguments: the clock and
    [this.client.info]. *)
Record Context := { clock : Z; info : option ClientInfo }.

Definition info_user (c : Context) : option string :=
  match info c with
  | Some i => wid_user i
  | None => None
  end.

Definition info_pushname (c : Context) : option string :=
  match info c with
  | Some i => pushname i
  | None => None
  end.

(** The listener bound to each raw event: the new session state and the
    calls of [this.emit] it makes, in order. *)
Definition on_event (c : Context) (ev : RawEvent) (s : Session)
  : Session * list Emission :=
  match ev with
  | EvQr code =>
      (set_qrCode (Some code) s, [{| ename := qr; eargs := [AStr code] |}])
  | EvAuthenticated =>
      (set_isAuthenticated true s, [{| ename := authenticated; eargs := [] |}])
  | EvAuthFailure msg =>
      (set_isAuthenticated false s,
       [{| ename := auth_failure; eargs := [AStr msg] |}])
  | EvReady =>
      let s1 := set_isReady true s in
      let s2 := set_isAuthenticated true s1 in
      let s3 := set_lastSeen (clock c) s2 in
      let s4 := set_phoneNumber (JS.or_null (info_user c)) s3 in
      let s5 := set_name (JS.or_null (info_pushname c)) s4 in
      let s6 := set_qrCode None s5 in
      (s6, [{| ename := ready; eargs := [] |}])
  | EvDisconnected reason =>
      (set_isAuthenticated false (set_isReady false s),
       [{| ename := disconnected; eargs := [AStr reason] |}])
  | EvMessage m =>
      (set_lastSeen (clock c) s, [{| ename := message; eargs := [AMsg m] |}])
  | EvMessageCreate m =>
      (set_lastSeen (clock c) s,
       [{| ename := message_create; eargs := [AMsg m] |}])
  | EvMessageAck m ack =>
      (s, [{| ename := message_ack; eargs := [AMsg m; AAny ack] |}])
  | EvMessageReaction r =>
      (s, [{| ename := message_reaction; eargs := [AAny r] |}])
  | EvGroupJoin n =>
      (s, [{| ename := group_join; eargs := [AAny n] |}])
  | EvGroupLeave n =>
      (s, [{| ename := group_leave; eargs := [AAny n] |}])
  | EvBatteryChanged b =>
      (s, [{| ename := battery_changed; eargs := [AAny b] |}])
  | EvStateChanged st =>
      (s, [{| ename := state_changed; eargs := [AStr st] |}])
  end.

(** A raw event together with what its listener reads when it runs. *)
Definition Stimulus : Type := Context * RawEvent.

(** The listeners run one after the other, in the order the wrapped client
    raises the events; the emissions accumulate in that order. *)
Fixpoint feed (evs : list Stimulus) (s : Session) : Session * list Emission :=
  match evs with
  | [] => (s, [])
  | (c, ev) :: rest =>
      let '(s1, out1) := on_event c ev s in
      let '(s2, out2) := feed rest s1 in
      (s2, out1 ++ out2)
  end.

Definition state_after (evs : list Stimulus) : Session := fst (feed evs initial).

Definition emitted (evs : list Stimulus) : list Emission := snd (feed evs initial).

(** The emission the source makes for a raw event. *)
Definition emission_of (ev : RawEvent) : Emission :=
  match ev with
  | EvQr code => {| ename := qr; eargs := [AStr code] |}
  | EvAuthenticated => {| ename := authenticated; eargs := [] |}
  | EvAuthFailure msg => {| ename := auth_failure; eargs := [AStr msg] |}
  | EvReady => {| ename := ready; eargs := [] |}
  | EvDisconnected reason => {| ename := disconnected; eargs := [AStr reason] |}
  | EvMessage m => {| ename := message; eargs := [AMsg m] |}
  | EvMessageCreate m => {| ename := message_create; eargs := [AMsg m] |}
  | EvMessageAck m ack => {| ename := message_ack; eargs := [AMsg m; AAny ack] |}
  | EvMessageReaction r => {| ename := message_reaction; eargs := [AAny r] |}
  | EvGroupJoin n => {| ename := group_join; eargs := [AAny n] |}
  | EvGroupLeave n => {| ename := group_leave; eargs := [AAny n] |}
  | EvBatteryChanged b => {| ename := battery_changed; eargs := [AAny b] |}
  | EvStateChanged st => {| ename := state_changed; eargs := [AStr st] |}
  end.

(** ** The wrapped client as a collaborator *)

(** The calls the service makes on the wrapped client and on the chat and
    contact objects the client hands back, indexed by what they resolve to. *)
Inductive ClientCall : Type -> Type :=
| CInitialize : ClientCall unit
| CDestroy : ClientCall unit
| CLogout : ClientCall unit
| CSendMessage (to content : string) : ClientCall Message
| CSendMedia (to : string) (media : MessageMedia) (caption : option string)
  : ClientCall Message
| CGetContacts : ClientCall (list Contact)
| CGetChats : ClientCall (list Chat)
| CGetChatById (chatId : string) : ClientCall Chat
| CCreateGroup (gname : string) (participants : list string) : ClientCall GroupChat
| CAcceptInvite (inviteCode : string) : ClientCall GroupChat
| CGetContactById (contactId : string) : ClientCall Contact
| CSetStatus (status : string) : ClientCall unit
| ChatGetInviteCode (chat : Chat) : ClientCall string
| ChatFetchMessages (chat : Chat) (limit : Z) : ClientCall (list Message)
| ChatSendSeen (chat : Chat) : ClientCall unit
| ChatMute (chat : Chat) (duration : option Z) : ClientCall unit
| ChatUnmute (chat : Chat) : ClientCall unit
| ChatArchive (chat : Chat) : ClientCall unit
| ChatUnarchive (chat : Chat) : ClientCall unit
| ChatDelete (chat : Chat) : ClientCall unit
| ChatPin (chat : Chat) : ClientCall unit
| ChatUnpin (chat : Chat) : ClientCall unit
| ContactGetProfilePicUrl (contact : Contact) : ClientCall string
| ContactBlock (contact : Contact) : ClientCall unit
| ContactUnblock (contact : Contact) : ClientCall unit.

(** A promise of the client settles one way or the other. *)
Inductive Settled (A : Type) :=
| Resolved (a : A)
| Rejected (e : Exn).
Arguments Resolved {A} a.
Arguments Rejected {A} e.

(** A collaborator answers every call; a test stub is one such function. *)
Definition Client : Type := forall A : Type, ClientCall A -> Settled A.

(** A call with its result type packed, as recorded in a trace. *)
Inductive AnyCall := Called (A : Type) (c : ClientCall A).
Arguments Called {A} c.

Definition rejects (client : Client) (k : AnyCall) : Prop :=
  match k with
  | Called c => exists e, client _ c = Rejected e
  end.

(** Some call of the trace was rejected by the collaborator. *)
Definition client_threw (client : Client) (calls : list AnyCall) : Prop :=
  Exists (rejects client) calls.

(** ** Command facade: a state-and-exception computation *)

(** What an operation reads: the collaborator, [client.info] and the clock. *)
Record Env := { client : Client; client_info : option ClientInfo; now : Z }.

Inductive Result (A : Type) :=
| Ok (a : A)
| Throw (e : Exn).
Arguments Ok {A} a.
Arguments Throw {A} e.

(** The outcome of running an operation: how its promise settles, the
    session it leaves and the calls it made on the collaborator. *)
Record Run (A : Type) := {
  result : Result A;
  final : Session;
  calls : list AnyCall
}.
Arguments result {A} r.
Arguments final {A} r.
Arguments calls {A} r.

Definition M (A : Type) : Type := Env -> Session -> Run A.

Definition ret {A} (a : A) : M A :=
  fun _ s => {| result := Ok a; final := s; calls := [] |}.

Definition throw {A} (e : Exn) : M A :=
  fun _ s => {| result := Throw e; final := s; calls := [] |}.

Definition bind {A B} (m : M A) (k : A -> M B) : M B :=
  fun env s =>
    let r := m env s in
    match result r with
    | Ok a =>
        let r' := k a env (final r) in
        {| result := result r'; final := final r'; calls := calls r ++ calls r' |}
    | Throw e => {| result := Throw e; final := final r; calls := calls r |}
    end.

(** [try { body } catch (error) { handler }]: assignments made by the body
    before it throws stay in place. *)
Definition try_catch {A} (body : M A) (handler : Exn -> M A) : M A :=
  fun env s =>
    let r := body env s in
    match result r with
    | Ok a => r
    | Throw e =>
        let r' := handler e env (final r) in
        {| result := result r'; final := final r'; calls := calls r ++ calls r' |}
    end.

(** [await] of a call on the collaborator. *)
Definition await {A} (c : ClientCall A) : M A :=
  fun env s =>
    {| result := match client env A c with
                 | Resolved a => Ok a
                 | Rejected e => Throw e
                 end;
       final := s;
       calls := [Called c] |}.

Definition get : M Session :=
  fun _ s => {| result := Ok s; final := s; calls := [] |}.

Definition modify (f : Session -> Session) : M unit :=
  fun _ s => {| result := Ok tt; final := f s; calls := [] |}.

Definition date_now : M Z :=
  fun env s => {| result := Ok (now env); final := s; calls := [] |}.

Definition read_info : M (option ClientInfo) :=
  fun env s => {| result := Ok (client_info env); final := s; calls := [] |}.

Declare Scope facade_scope.
Delimit Scope facade_scope with facade.
Notation "x <- m ;; k" := (bind m (fun x => k))
  (at level 61, m at next level, right associativity) : facade_scope.
Notation "m ;;; k" := (bind m (fun _ => k))
  (at level 61, right associativity) : facade_scope.
Open Scope facade_scope.

(** [this.lastSeen = Date.now()]. *)
Definition touch : M unit :=
  t <- date_now ;; modify (set_lastSeen t).

(** The guard that opens every facade operation. *)
Definition require_ready : M unit :=
  s <- get ;;
  if negb (isReady s)
  then throw (mkWhatsAppError "Cliente WhatsApp não está pronto" "NOT_READY")
  else ret tt.

(** The catch clause shared by the operations: whatever was thrown is
    replaced by a [WhatsAppError] with the operation's own message and code. *)
Definition rethrow_as {A} (message code : string) : Exn -> M A :=
  fun _ => throw (mkWhatsAppError message code).

(** ** Command facade: the public operations of [WhatsAppService] *)

Definition initialize : M unit :=
  try_catch (await CInitialize)
    (rethrow_as "Falha ao inicializar cliente WhatsApp" "INIT_ERROR").

(** [destroy()] logs a failure of the collaborator and resolves all the same.
    The field [this.client] is set by the constructor, so the test
    [if (this.client)] succeeds. *)
Definition destroy : M unit :=
  try_catch
    (await CDestroy ;;;
     modify (set_isReady false) ;;;
     modify (set_isAuthenticated false))
    (fun _ => ret tt).

Definition sendMessage (to content : string) : M Message :=
  require_ready ;;;
  try_catch
    (message <- await (CSendMessage to content) ;;
     touch ;;;
     ret message)
    (rethrow_as "Falha ao enviar mensagem" "SEND_ERROR").

Definition sendMedia (to : string) (media : MessageMedia) (caption : option string)
  : M Message :=
  require_ready ;;;
  try_catch
    (message <- await (CSendMedia to media caption) ;;
     touch ;;;
     ret message)
    (rethrow_as "Falha ao enviar mídia" "SEND_MEDIA_ERROR").

Definition getContacts : M (list Contact) :=
  require_ready ;;;
  try_catch
    (contacts <- await CGetContacts ;; ret contacts)
    (rethrow_as "Falha ao obter contatos" "GET_CONTACTS_ERROR").

Definition getChats : M (list Chat) :=
  require_ready ;;;
  try_catch
    (chats <- await CGetChats ;; ret chats)
    (rethrow_as "Falha ao obter chats" "GET_CHATS_ERROR").

Definition getChatById (chatId : string) : M Chat :=
  require_ready ;;;
  try_catch
    (chat <- await (CGetChatById chatId) ;; ret chat)
    (rethrow_as "Falha ao obter chat" "GET_CHAT_ERROR").

Definition createGroup (gname : string) (participants : list string) : M GroupChat :=
  require_ready ;;;
  try_catch
    (group <- await (CCreateGroup gname participants) ;;
     touch ;;;
     ret group)
    (rethrow_as "Falha ao criar grupo" "CREATE_GROUP_ERROR").

Definition getGroupInviteLink (groupId : string) : M string :=
  require_ready ;;;
  try_catch
    (chat <- getChatById groupId ;;
     (if negb (isGroup chat)
      then throw (mkWhatsAppError "Chat não é um grupo" "NOT_GROUP")
      else ret tt) ;;;
     inviteLink <- await (ChatGetInviteCode chat) ;;
     ret inviteLink)
    (rethrow_as "Falha ao obter link de convite" "GET_INVITE_ERROR").

Definition joinGroup (inviteCode : string) : M GroupChat :=
  require_ready ;;;
  try_catch
    (group <- await (CAcceptInvite inviteCode) ;;
     touch ;;;
     ret group)
    (rethrow_as "Falha ao entrar no grupo" "JOIN_GROUP_ERROR").

(** The catch clause of [getProfilePicture] returns [null]. *)
Definition getProfilePicture (contactId : string) : M (option string) :=
  require_ready ;;;
  try_catch
    (contact <- await (CGetContactById contactId) ;;
     profilePicUrl <- await (ContactGetProfilePicUrl contact) ;;
     ret (Some profilePicUrl))
    (fun _ => ret None).

Definition setStatus (status : string) : M unit :=
  require_ready ;;;
  try_catch
    (await (CSetStatus status) ;;;
     touch)
    (rethrow_as "Falha ao alterar status" "SET_STATUS_ERROR").

Definition blockContact (contactId : string) : M unit :=
  require_ready ;;;
  try_catch
    (contact <- await (CGetContactById contactId) ;;
     await (ContactBlock contact) ;;;
     touch)
    (rethrow_as "Falha ao bloquear contato" "BLOCK_CONTACT_ERROR").

Definition unblockContact (contactId : string) : M unit :=
  require_ready ;;;
  try_catch
    (contact <- await (CGetContactById contactId) ;;
     await (ContactUnblock contact) ;;;
     touch)
    (rethrow_as "Falha ao desbloquear contato" "UNBLOCK_CONTACT_ERROR").

(** [limit] defaults to 50 at the call site when it is left out. *)
Definition getMessages (chatId : string) (limit : Z) : M (list Message) :=
  require_ready ;;;
  try_catch
    (chat <- getChatById chatId ;;
     messages <- await (ChatFetchMessages chat limit) ;;
     ret messages)
    (rethrow_as "Falha ao obter mensagens" "GET_MESSAGES_ERROR").

Definition markAsRead (chatId : string) : M unit :=
  require_ready ;;;
  try_catch
    (chat <- getChatById chatId ;;
     await (ChatSendSeen chat))
    (rethrow_as "Falha ao marcar como lido" "MARK_READ_ERROR").

Definition muteChat (chatId : string) (duration : option Z) : M unit :=
  require_ready ;;;
  try_catch
    (chat <- getChatById chatId ;;
     await (ChatMute chat duration) ;;;
     touch)
    (rethrow_as "Falha ao silenciar chat" "MUTE_CHAT_ERROR").

Definition unmuteChat (chatId : string) : M unit :=
  require_ready ;;;
  try_catch
    (chat <- getChatById chatId ;;
     await (ChatUnmute chat) ;;;
     touch)
    (rethrow_as "Falha ao desilenciar chat" "UNMUTE_CHAT_ERROR").

Definition archiveChat (chatId : string) : M unit :=
  require_ready ;;;
  try_catch
    (chat <- getChatById chatId ;;
     await (ChatArchive chat) ;;;
     touch)
    (rethrow_as "Falha ao arquivar chat" "ARCHIVE_CHAT_ERROR").

Definition unarchiveChat (chatId : string) : M unit :=
  require_ready ;;;
  try_catch
    (chat <- getChatById chatId ;;
     await (ChatUnarchive chat) ;;;
     touch)
    (rethrow_as "Falha ao desarquivar chat" "UNARCHIVE_CHAT_ERROR").

Definition deleteChat (chatId : string) : M unit :=
  require_ready ;;;
  try_catch
    (chat <- getChatById chatId ;;
     await (ChatDelete chat) ;;;
     touch)
    (rethrow_as "Falha ao deletar chat" "DELETE_CHAT_ERROR").

Definition pinChat (chatId : string) : M unit :=
  require_ready ;;;
  try_catch
    (chat <- getChatById chatId ;;
     await (ChatPin chat) ;;;
     touch)
    (rethrow_as "Falha ao fixar chat" "PIN_CHAT_ERROR").

Definition unpinChat (chatId : string) : M unit :=
  require_ready ;;;
  try_catch
    (chat <- getChatById chatId ;;
     await (ChatUnpin chat) ;;;
     touch)
    (rethrow_as "Falha ao desfixar chat" "UNPIN_CHAT_ERROR").

(** Reading [this.client.info] is a field access, not a call. *)
Definition getClientInfo : M (option ClientInfo) :=
  require_ready ;;;
  try_catch
    read_info
    (rethrow_as "Falha ao obter informações do cliente" "GET_CLIENT_INFO_ERROR").

Definition logout : M unit :=
  try_catch
    (await CLogout ;;;
     modify (set_isReady false) ;;;
     modify (set_isAuthenticated false) ;;;
     modify (set_phoneNumber None) ;;;
     modify (set_name None) ;;;
     modify (set_qrCode None))
    (rethrow_as "Falha ao fazer logout" "LOGOUT_ERROR").

(** ** The facade operations as one family *)

(** The operations guarded by the readiness check, with their arguments. *)
Inductive Op :=
| OpSendMessage (to content : string)
| OpSendMedia (to : string) (media : MessageMedia) (caption : option string)
| OpGetContacts
| OpGetChats
| OpGetChatById (chatId : string)
| OpCreateGroup (gname : string) (participants : list string)
| OpGetGroupInviteLink (groupId : string)
| OpJoinGroup (inviteCode : string)
| OpGetProfilePicture (contactId : string)
| OpSetStatus (status : string)
| OpBlockContact (contactId : string)
| OpUnblockContact (contactId : string)
| OpGetMessages (chatId : string) (limit : Z)
| OpMarkAsRead (chatId : string)
| OpMuteChat (chatId : string) (duration : option Z)
| OpUnmuteChat (chatId : string)
| OpArchiveChat (chatId : string)
| OpUnarchiveChat (chatId : string)
| OpDeleteChat (chatId : string)
| OpPinChat (chatId : string)
| OpUnpinChat (chatId : string)
| OpGetClientInfo.

(** What an operation resolves to. *)
Inductive Value :=
| VUndefined
| VNull
| VString (s : string)
| VMessage (m : Message)
| VMessages (l : list Message)
| VContacts (l : list Contact)
| VChats (l : list Chat)
| VChat (c : Chat)
| VGroup (g : GroupChat)
| VInfo (i : option ClientInfo).

Definition fmap {A B} (f : A -> B) (m : M A) : M B :=
  fun env s =>
    let r := m env s in
    {| result := match result r with
                 | Ok a => Ok (f a)
                 | Throw e => Throw e
                 end;
       final := final r;
       calls := calls r |}.

Definition url_or_null (o : option string) : Value :=
  match o with
  | Some u => VString u
  | None => VNull
  end.

Definition perform (op : Op) : M Value :=
  match op with
  | OpSendMessage to content => fmap VMessage (sendMessage to content)
  | OpSendMedia to media caption => fmap VMessage (sendMedia to media caption)
  | OpGetContacts => fmap VContacts getContacts
  | OpGetChats => fmap VChats getChats
  | OpGetChatById chatId => fmap VChat (getChatById chatId)
  | OpCreateGroup gname participants => fmap VGroup (createGroup gname participants)
  | OpGetGroupInviteLink groupId => fmap VString (getGroupInviteLink groupId)
  | OpJoinGroup inviteCode => fmap VGroup (joinGroup inviteCode)
  | OpGetProfilePicture contactId => fmap url_or_null (getProfilePicture contactId)
  | OpSetStatus status => fmap (fun _ => VUndefined) (setStatus status)
  | OpBlockContact contactId => fmap (fun _ => VUndefined) (blockContact contactId)
  | OpUnblockContact contactId => fmap (fun _ => VUndefined) (unblockContact contactId)
  | OpGetMessages chatId limit => fmap VMessages (getMessages chatId limit)
  | OpMarkAsRead chatId => fmap (fun _ => VUndefined) (markAsRead chatId)
  | OpMuteChat chatId duration => fmap (fun _ => VUndefined) (muteChat chatId duration)
  | OpUnmuteChat chatId => fmap (fun _ => VUndefined) (unmuteChat chatId)
  | OpArchiveChat chatId => fmap (fun _ => VUndefined) (archiveChat chatId)
  | OpUnarchiveChat chatId => fmap (fun _ => VUndefined) (unarchiveChat chatId)
  | OpDeleteChat chatId => fmap (fun _ => VUndefined) (deleteChat chatId)
  | OpPinChat chatId => fmap (fun _ => VUndefined) (pinChat chatId)
  | OpUnpinChat chatId => fmap (fun _ => VUndefined) (unpinChat chatId)
  | OpGetClientInfo => fmap VInfo getClientInfo
  end.

(** The code carried by the [WhatsAppError] of each operation's catch
    clause; [getProfilePicture] has none. *)
Definition error_code (op : Op) : option string :=
  match op with
  | OpSendMessage _ _ => Some "SEND_ERROR"
  | OpSendMedia _ _ _ => Some "SEND_MEDIA_ERROR"
  | OpGetContacts => Some "GET_CONTACTS_ERROR"
  | OpGetChats => Some "GET_CHATS_ERROR"
  | OpGetChatById _ => Some "GET_CHAT_ERROR"
  | OpCreateGroup _ _ => Some "CREATE_GROUP_ERROR"
  | OpGetGroupInviteLink _ => Some "GET_INVITE_ERROR"
  | OpJoinGroup _ => Some "JOIN_GROUP_ERROR"
  | OpGetProfilePicture _ => None
  | OpSetStatus _ => Some "SET_STATUS_ERROR"
  | OpBlockContact _ => Some "BLOCK_CONTACT_ERROR"
  | OpUnblockContact _ => Some "UNBLOCK_CONTACT_ERROR"
  | OpGetMessages _ _ => Some "GET_MESSAGES_ERROR"
  | OpMarkAsRead _ => Some "MARK_READ_ERROR"
  | OpMuteChat _ _ => Some "MUTE_CHAT_ERROR"
  | OpUnmuteChat _ => Some "UNMUTE_CHAT_ERROR"
  | OpArchiveChat _ => Some "ARCHIVE_CHAT_ERROR"
  | OpUnarchiveChat _ => Some "UNARCHIVE_CHAT_ERROR"
  | OpDeleteChat _ => Some "DELETE_CHAT_ERROR"
  | OpPinChat _ => Some "PIN_CHAT_ERROR"
  | OpUnpinChat _ => Some "UNPIN_CHAT_ERROR"
  | OpGetClientInfo => Some "GET_CLIENT_INFO_ERROR"
  end.

(** The operations that change something on the WhatsApp side. *)
Definition is_mutating (op : Op) : bool :=
  match op with
  | OpSendMessage _ _ | OpSendMedia _ _ _ | OpCreateGroup _ _ | OpJoinGroup _
  | OpSetStatus _ | OpBlockContact _ | OpUnblockContact _ | OpMarkAsRead _
  | OpMuteChat _ _ | OpUnmuteChat _ | OpArchiveChat _ | OpUnarchiveChat _
  | OpDeleteChat _ | OpPinChat _ | OpUnpinChat _ => true
  | _ => false
  end.

(** A typed failure: a rejection with a [WhatsAppError]. *)
Definition typed_failure {A} (r : Result A) : Prop :=
  exists message code status, r = Throw (WhatsAppError message code status).

Definition fails_with {A} (code : string) (r : Result A) : Prop :=
  exists message status, r = Throw (WhatsAppError message code status).

Definition succeeded {A} (r : Result A) : Prop := exists a, r = Ok a.

(** ** API-key middleware ([src/middleware/auth.ts]) *)

(** The two request headers the middleware reads; a header that is not sent
    is [None]. *)
Record Headers := { x_api_key : option string; authorization : option string }.

(** [AuthenticatedRequest]: the request with the two fields the middleware
    sets on success. *)
Record Request := {
  headers : Headers;
  req_apiKey : option string;
  req_isAuthenticated : option bool
}.

Record Envelope := { success : bool; error : string; timestamp : string }.

Record Response := { status : Z; body : Envelope }.

(** [config.auth.apiKey]: [process.env.API_KEY || "your-secret-api-key-here"]. *)
Definition config_apiKey (API_KEY : option string) : string :=
  match JS.or_else API_KEY (Some "your-secret-api-key-here") with
  | Some k => k
  | None => "your-secret-api-key-here"
  end.

(** [req.headers['x-api-key'] || req.headers['authorization']?.replace('Bearer ', '')]. *)
Definition extract_key (h : Headers) : option string :=
  JS.or_else (x_api_key h)
    (option_map (JS.replace "Bearer " "") (authorization h)).

(** The body of the [try] block: the request handed to [next()], or the
    exception thrown. *)
Definition check_key (key : string) (req : Request) : Result Request :=
  let apiKey := extract_key (headers req) in
  if JS.falsy apiKey then Throw (AuthenticationError "API key é obrigatória")
  else
    match apiKey with
    | Some k =>
        if negb (String.eqb k key)
        then Throw (AuthenticationError "API key inválida")
        else Ok {| headers := headers req;
                   req_apiKey := Some k;
                   req_isAuthenticated := Some true |}
    | None => Throw (AuthenticationError "API key é obrigatória")
    end.

(** What the middleware does with a request: call [next()] or answer. *)
Inductive Passage :=
| Next (req : Request)
| Respond (res : Response).

(** [authenticateApiKey], with the configured key and the text of
    [new Date().toISOString()]. *)
Definition authenticateApiKey (key iso_now : string) (req : Request) : Passage :=
  match check_key key req with
  | Ok req' => Next req'
  | Throw (AuthenticationError msg) =>
      Respond {| status := 401;
                 body := {| success := false; error := msg; timestamp := iso_now |} |}
  | Throw _ =>
      Respond {| status := 500;
                 body := {| success := false; error := "Erro interno do servidor";
                            timestamp := iso_now |} |}
  end.

(** A route [router.get(path, authenticateApiKey, handler)]: the response and
    the number of times the handler ran. *)
Definition route (key iso_now : string) (handler : Request -> Response)
  (req : Request) : Response * nat :=
  match authenticateApiKey key iso_now req with
  | Next req' => (handler req', 1%nat)
  | Respond res => (res, 0%nat)
  end.

(** The specification's wording of the check: the request presents the
    configured key in the [X-API-Key] header or as [Authorization: Bearer <key>]. *)
Definition spec_presents_key (key : string) (h : Headers) : Prop :=
  x_api_key h = Some key \/ authorization h = Some ("Bearer " ++ key)%string.

(** The middleware calls [next()]. *)
Definition admits (key iso_now : string) (req : Request) : Prop :=
  exists req', authenticateApiKey key iso_now req = Next req'.

Definition request_with (h : Headers) : Request :=
  {| headers := h; req_apiKey := None; req_isAuthenticated := None |}.

(** The answer to a request that is turned away. *)
Definition unauthorized (msg iso_now : string) : Response :=
  {| status := 401;
     body := {| success := false; error := msg; timestamp := iso_now |} |}.

(** ** Event fan-out ([src/index.ts], [WhatsAppController.getEvents]) *)

Inductive Consumer :=
| Sse (conn : nat)     (* one open [GET /whatsapp/events] connection *)
| Sock (id : nat).     (* one connected socket *)

Definition Consumer_eqb (a b : Consumer) : bool :=
  match a, b with
  | Sse x, Sse y => Nat.eqb x y
  | Sock x, Sock y => Nat.eqb x y
  | _, _ => false
  end.

(** The functions registered on the service's [EventEmitter]: the
    [eventHandler] closure of one [getEvents] call, and the listeners that
    [initializeWhatsApp] registers, one per event name. *)
Inductive Listener :=
| SseHandler (conn : nat)
| Bridge (n : EventName).

Definition Listener_eqb (a b : Listener) : bool :=
  match a, b with
  | SseHandler x, SseHandler y => Nat.eqb x y
  | Bridge x, Bridge y => EventName_eqb x y
  | _, _ => false
  end.

Definition Registration : Type := EventName * Listener.

Definition Registration_eqb (a b : Registration) : bool :=
  EventName_eqb (fst a) (fst b) && Listener_eqb (snd a) (snd b).

(** What the bridge sends to the sockets. *)
Inductive Payload :=
| PNotice (message ts : string)
| PQr (qrCode : option Arg) (ts : string)
| PAuthFailure (message : option Arg) (ts : string)
| PDisconnected (reason : option Arg) (ts : string)
| PMessage (m : Message)
| PNotification (notification : option Arg) (ts : string).

Inductive Frame :=
| SseConnected (ts : string)
| SsePing (ts : string)
| SseEvent (data : option Arg) (ts : string)
| SockStatus (snapshot : Session)
| SockEvent (channel : string) (payload : Payload).

(** A frame written to a consumer. [cause] is bookkeeping of the model: the
    sequence number of the emission that made a listener write the frame,
    [None] for frames that no emission caused. *)
Record Delivery := { recipient : Consumer; frame : Frame; cause : option nat }.

Record App := {
  session : Session;
  listeners : list Registration;   (* in order of registration *)
  sockets : list nat;              (* connected sockets *)
  streams : list nat;              (* open event streams *)
  pings : list nat;                (* running ping intervals *)
  next_conn : nat;
  next_sock : nat;
  emissions : nat;                 (* emissions made so far *)
  wire : list Delivery             (* frames written, oldest first *)
}.

(** [emitter.on(name, l)]. *)
Definition on (n : EventName) (l : Listener) (ls : list Registration)
  : list Registration :=
  ls ++ [(n, l)].

Fixpoint remove_first (r : Registration) (ls : list Registration)
  : list Registration :=
  match ls with
  | [] => []
  | x :: rest => if Registration_eqb r x then rest else x :: remove_first r rest
  end.

(** [emitter.removeListener(name, l)]: the most recently added instance goes. *)
Definition removeListener (n : EventName) (l : Listener) (ls : list Registration)
  : list Registration :=
  rev (remove_first (n, l) (rev ls)).

(** The names [getEvents] subscribes its handler to, in source order. *)
Definition sse_events : list EventName :=
  [message; message_create; message_ack; group_join; group_leave; ready;
   disconnected].

(** The names [initializeWhatsApp] bridges to the sockets, in source order. *)
Definition bridged_events : list EventName :=
  [ready; qr; authenticated; auth_failure; disconnected; message;
   message_create; group_join; group_leave].

Definition channel_of (n : EventName) : string :=
  match n with
  | qr => "whatsapp:qr"
  | authenticated => "whatsapp:authenticated"
  | auth_failure => "whatsapp:auth_failure"
  | ready => "whatsapp:ready"
  | disconnected => "whatsapp:disconnected"
  | message => "whatsapp:message"
  | message_create => "whatsapp:message_create"
  | message_ack => "whatsapp:message_ack"
  | message_reaction => "whatsapp:message_reaction"
  | group_join => "whatsapp:group_join"
  | group_leave => "whatsapp:group_leave"
  | battery_changed => "whatsapp:battery_changed"
  | state_changed => "whatsapp:state_changed"
  end.

(** The object a bridge listener passes to [io.emit]. The two message
    listeners read fields of their argument; on an argument that is not a
    message they send nothing. *)
Definition bridge_payload (e : Emission) (ts : string) : option Payload :=
  match ename e with
  | ready => Some (PNotice "WhatsApp está pronto" ts)
  | qr => Some (PQr (hd_error (eargs e)) ts)
  | authenticated => Some (PNotice "WhatsApp autenticado com sucesso" ts)
  | auth_failure => Some (PAuthFailure (hd_error (eargs e)) ts)
  | disconnected => Some (PDisconnected (hd_error (eargs e)) ts)
  | message | message_create =>
      match eargs e with
      | AMsg m :: _ => Some (PMessage m)
      | _ => None
      end
  | group_join | group_leave => Some (PNotification (hd_error (eargs e)) ts)
  | _ => None
  end.

(** One listener called with emission number [k]: the frames it writes.
    [io.emit] reaches every socket connected at that moment. *)
Definition notify (k : nat) (e : Emission) (ts : string) (socks : list nat)
  (l : Listener) : list Delivery :=
  match l with
  | SseHandler conn =>
      [{| recipient := Sse conn; frame := SseEvent (hd_error (eargs e)) ts;
          cause := Some k |}]
  | Bridge _ =>
      match bridge_payload e ts with
      | Some p =>
          map (fun id => {| recipient := Sock id;
                            frame := SockEvent (channel_of (ename e)) p;
                            cause := Some k |}) socks
      | None => []
      end
  end.

(** The listeners registered for a name, in order of registration. *)
Definition listeners_for (n : EventName) (ls : list Registration) : list Listener :=
  map snd (filter (fun r => EventName_eqb (fst r) n) ls).

(** The frames written when the listeners registered for the name of an
    emission are called in turn. *)
Definition frames_of_emission (e : Emission) (ts : string) (a : App)
  : list Delivery :=
  flat_map (notify (emissions a) e ts (sockets a))
           (listeners_for (ename e) (listeners a)).

(** [this.emit(name, ...args)]: the listeners registered for the name at
    that moment are called in turn; nothing is kept for later. *)
Definition emit (e : Emission) (ts : string) (a : App) : App :=
  {| session := session a;
     listeners := listeners a;
     sockets := sockets a;
     streams := streams a;
     pings := pings a;
     next_conn := next_conn a;
     next_sock := next_sock a;
     emissions := S (emissions a);
     wire := wire a ++ frames_of_emission e ts a |}.

Definition with_session (s : Session) (a : App) : App :=
  {| session := s; listeners := listeners a; sockets := sockets a;
     streams := streams a; pings := pings a; next_conn := next_conn a;
     next_sock := next_sock a; emissions := emissions a; wire := wire a |}.

Definition write (d : Delivery) (a : App) : App :=
  {| session := session a; listeners := listeners a; sockets := sockets a;
     streams := streams a; pings := pings a; next_conn := next_conn a;
     next_sock := next_sock a; emissions := emissions a;
     wire := wire a ++ [d] |}.

Definition remove_nat (x : nat) (l : list nat) : list nat :=
  filter (fun y => negb (Nat.eqb x y)) l.

(** What happens to the running application. *)
Inductive Action :=
| ClientRaises (c : Context) (ev : RawEvent) (ts : string)
| SseOpen (ts : string)                 (* a request reaches [getEvents] *)
| SseClose (conn : nat)                 (* ['close'] on that request *)
| PingTimer (conn : nat) (ts : string)  (* the 30 s interval fires *)
| SocketConnect                         (* ['connection'] on the io server *)
| SocketDisconnect (id : nat)
| SocketGetStatus (id : nat).           (* ['whatsapp:get_status'] *)

Definition step (act : Action) (a : App) : App :=
  match act with
  | ClientRaises c ev ts =>
      let '(s, out) := on_event c ev (session a) in
      fold_left (fun acc e => emit e ts acc) out (with_session s a)
  | SseOpen ts =>
      let conn := next_conn a in
      let a1 := write {| recipient := Sse conn; frame := SseConnected ts;
                         cause := None |} a in
      {| session := session a1;
         listeners := fold_left (fun ls n => on n (SseHandler conn) ls)
                                sse_events (listeners a1);
         sockets := sockets a1;
         streams := streams a1 ++ [conn];
         pings := pings a1 ++ [conn];
         next_conn := S conn;
         next_sock := next_sock a1;
         emissions := emissions a1;
         wire := wire a1 |}
  | SseClose conn =>
      if existsb (Nat.eqb conn) (streams a) then
        {| session := session a;
           listeners := fold_left (fun ls n => removeListener n (SseHandler conn) ls)
                                  sse_events (listeners a);
           sockets := sockets a;
           streams := remove_nat conn (streams a);
           pings := remove_nat conn (pings a);
           next_conn := next_conn a;
           next_sock := next_sock a;
           emissions := emissions a;
           wire := wire a |}
      else a
  | PingTimer conn ts =>
      if existsb (Nat.eqb conn) (pings a)
      then write {| recipient := Sse conn; frame := SsePing ts; cause := None |} a
      else a
  | SocketConnect =>
      let id := next_sock a in
      let a1 := write {| recipient := Sock id;
                         frame := SockStatus (getStatus (session a));
                         cause := None |} a in
      {| session := session a1; listeners := listeners a1;
         sockets := sockets a1 ++ [id];
         streams := streams a1; pings := pings a1;
         next_conn := next_conn a1; next_sock := S id;
         emissions := emissions a1; wire := wire a1 |}
  | SocketDisconnect id =>
      {| session := session a; listeners := listeners a;
         sockets := remove_nat id (sockets a);
         streams := streams a; pings := pings a;
         next_conn := next_conn a; next_sock := next_sock a;
         emissions := emissions a; wire := wire a |}
  | SocketGetStatus id =>
      if existsb (Nat.eqb id) (sockets a)
      then write {| recipient := Sock id;
                    frame := SockStatus (getStatus (session a));
                    cause := None |} a
      else a
  end.

(** The application once [new App()] has run: the bridge listeners are
    registered, nobody is connected, nothing was emitted. *)
Definition boot : App :=
  {| session := initial;
     listeners := fold_left (fun ls n => on n (Bridge n) ls) bridged_events [];
     sockets := []; streams := []; pings := [];
     next_conn := 0; next_sock := 0; emissions := 0; wire := [] |}.

Definition run (tr : list Action) (a : App) : App :=
  fold_left (fun acc act => step act acc) tr a.

(** A consumer is attached while its connection is open. *)
Definition attached (c : Consumer) (a : App) : Prop :=
  match c with
  | Sse conn => In conn (streams a)
  | Sock id => In id (sockets a)
  end.

(** The frames a consumer received because of emission number [k]. *)
Definition received (c : Consumer) (k : nat) (a : App) : list Delivery :=
  filter (fun d => Consumer_eqb (recipient d) c &&
                   match cause d with
                   | Some j => Nat.eqb j k
                   | None => false
                   end)
         (wire a).

(** The consumer that an attaching action creates in a given state. *)
Definition attaches (act : Action) (a : App) : option Consumer :=
  match act with
  | SseOpen _ => Some (Sse (next_conn a))
  | SocketConnect => Some (Sock (next_sock a))
  | _ => None
  end.

(** ** Stub collaborators and sample inputs *)

(** A collaborator whose every call is rejected. *)
Definition stub_rejecting : Client :=
  fun _ _ => Rejected (OtherError "stub failure").

Definition sample_message (to content : string) : Message :=
  {| msg_id := "abc"; msg_from := "5511888888888@c.us"; msg_to := to;
     msg_body := content; msg_timestamp := 1700000000; msg_type := "chat";
     hasMedia := false; isForwarded := false; fromMe := true |}.

(** A collaborator whose every call resolves, in the manner of the mock of
    [src/test/setup.ts]; [group] tells what [getChatById] reports as
    [isGroup]. *)
Definition stub_resolving (group : bool) : Client :=
  fun A c =>
    match c in ClientCall T return Settled T with
    | CInitialize | CDestroy | CLogout => Resolved tt
    | CSendMessage to content => Resolved (sample_message to content)
    | CSendMedia to _ caption =>
        Resolved (sample_message to match caption with Some t => t | None => "" end)
    | CGetContacts => Resolved []
    | CGetChats => Resolved []
    | CGetChatById chatId =>
        Resolved {| chat_id := chatId; chat_name := "Test Chat"; isGroup := group |}
    | CCreateGroup gname _ =>
        Resolved {| group_id := "test-group-id"; group_name := gname |}
    | CAcceptInvite _ =>
        Resolved {| group_id := "test-group-id"; group_name := "Test Group" |}
    | CGetContactById contactId =>
        Resolved {| contact_id := contactId; contact_name := None |}
    | CSetStatus _ => Resolved tt
    | ChatGetInviteCode _ => Resolved "https://chat.whatsapp.com/test-invite"
    | ChatFetchMessages _ _ => Resolved []
    | ChatSendSeen _ | ChatMute _ _ | ChatUnmute _ | ChatArchive _
    | ChatUnarchive _ | ChatDelete _ | ChatPin _ | ChatUnpin _ => Resolved tt
    | ContactGetProfilePicUrl _ => Resolved "https://example.com/profile.jpg"
    | ContactBlock _ | ContactUnblock _ => Resolved tt
    end.

Definition sample_info : option ClientInfo :=
  Some {| wid_user := Some "5511888888888"; pushname := Some "Test User" |}.

Definition sample_context : Context := {| clock := 1000; info := sample_info |}.

Definition env_rejecting : Env :=
  {| client := stub_rejecting; client_info := sample_info; now := 2000 |}.

Definition env_resolving : Env :=
  {| client := stub_resolving true; client_info := sample_info; now := 2000 |}.

(** A collaborator that resolves every call and reports chats that are not
    groups. *)
Definition env_not_group : Env :=
  {| client := stub_resolving false; client_info := sample_info; now := 2000 |}.

(** The session once the client has raised [ready] at time 1000. *)
Definition ready_session : Session :=
  state_after [(sample_context, EvReady)].

(** A message received from a contact, and runs of the application used as
    examples. *)
Definition incoming_message : Message :=
  {| msg_id := "false_5511999999999@c.us_3EB0"; msg_from := "5511999999999@c.us";
     msg_to := "5511888888888@c.us"; msg_body := "oi"; msg_timestamp := 1700000000;
     msg_type := "chat"; hasMedia := false; isForwarded := false; fromMe := false |}.

Definition message_arrives : Action :=
  ClientRaises sample_context (EvMessage incoming_message) "2024-01-01T00:00:00.000Z".

(** ** Properties of sessions named by the specification *)

Definition ready_implies_authenticated (s : Session) : Prop :=
  isReady s = true -> isAuthenticated s = true.

Definition qr_only_while_unauthenticated (s : Session) : Prop :=
  qrCode s <> None -> isAuthenticated s = false.

(** A raw event that leaves the stored challenge as it is. *)
Definition keeps_qr (ev : RawEvent) : bool :=
  match ev with
  | EvQr _ | EvReady => false
  | _ => true
  end.

(** The listener of a raw event sets [lastSeen] to the clock. *)
Definition stamps_lastSeen (c : Context) (ev : RawEvent) (s : Session) : Prop :=
  lastSeen (fst (on_event c ev s)) = clock c.

(** An operation run with a collaborator that throws ends in a typed failure. *)
Definition surfaces_typed_failure (op : Op) (env : Env) (s : Session) : Prop :=
  isReady s = true ->
  client_threw (client env) (calls (perform op env s)) ->
  typed_failure (result (perform op env s)).

(** A successful run of an operation sets [lastSeen] to the clock. *)
Definition success_stamps_lastSeen (op : Op) (env : Env) (s : Session) : Prop :=
  succeeded (result (perform op env s)) ->
  lastSeen (final (perform op env s)) = now env.

(** ** Properties of facade computations *)

(** The computation fails whenever the collaborator rejected one of the
    calls it made. *)
Definition lets_rejections_through {A} (m : M A) : Prop :=
  forall env s,
    client_threw (client env) (calls (m env s)) ->
    exists e, result (m env s) = Throw e.

(** The computation leaves [lastSeen] as it is. *)
Definition keeps_lastSeen {A} (m : M A) : Prop :=
  forall env s, lastSeen (final (m env s)) = lastSeen s.

(** When the computation succeeds, [lastSeen] is the clock. *)
Definition stamps_on_success {A} (m : M A) : Prop :=
  forall env s a,
    result (m env s) = Ok a -> lastSeen (final (m env s)) = now env.

(** The computation leaves the whole session as it is. *)
Definition keeps_session {A} (m : M A) : Prop :=
  forall env s, final (m env s) = s.

(** A successful run of a lifecycle operation leaves the initial session. *)
Definition resets_to_initial (m : M unit) (env : Env) (s : Session) : Prop :=
  result (m env s) = Ok tt -> final (m env s) = initial.

(** Every failure of [getGroupInviteLink] carries the code [GET_INVITE_ERROR]. *)
Definition failure_is_invite_error (groupId : string) (env : Env) (s : Session)
  : Prop :=
  forall e,
    result (getGroupInviteLink groupId env s) = Throw e ->
    exn_code e = Some "GET_INVITE_ERROR".

(** ** Well-formed application states *)

(** The consumer and the emission behind each frame that an emission caused. *)
Definition event_keys (ds : list Delivery) : list (Consumer * nat) :=
  flat_map (fun d => match cause d with
                     | Some k => [(recipient d, k)]
                     | None => []
                     end) ds.

Definition known (c : Consumer) (a : App) : Prop :=
  match c with
  | Sse conn => (conn < next_conn a)%nat
  | Sock id => (id < next_sock a)%nat
  end.

(** What holds of the application in every state it can reach. *)
Record Wf (a : App) : Prop := {
  wf_listeners : NoDup (listeners a);
  wf_sockets : NoDup (sockets a);
  wf_handlers : forall n conn,
      In (n, SseHandler conn) (listeners a) ->
      In conn (streams a) /\ In n sse_events;
  wf_bridges : forall n l, In (n, Bridge l) (listeners a) -> l = n;
  wf_streams : forall conn, In conn (streams a) -> (conn < next_conn a)%nat;
  wf_pings : forall conn, In conn (pings a) -> (conn < next_conn a)%nat;
  wf_socks : forall id, In id (sockets a) -> (id < next_sock a)%nat;
  wf_recipients : forall d, In d (wire a) -> known (recipient d) a;
  wf_causes : forall d k,
      In d (wire a) -> cause d = Some k -> (k < emissions a)%nat;
  wf_keys : NoDup (event_keys (wire a))
}.

(** The consumers a listener writes to when it is called. *)
Definition audience (e : Emission) (ts : string) (socks : list nat) (l : Listener)
  : list Consumer :=
  match l with
  | SseHandler conn => [Sse conn]
  | Bridge _ =>
      match bridge_payload e ts with
      | Some _ => map Sock socks
      | None => []
      end
  end.

(** ** [initializeClient] and [restart] ([WhatsAppService.ts]) *)

(** A computation run against another client object; a client that was just
    built has no [info] yet. *)
Definition with_client {A} (c : Client) (m : M A) : M A :=
  fun env s => m {| client := c; client_info := None; now := now env |} s.

(** [initializeClient()]: [built] is how its [try] block ends, with the new
    [Client] or with the exception thrown on the way by [fs] or by the
    constructor. *)
Definition initializeClient (built : Result Client) : M Client :=
  match built with
  | Ok c => ret c
  | Throw _ =>
      throw (mkWhatsAppError "Falha ao inicializar cliente WhatsApp" "INIT_ERROR")
  end.

(** [restart()]: teardown, then a new client, then its start. The two
    seconds waited in between change nothing of what is modelled. *)
Definition restart (built : Result Client) : M unit :=
  try_catch
    (destroy ;;;
     c <- initializeClient built ;;
     with_client c initialize)
    (rethrow_as "Falha ao reiniciar cliente WhatsApp" "RESTART_ERROR").

(** ** More of [src/middleware/auth.ts] *)

(** [optionalAuth] always calls [next()]; this is the request it hands on. *)
Definition optionalAuth (key : string) (req : Request) : Request :=
  let apiKey := extract_key (headers req) in
  if negb (JS.falsy apiKey) then
    match apiKey with
    | Some k =>
        if String.eqb k key
        then {| headers := headers req; req_apiKey := Some k;
                req_isAuthenticated := Some true |}
        else {| headers := headers req; req_apiKey := req_apiKey req;
                req_isAuthenticated := Some false |}
    | None => {| headers := headers req; req_apiKey := req_apiKey req;
                 req_isAuthenticated := Some false |}
    end
  else {| headers := headers req; req_apiKey := req_apiKey req;
          req_isAuthenticated := Some false |}.

Definition validateApiKey (key apiKey : string) : bool := String.eqb apiKey key.

(** The alphabet of [generateApiKey]. *)
Definition key_chars : string :=
  "ABCDEFGHIJKLMNOPQRSTUVWXYZabcdefghijklmnopqrstuvwxyz0123456789".

(** [s.charAt(i)]: one character, the empty string out of range. *)
Definition charAt (s : string) (i : nat) : string :=
  match String.get i s with
  | Some c => String c EmptyString
  | None => EmptyString
  end.

(** The loop of [generateApiKey] with [n] rounds to go at index [i];
    [draw i] is the value of [Math.floor(Math.random() * chars.length)] in
    round [i]. *)
Fixpoint generate_from (n i : nat) (draw : nat -> nat) (result : string) : string :=
  match n with
  | O => result
  | S n' =>
      generate_from n' (S i) draw (result ++ charAt key_chars (draw i))%string
  end.

Definition generateApiKey (draw : nat -> nat) : string :=
  generate_from 32 0 draw "".

(** ** The validation middleware ([src/middleware/validation.ts]) *)

(** The four parts of a request that a schema can cover. *)
Record Parts (V : Type) := {
  part_body : V;
  part_query : V;
  part_params : V;
  part_headers : V
}.
Arguments part_body {V} _.
Arguments part_query {V} _.
Arguments part_params {V} _.
Arguments part_headers {V} _.

(** A Joi schema as the middleware uses it: [schema.validate(part).error],
    reduced to [error.details[0].message], or no error. *)
Definition Check (V : Type) : Type := V -> option string.

Record ValidationSchema (V : Type) := {
  schema_body : option (Check V);
  schema_query : option (Check V);
  schema_params : option (Check V);
  schema_headers : option (Check V)
}.
Arguments schema_body {V} _.
Arguments schema_query {V} _.
Arguments schema_params {V} _.
Arguments schema_headers {V} _.

(** One entry of [errors]. *)
Record Issue (V : Type) := {
  issue_field : string;
  issue_message : string;
  issue_value : V
}.
Arguments issue_field {V} _.
Arguments issue_message {V} _.
Arguments issue_value {V} _.

(** The entry pushed for one part, if its schema is there and rejects it. *)
Definition check_part {V} (name : string) (check : option (Check V)) (v : V)
  : list (Issue V) :=
  match check with
  | Some validate_part =>
      match validate_part v with
      | Some msg => [{| issue_field := name; issue_message := msg; issue_value := v |}]
      | None => []
      end
  | None => []
  end.

(** [errors] once the four parts have been looked at. *)
Definition validation_errors {V} (schema : ValidationSchema V) (req : Parts V)
  : list (Issue V) :=
  check_part "body" (schema_body schema) (part_body req) ++
  check_part "query" (schema_query schema) (part_query req) ++
  check_part "params" (schema_params schema) (part_params req) ++
  check_part "headers" (schema_headers schema) (part_headers req).

(** What [validate(schema)] does with a request. *)
Inductive Validated (V : Type) :=
| Valid
| Invalid (status : Z) (success : bool) (error : string) (details : list (Issue V))
          (timestamp : string).
Arguments Valid {V}.
Arguments Invalid {V} status success error details timestamp.

Definition validate {V} (schema : ValidationSchema V) (iso_now : string)
  (req : Parts V) : Validated V :=
  let errors := validation_errors schema req in
  if (0 <? length errors)%nat
  then Invalid 400 false "Dados inválidos" errors iso_now
  else Valid.

(** What a route [router.post(path, authenticateApiKey, validate(schema),
    handler)] answers, with the number of times the handler ran. *)
Inductive Answer (V H : Type) :=
| Refused (res : Response)
| Rejected_input (v : Validated V)
| Handled (h : H).
Arguments Refused {V H} res.
Arguments Rejected_input {V H} v.
Arguments Handled {V H} h.

Definition validated_route {V H} (key iso_now : string)
  (schema : ValidationSchema V) (handler : Request -> Parts V -> H)
  (req : Request) (parts : Parts V) : Answer V H * nat :=
  match authenticateApiKey key iso_now req with
  | Respond res => (Refused res, 0%nat)
  | Next req' =>
      match validate schema iso_now parts with
      | Valid => (Handled (handler req' parts), 1%nat)
      | v => (Rejected_input v, 0%nat)
      end
  end.

(** ** [Array.prototype.slice] and pagination arithmetic *)

(** [l.slice(start, end)] on integers: a negative index counts from the end,
    indices are clamped to the array. *)
Definition js_slice {A} (start stop : Z) (l : list A) : list A :=
  let len := Z.of_nat (length l) in
  let k := if (start <? 0)%Z then Z.max (len + start) 0 else Z.min start len in
  let final := if (stop <? 0)%Z then Z.max (len + stop) 0 else Z.min stop len in
  firstn (Z.to_nat (final - k)) (skipn (Z.to_nat k) l).

(** [Math.ceil(total / limitNum)] as [JSON.stringify] writes it: [null] when
    the quotient is not finite, an integer otherwise (operands within the
    integers that a double represents exactly). *)
Definition ceil_quotient (total limitNum : Z) : option Z :=
  if (limitNum =? 0)%Z then None else Some (- ((- total) / limitNum))%Z.

(** ** The controllers *)

(** [ApiResponse] and what [res.status(code).json(response)] sends. The
    [MessageResponse] built from a message copies the nine fields that
    [Message] has here. *)
Module Api.

Inductive Data :=
| Status (s : Session)
| QrCode (qrCode : string)
| Info (i : option ClientInfo)
| Sent (m : Message)
| Page (items : list Message) (page limit total : Z) (totalPages : option Z)
| ProfilePic (profilePicUrl : string)
| InviteLink (inviteLink : string).

Record Response := {
  success : bool;
  data : option Data;
  message : option string;
  error : option string;
  timestamp : string
}.

Record Reply := { status : Z; body : Response }.

End Api.

(** [res.json(response)] with [success: true]. *)
Definition replied (d : option Api.Data) (msg iso_now : string) : Api.Reply :=
  {| Api.status := 200;
     Api.body := {| Api.success := true; Api.data := d; Api.message := Some msg;
                    Api.error := None; Api.timestamp := iso_now |} |}.

(** [res.status(code).json(response)] with [success: false]. *)
Definition failed (code : Z) (err iso_now : string) : Api.Reply :=
  {| Api.status := code;
     Api.body := {| Api.success := false; Api.data := None; Api.message := None;
                    Api.error := Some err; Api.timestamp := iso_now |} |}.

(** The body of [POST /messages/send]: fields typed [string] in
    [SendMessageRequest], absent ones [None]. *)
Record MediaInput := {
  media_input_data : string;
  media_input_filename : option string;
  media_input_mimetype : option string
}.

Record SendMessageRequest := {
  send_to : option string;
  send_message : option string;
  send_type : option string;
  send_media : option MediaInput
}.

Module WhatsAppController.

Definition getQRCode (iso_now : string) : M Api.Reply :=
  try_catch
    (s <- get ;;
     match JS.or_null (qrCode (getStatus s)) with
     | None =>
         ret (failed 404
                "QR Code não disponível. Cliente pode estar pronto ou não inicializado."
                iso_now)
     | Some code =>
         ret (replied (Some (Api.QrCode code)) "QR Code obtido com sucesso" iso_now)
     end)
    (fun _ => ret (failed 500 "Erro ao obter QR Code" iso_now)).

Definition getStatus (iso_now : string) : M Api.Reply :=
  try_catch
    (s <- get ;;
     ret (replied (Some (Api.Status (getStatus s))) "Status obtido com sucesso" iso_now))
    (fun _ => ret (failed 500 "Erro ao obter status do WhatsApp" iso_now)).

Definition initialize (iso_now : string) : M Api.Reply :=
  try_catch
    (initialize ;;;
     ret (replied None "WhatsApp inicializado com sucesso" iso_now))
    (fun _ => ret (failed 500 "Erro ao inicializar WhatsApp" iso_now)).

Definition restart (iso_now : string) (built : Result Client) : M Api.Reply :=
  try_catch
    (restart built ;;;
     ret (replied None "WhatsApp reiniciado com sucesso" iso_now))
    (fun _ => ret (failed 500 "Erro ao reiniciar WhatsApp" iso_now)).

Definition logout (iso_now : string) : M Api.Reply :=
  try_catch
    (logout ;;;
     ret (replied None "Logout realizado com sucesso" iso_now))
    (fun _ => ret (failed 500 "Erro ao fazer logout" iso_now)).

Definition getClientInfo (iso_now : string) : M Api.Reply :=
  try_catch
    (i <- getClientInfo ;;
     ret (replied (Some (Api.Info i)) "Informações do cliente obtidas com sucesso"
            iso_now))
    (fun _ => ret (failed 500 "Erro ao obter informações do cliente" iso_now)).

(** [status] is [None] when the body has no [status] or one that is not a
    string. *)
Definition setStatusMessage (iso_now : string) (status : option string)
  : M Api.Reply :=
  try_catch
    (match JS.or_null status with
     | None =>
         ret (failed 400 "Status é obrigatório e deve ser uma string" iso_now)
     | Some text =>
         setStatus text ;;;
         ret (replied None "Status alterado com sucesso" iso_now)
     end)
    (fun _ => ret (failed 500 "Erro ao alterar status" iso_now)).

End WhatsAppController.

Module MessageController.

Definition sendMessage (iso_now : string) (req : SendMessageRequest) : M Api.Reply :=
  try_catch
    (let type := match send_type req with Some t => t | None => "text" end in
     match JS.or_null (send_to req), JS.or_null (send_message req) with
     | Some to, Some text =>
         if String.eqb type "text" then
           sentMessage <- sendMessage to text ;;
           ret (replied (Some (Api.Sent sentMessage)) "Mensagem enviada com sucesso"
                  iso_now)
         else
           match send_media req with
           | Some media =>
               let messageMedia :=
                 {| mimetype :=
                      match JS.or_else (media_input_mimetype media) (Some "text/plain") with
                      | Some m => m
                      | None => "text/plain"
                      end;
                    media_data := media_input_data media;
                    filename := media_input_filename media |} in
               sentMessage <- sendMedia to messageMedia (Some text) ;;
               ret (replied (Some (Api.Sent sentMessage))
                      "Mensagem enviada com sucesso" iso_now)
           | None =>
               ret (failed 400 "Mídia é obrigatória para tipos diferentes de texto"
                      iso_now)
           end
     | _, _ =>
         ret (failed 400 "Destinatário e mensagem são obrigatórios" iso_now)
     end)
    (fun _ => ret (failed 500 "Erro ao enviar mensagem" iso_now)).

(** [limitNum] and [pageNum] are the integers that [parseInt] makes of the
    query (50 and 1 when the query leaves them out). *)
Definition getMessages (iso_now chatId : string) (limitNum pageNum : Z)
  : M Api.Reply :=
  try_catch
    (let offset := ((pageNum - 1) * limitNum)%Z in
     messages <- getMessages chatId (limitNum + offset)%Z ;;
     let paginatedMessages := js_slice offset (offset + limitNum)%Z messages in
     ret (replied
            (Some (Api.Page paginatedMessages pageNum limitNum
                     (Z.of_nat (length messages))
                     (ceil_quotient (Z.of_nat (length messages)) limitNum)))
            "Mensagens obtidas com sucesso" iso_now))
    (fun _ => ret (failed 500 "Erro ao obter mensagens" iso_now)).

End MessageController.

Module ContactController.

Definition getProfilePicture (iso_now contactId : string) : M Api.Reply :=
  try_catch
    (profilePicUrl <- getProfilePicture contactId ;;
     match JS.or_null profilePicUrl with
     | None => ret (failed 404 "Foto de perfil não encontrada" iso_now)
     | Some url =>
         ret (replied (Some (Api.ProfilePic url)) "Foto de perfil obtida com sucesso"
                iso_now)
     end)
    (fun _ => ret (failed 500 "Erro ao obter foto de perfil" iso_now)).

Definition blockContact (iso_now contactId : string) : M Api.Reply :=
  try_catch
    (blockContact contactId ;;;
     ret (replied None "Contato bloqueado com sucesso" iso_now))
    (fun _ => ret (failed 500 "Erro ao bloquear contato" iso_now)).

Definition markChatAsRead (iso_now contactId : string) : M Api.Reply :=
  try_catch
    (markAsRead contactId ;;;
     ret (replied None "Chat marcado como lido com sucesso" iso_now))
    (fun _ => ret (failed 500 "Erro ao marcar chat como lido" iso_now)).

End ContactController.

Module GroupController.

Definition getInviteLink (iso_now groupId : string) : M Api.Reply :=
  try_catch
    (inviteLink <- getGroupInviteLink groupId ;;
     ret (replied (Some (Api.InviteLink inviteLink))
            "Link de convite gerado com sucesso" iso_now))
    (fun _ => ret (failed 500 "Erro ao obter link de convite" iso_now)).

End GroupController.

(** The modelled endpoints with what the request carries. *)
Inductive Endpoint :=
| GetStatus
| GetQr
| PostInitialize
| PostRestart (built : Result Client)
| PostLogout
| GetInfo
| PostStatusMessage (status : option string)
| PostSend (req : SendMessageRequest)
| GetMessages (chatId : string) (limitNum pageNum : Z)
| GetProfilePicture (contactId : string)
| PostBlock (contactId : string)
| PostMarkRead (contactId : string)
| PostInviteLink (groupId : string).

Definition serve (iso_now : string) (e : Endpoint) : M Api.Reply :=
  match e with
  | GetStatus => WhatsAppController.getStatus iso_now
  | GetQr => WhatsAppController.getQRCode iso_now
  | PostInitialize => WhatsAppController.initialize iso_now
  | PostRestart built => WhatsAppController.restart iso_now built
  | PostLogout => WhatsAppController.logout iso_now
  | GetInfo => WhatsAppController.getClientInfo iso_now
  | PostStatusMessage status => WhatsAppController.setStatusMessage iso_now status
  | PostSend req => MessageController.sendMessage iso_now req
  | GetMessages chatId limitNum pageNum =>
      MessageController.getMessages iso_now chatId limitNum pageNum
  | GetProfilePicture contactId => ContactController.getProfilePicture iso_now contactId
  | PostBlock contactId => ContactController.blockContact iso_now contactId
  | PostMarkRead contactId => ContactController.markChatAsRead iso_now contactId
  | PostInviteLink groupId => GroupController.getInviteLink iso_now groupId
  end.

(** The endpoints whose handler calls a guarded operation of the service. *)
Definition needs_ready (e : Endpoint) : bool :=
  match e with
  | GetStatus | GetQr | PostInitialize | PostRestart _ | PostLogout => false
  | _ => true
  end.

(** A reply whose status code and envelope agree. *)
Definition consistent (iso_now : string) (r : Api.Reply) : Prop :=
  Api.timestamp (Api.body r) = iso_now /\
  ((Api.status r = 200%Z /\ Api.success (Api.body r) = true /\
    Api.error (Api.body r) = None /\ Api.message (Api.body r) <> None) \/
   ((Api.status r = 400%Z \/ Api.status r = 404%Z \/ Api.status r = 500%Z) /\
    Api.success (Api.body r) = false /\ Api.data (Api.body r) = None /\
    Api.message (Api.body r) = None /\ Api.error (Api.body r) <> None)).

(** ** More properties of facade computations *)

(** The computation leaves the session as it is, or, when it succeeds, with
    [lastSeen] set to the clock and nothing else changed. *)
Definition stamps_or_keeps {A} (m : M A) : Prop :=
  forall env s,
    match result (m env s) with
    | Ok _ => final (m env s) = s \/ final (m env s) = set_lastSeen (now env) s
    | Throw _ => final (m env s) = s
    end.

Definition resolves (cl : Client) (k : AnyCall) : Prop :=
  match k with
  | Called c => exists a, cl _ c = Resolved a
  end.

(** Every call but the last one made by the computation was resolved. *)
Definition stops_at_rejection {A} (m : M A) : Prop :=
  forall env s, Forall (resolves (client env)) (removelast (calls (m env s))).

(** The session with the two flags cleared. *)
Definition flags_cleared (s : Session) : Session :=
  set_isAuthenticated false (set_isReady false s).

(** ** More properties of sessions *)

(** A raw event that leaves [isReady] as it is. *)
Definition keeps_isReady (ev : RawEvent) : bool :=
  match ev with
  | EvReady | EvDisconnected _ => false
  | _ => true
  end.

(** A raw event that leaves [isAuthenticated] as it is. *)
Definition keeps_isAuthenticated (ev : RawEvent) : bool :=
  match ev with
  | EvAuthenticated | EvAuthFailure _ | EvReady | EvDisconnected _ => false
  | _ => true
  end.

Definition is_ready_event (ev : RawEvent) : bool :=
  match ev with
  | EvReady => true
  | _ => false
  end.

(** Two sessions that differ in [lastSeen] at most. *)
Definition same_but_lastSeen (s1 s2 : Session) : Prop :=
  set_lastSeen 0 s1 = set_lastSeen 0 s2.

(** The lifecycle events of a sequence, in order. *)
Definition lifecycle_only (evs : list Stimulus) : list Stimulus :=
  filter (fun x => is_lifecycle (snd x)) evs.

(** The clock read by the listeners does not go back along the sequence,
    starting from [t]. *)
Fixpoint clock_ascends (t : Z) (evs : list Stimulus) : Prop :=
  match evs with
  | [] => True
  | (c, _) :: rest => (t <= clock c)%Z /\ clock_ascends (clock c) rest
  end.

(** ** More properties of the middlewares *)

(** A present schema accepts the part it covers. *)
Definition passes {V} (check : option (Check V)) (v : V) : Prop :=
  match check with
  | Some validate_part => validate_part v = None
  | None => True
  end.

Definition all_pass {V} (schema : ValidationSchema V) (req : Parts V) : Prop :=
  passes (schema_body schema) (part_body req) /\
  passes (schema_query schema) (part_query req) /\
  passes (schema_params schema) (part_params req) /\
  passes (schema_headers schema) (part_headers req).

(** ** More properties of the controllers *)

(** Whatever the computation resolves to satisfies [P]. *)
Definition yields {A} (P : A -> Prop) (m : M A) : Prop :=
  forall env s a, result (m env s) = Ok a -> P a.

(** A reply with status 200 comes with no rejected call on the client. *)
Definition honest (m : M Api.Reply) : Prop :=
  forall env s r,
    result (m env s) = Ok r -> Api.status r = 200%Z ->
    Forall (resolves (client env)) (calls (m env s)).

Definition is_restart (e : Endpoint) : bool :=
  match e with
  | PostRestart _ => true
  | _ => false
  end.


(** ** More properties of the fan-out *)

(** The frame that an emission brings to a consumer, if any: a stream gets
    the first argument of the seven events it subscribes to, a socket the
    payload of the bridged events on their channel. *)
Definition frame_for (c : Consumer) (e : Emission) (ts : string) : option Frame :=
  match c with
  | Sse _ =>
      if existsb (EventName_eqb (ename e)) sse_events
      then Some (SseEvent (hd_error (eargs e)) ts)
      else None
  | Sock _ => option_map (SockEvent (channel_of (ename e))) (bridge_payload e ts)
  end.

(** The frames written to a consumer by the last step. *)
Definition written_to (c : Consumer) (before after : App) : list Delivery :=
  filter (fun d => Consumer_eqb (recipient d) c)
         (skipn (length (wire before)) (wire after)).

(** What holds of the registrations in every state the application can
    reach: each open stream has its handler under the seven names, each
    bridge is in place, and nothing else is registered or running. *)
Record Full (a : App) : Prop := {
  full_handlers : forall conn n,
      In conn (streams a) -> In n sse_events -> In (n, SseHandler conn) (listeners a);
  full_bridges : forall n, In n bridged_events -> In (n, Bridge n) (listeners a);
  full_streams : NoDup (streams a);
  full_pings : pings a = streams a;
  full_count : length (listeners a) = (9 + 7 * length (streams a))%nat
}.


(** ** Phone helpers of the validation middleware *)

(** A character [0] to [9]. *)
Definition is_digit (c : ascii) : bool :=
  (48 <=? nat_of_ascii c)%nat && (nat_of_ascii c <=? 57)%nat.

(** [s.replace(/\D/g, '')]: every character that is not a digit goes. *)
Fixpoint strip_non_digits (s : string) : string :=
  match s with
  | EmptyString => EmptyString
  | String c rest =>
      if is_digit c then String c (strip_non_digits rest) else strip_non_digits rest
  end.

Fixpoint all_digits (s : string) : bool :=
  match s with
  | EmptyString => true
  | String c rest => is_digit c && all_digits rest
  end.

(** [/^55[1-9][0-9]{8,9}$/.test(s)]. *)
Definition matches_brazilian (s : string) : bool :=
  match s with
  | String "5" (String "5" (String d rest)) =>
      (49 <=? nat_of_ascii d)%nat && (nat_of_ascii d <=? 57)%nat &&
      all_digits rest &&
      ((String.length rest =? 8)%nat || (String.length rest =? 9)%nat)
  | _ => false
  end.

Definition validateBrazilianPhone (phone : string) : bool :=
  let cleanPhone := strip_non_digits phone in
  matches_brazilian cleanPhone.

Definition formatPhoneForWhatsApp (phone : string) : string :=
  let cleanPhone := strip_non_digits phone in
  if JS.starts_with "55" cleanPhone
  then (cleanPhone ++ "@c.us")%string
  else ("55" ++ cleanPhone ++ "@c.us")%string.


(** * Theorems *)

(** ** Session state under lifecycle events *)

Lemma feed_app (xs ys : list Stimulus) (s : Session) :
  feed (xs ++ ys) s =
  (fst (feed ys (fst (feed xs s))), snd (feed xs s) ++ snd (feed ys (fst (feed xs s)))).
Proof.
  revert s. induction xs as [|[c ev] xs IH]; intros s; simpl.
  - now destruct (feed ys s).
  - destruct (on_event c ev s) as [s1 out1] eqn:E1.
    rewrite IH. destruct (feed xs s1) as [s2 out2]; simpl.
    destruct (feed ys s2) as [s3 out3]; simpl.
    now rewrite app_assoc.
Qed.

Lemma state_after_snoc (evs : list Stimulus) (c : Context) (ev : RawEvent) :
  state_after (evs ++ [(c, ev)]) = fst (on_event c ev (state_after evs)).
Proof.
  unfold state_after. rewrite feed_app. simpl.
  now destruct (on_event c ev (fst (feed evs initial))).
Qed.

Lemma on_event_emits (c : Context) (ev : RawEvent) (s : Session) :
  snd (on_event c ev s) = [emission_of ev].
Proof. now destruct ev. Qed.

Lemma emission_of_name (ev : RawEvent) : ename (emission_of ev) = raw_name ev.
Proof. now destruct ev. Qed.

(** Every listener except the one of [auth_failure] keeps
    [isReady => isAuthenticated]. *)
Lemma on_event_keeps_ready_implies_authenticated
  (c : Context) (ev : RawEvent) (s : Session) :
  (forall msg, ev <> EvAuthFailure msg) ->
  ready_implies_authenticated s ->
  ready_implies_authenticated (fst (on_event c ev s)).
Proof.
  unfold ready_implies_authenticated.
  intros Hne Hs. destruct ev; simpl; auto; try discriminate.
  exfalso. now apply (Hne msg).
Qed.

(** C1 (the code departs from the specification): after [ready] followed by
    [auth_failure] the session has [isReady = true] and [isAuthenticated =
    false]; the listener of [auth_failure] clears [isAuthenticated] and leaves
    [isReady] as it is. *)
Theorem auth_failure_after_ready :
  let s := state_after [(sample_context, EvReady);
                        (sample_context, EvAuthFailure "session expired")] in
  isReady s = true /\ isAuthenticated s = false /\
  ~ ready_implies_authenticated s.
Proof.
  cbv zeta. repeat split.
  unfold ready_implies_authenticated. simpl. intros H.
  specialize (H eq_refl). discriminate.
Qed.

(** Without [auth_failure] events the invariant holds along every sequence
    of raw events. *)
Lemma ready_implies_authenticated_without_auth_failure (evs : list Stimulus) :
  Forall (fun x => forall msg, snd x <> EvAuthFailure msg) evs ->
  ready_implies_authenticated (state_after evs).
Proof.
  induction evs as [|[c ev] evs IH] using rev_ind; intros H.
  - unfold ready_implies_authenticated. simpl. discriminate.
  - apply Forall_app in H. destruct H as [H1 H2].
    rewrite state_after_snoc.
    apply on_event_keeps_ready_implies_authenticated.
    + now inversion H2.
    + now apply IH.
Qed.

(** ** The stored challenge *)

Lemma on_event_keeps_qr (c : Context) (ev : RawEvent) (s : Session) :
  keeps_qr ev = true -> qrCode (fst (on_event c ev s)) = qrCode s.
Proof. destruct ev; simpl; intros H; try reflexivity; discriminate. Qed.

Lemma qr_stays_until_ready_or_qr (post pre : list Stimulus) (c : Context) (code : string) :
  Forall (fun x => keeps_qr (snd x) = true) post ->
  qrCode (state_after (pre ++ (c, EvQr code) :: post)) = Some code.
Proof.
  induction post as [|[c' ev] post IH] using rev_ind; intros H.
  - now rewrite state_after_snoc.
  - apply Forall_app in H. destruct H as [H1 H2].
    rewrite app_comm_cons, app_assoc.
    rewrite state_after_snoc, on_event_keeps_qr.
    + now apply IH.
    + now inversion H2.
Qed.

Lemma qr_comes_from_a_qr_event (evs : list Stimulus) (code : string) :
  qrCode (state_after evs) = Some code ->
  exists pre c post,
    evs = pre ++ (c, EvQr code) :: post /\
    Forall (fun x => keeps_qr (snd x) = true) post.
Proof.
  induction evs as [|[c ev] evs IH] using rev_ind.
  - discriminate.
  - rewrite state_after_snoc. intros H.
    destruct (keeps_qr ev) eqn:K.
    + rewrite on_event_keeps_qr in H by assumption.
      destruct (IH H) as (pre & c0 & post & -> & F).
      exists pre, c0, (post ++ [(c, ev)]). split.
      * now rewrite <- app_assoc.
      * apply Forall_app. split; [assumption|]. now constructor.
    + destruct ev; try discriminate K; simpl in H.
      * injection H as ->. exists evs, c, []. split; [reflexivity | constructor].
      * discriminate H.
Qed.

(** C4 (counterexample to the specification): a challenge stored by [qr] is
    still there after [authenticated], in a session with [isAuthenticated =
    true]. *)
Lemma qr_survives_authenticated :
  ~ qr_only_while_unauthenticated
      (state_after [(sample_context, EvQr "2@challenge");
                    (sample_context, EvAuthenticated)]).
Proof.
  unfold qr_only_while_unauthenticated. simpl. intros H.
  assert (E : true = false) by (apply H; discriminate).
  discriminate E.
Qed.

(** C4 (as the code has it): along every sequence of raw events the stored
    challenge is non-null exactly when a [qr] event arrived and neither
    [ready] nor a newer [qr] followed it, and it is then the challenge of that
    event; the listener of [ready] clears the challenge, the listener of
    [authenticated] leaves it as it is. *)
Theorem stored_qr_cleared_by_ready :
  (forall evs code,
      qrCode (state_after evs) = Some code <->
      exists pre c post,
        evs = pre ++ (c, EvQr code) :: post /\
        Forall (fun x => keeps_qr (snd x) = true) post) /\
  (forall c s, qrCode (fst (on_event c EvReady s)) = None) /\
  (forall c s, qrCode (fst (on_event c EvAuthenticated s)) = qrCode s).
Proof.
  split; [|split; reflexivity].
  intros evs code. split.
  - apply qr_comes_from_a_qr_event.
  - intros (pre & c & post & -> & F). now apply qr_stays_until_ready_or_qr.
Qed.

Lemma stored_qr_cleared_by_ready_witness :
  qrCode (state_after [(sample_context, EvQr "2@challenge");
                       (sample_context, EvAuthenticated)]) = Some "2@challenge" /\
  exists pre c post,
    [(sample_context, EvQr "2@challenge"); (sample_context, EvAuthenticated)] =
      pre ++ (c, EvQr "2@challenge") :: post /\
    Forall (fun x => keeps_qr (snd x) = true) post.
Proof.
  split; [reflexivity|].
  apply (proj1 (proj1 stored_qr_cleared_by_ready
                  [(sample_context, EvQr "2@challenge");
                   (sample_context, EvAuthenticated)] "2@challenge")).
  reflexivity.
Defined.

(** ** Emissions and [lastSeen] under lifecycle events *)

Lemma feed_emits (evs : list Stimulus) (s : Session) :
  snd (feed evs s) = map (fun x => emission_of (snd x)) evs.
Proof.
  revert s. induction evs as [|[c ev] evs IH]; intros s; simpl.
  - reflexivity.
  - pose proof (on_event_emits c ev s) as E.
    destruct (on_event c ev s) as [s1 out1]. simpl in E. subst out1.
    specialize (IH s1). destruct (feed evs s1) as [s2 out2]. simpl in *.
    now rewrite IH.
Qed.

(** C5 (counterexample to the specification): the listener of [qr] leaves
    [lastSeen] at its old value instead of the clock. *)
Lemma qr_does_not_stamp_lastSeen :
  ~ stamps_lastSeen sample_context (EvQr "2@challenge") initial.
Proof. unfold stamps_lastSeen. simpl. discriminate. Qed.

(** C5 (as the code has it): every raw event makes the service emit exactly
    one event, its own, and the emissions come in the order of the raw events;
    among the lifecycle listeners only the one of [ready] sets [lastSeen] to
    the clock, those of [qr], [authenticated], [auth_failure] and
    [disconnected] leave [lastSeen] as it is. *)
Theorem one_emission_per_event_in_order :
  (forall evs, emitted evs = map (fun x => emission_of (snd x)) evs) /\
  (forall evs, map ename (emitted evs) = map (fun x => raw_name (snd x)) evs) /\
  (forall c s, lastSeen (fst (on_event c EvReady s)) = clock c) /\
  (forall c ev s,
      is_lifecycle ev = true -> ev <> EvReady ->
      lastSeen (fst (on_event c ev s)) = lastSeen s).
Proof.
  split; [|split; [|split]].
  - intros evs. apply feed_emits.
  - intros evs. unfold emitted. rewrite feed_emits, map_map.
    apply map_ext. intros [c ev]. apply emission_of_name.
  - reflexivity.
  - intros c ev s L N. destruct ev; try discriminate L; try reflexivity.
    now elim N.
Qed.

Lemma one_emission_per_event_in_order_witness :
  let evs := [(sample_context, EvQr "2@challenge");
              (sample_context, EvAuthenticated);
              (sample_context, EvReady);
              (sample_context, EvDisconnected "LOGOUT")] in
  map ename (emitted evs) = [qr; authenticated; ready; disconnected] /\
  lastSeen (fst (on_event sample_context (EvDisconnected "LOGOUT") ready_session))
    = lastSeen ready_session.
Proof.
  cbv zeta. split.
  - exact (proj1 (proj2 one_emission_per_event_in_order)
             [(sample_context, EvQr "2@challenge");
              (sample_context, EvAuthenticated);
              (sample_context, EvReady);
              (sample_context, EvDisconnected "LOGOUT")]).
  - apply (proj2 (proj2 (proj2 one_emission_per_event_in_order))).
    + reflexivity.
    + discriminate.
Defined.

(** ** The readiness guard *)

Lemma require_ready_not_ready (env : Env) (s : Session) :
  isReady s = false ->
  require_ready env s =
  {| result := Throw (mkWhatsAppError "Cliente WhatsApp não está pronto" "NOT_READY");
     final := s; calls := [] |}.
Proof. intros H. unfold require_ready, bind, get, throw. simpl. now rewrite H. Qed.

Lemma require_ready_ready (env : Env) (s : Session) :
  isReady s = true ->
  require_ready env s = {| result := Ok tt; final := s; calls := [] |}.
Proof. intros H. unfold require_ready, bind, get, ret. simpl. now rewrite H. Qed.

(** C2: [sendMessage] on a session that is not ready rejects with the
    [WhatsAppError] of code [NOT_READY], makes no call on the wrapped client
    and leaves the session as it was, whatever the recipient and the text. *)
Theorem sendMessage_not_ready (env : Env) (s : Session) (to content : string) :
  isReady s = false ->
  let r := sendMessage to content env s in
  result r = Throw (WhatsAppError "Cliente WhatsApp não está pronto" "NOT_READY" 500) /\
  calls r = [] /\
  final r = s.
Proof.
  intros H. unfold sendMessage, bind. rewrite (require_ready_not_ready env s H).
  simpl. repeat split.
Qed.

Lemma sendMessage_not_ready_witness :
  isReady initial = false /\
  let r := sendMessage "5511999999999@c.us" "hi" env_resolving initial in
  result r = Throw (WhatsAppError "Cliente WhatsApp não está pronto" "NOT_READY" 500) /\
  calls r = [] /\
  final r = initial.
Proof.
  split; [reflexivity|].
  apply (sendMessage_not_ready env_resolving initial "5511999999999@c.us" "hi").
  reflexivity.
Defined.

(** ** Running facade computations step by step *)

Lemma result_bind {A B} (m : M A) (k : A -> M B) (env : Env) (s : Session) :
  result (bind m k env s) =
  match result (m env s) with
  | Ok a => result (k a env (final (m env s)))
  | Throw e => Throw e
  end.
Proof. unfold bind. now destruct (result (m env s)). Qed.

Lemma final_bind {A B} (m : M A) (k : A -> M B) (env : Env) (s : Session) :
  final (bind m k env s) =
  match result (m env s) with
  | Ok a => final (k a env (final (m env s)))
  | Throw e => final (m env s)
  end.
Proof. unfold bind. now destruct (result (m env s)). Qed.

Lemma calls_bind {A B} (m : M A) (k : A -> M B) (env : Env) (s : Session) :
  calls (bind m k env s) =
  match result (m env s) with
  | Ok a => calls (m env s) ++ calls (k a env (final (m env s)))
  | Throw e => calls (m env s)
  end.
Proof. unfold bind. now destruct (result (m env s)). Qed.

Lemma result_try_catch {A} (body : M A) (h : Exn -> M A) (env : Env) (s : Session) :
  result (try_catch body h env s) =
  match result (body env s) with
  | Ok a => Ok a
  | Throw e => result (h e env (final (body env s)))
  end.
Proof. unfold try_catch. now destruct (result (body env s)) eqn:E. Qed.

Lemma final_try_catch {A} (body : M A) (h : Exn -> M A) (env : Env) (s : Session) :
  final (try_catch body h env s) =
  match result (body env s) with
  | Ok a => final (body env s)
  | Throw e => final (h e env (final (body env s)))
  end.
Proof. unfold try_catch. now destruct (result (body env s)). Qed.

Lemma calls_try_catch {A} (body : M A) (h : Exn -> M A) (env : Env) (s : Session) :
  calls (try_catch body h env s) =
  match result (body env s) with
  | Ok a => calls (body env s)
  | Throw e => calls (body env s) ++ calls (h e env (final (body env s)))
  end.
Proof. unfold try_catch. now destruct (result (body env s)). Qed.

Lemma client_threw_app (cl : Client) (xs ys : list AnyCall) :
  client_threw cl (xs ++ ys) <-> client_threw cl xs \/ client_threw cl ys.
Proof. unfold client_threw. apply Exists_app. Qed.

Lemma client_threw_nil (cl : Client) : ~ client_threw cl [].
Proof. unfold client_threw. intros H. inversion H. Qed.

(** ** Rejections reach the catch clause *)

Create HintDb facade.

Lemma through_ret {A} (a : A) : lets_rejections_through (ret a).
Proof. intros env s H. now apply client_threw_nil in H. Qed.

Lemma through_throw {A} (e : Exn) : lets_rejections_through (@throw A e).
Proof. intros env s _. now exists e. Qed.

Lemma through_get : lets_rejections_through get.
Proof. intros env s H. now apply client_threw_nil in H. Qed.

Lemma through_modify (f : Session -> Session) : lets_rejections_through (modify f).
Proof. intros env s H. now apply client_threw_nil in H. Qed.

Lemma through_date_now : lets_rejections_through date_now.
Proof. intros env s H. now apply client_threw_nil in H. Qed.

Lemma through_read_info : lets_rejections_through read_info.
Proof. intros env s H. now apply client_threw_nil in H. Qed.

Lemma through_await {A} (c : ClientCall A) : lets_rejections_through (await c).
Proof.
  intros env s H. unfold await in *. simpl in *.
  apply Exists_cons in H. destruct H as [[e H]|H].
  - rewrite H. now exists e.
  - inversion H.
Qed.

Lemma through_bind {A B} (m : M A) (k : A -> M B) :
  lets_rejections_through m ->
  (forall a, lets_rejections_through (k a)) ->
  lets_rejections_through (bind m k).
Proof.
  intros Hm Hk env s H. rewrite result_bind. rewrite calls_bind in H.
  destruct (result (m env s)) as [a|e] eqn:E.
  - apply client_threw_app in H. destruct H as [H|H].
    + destruct (Hm env s H) as [e' He']. congruence.
    + now apply Hk.
  - now exists e.
Qed.

Lemma through_if {A} (b : bool) (m1 m2 : M A) :
  lets_rejections_through m1 ->
  lets_rejections_through m2 ->
  lets_rejections_through (if b then m1 else m2).
Proof. now destruct b. Qed.

Lemma through_rethrow {A} (body : M A) (message code : string) :
  lets_rejections_through body ->
  lets_rejections_through (try_catch body (rethrow_as message code)).
Proof.
  intros Hb env s H. rewrite result_try_catch. rewrite calls_try_catch in H.
  destruct (result (body env s)) as [a|e] eqn:E.
  - destruct (Hb env s H) as [e' He']. congruence.
  - unfold rethrow_as, throw. simpl. eauto.
Qed.

#[export] Hint Resolve through_ret through_throw through_get through_modify
  through_date_now through_read_info through_await through_bind through_if
  through_rethrow : facade.

Lemma through_touch : lets_rejections_through touch.
Proof. unfold touch. auto with facade. Qed.

Lemma through_require_ready : lets_rejections_through require_ready.
Proof.
  unfold require_ready. apply through_bind; [auto with facade|].
  intros a. apply through_if; auto with facade.
Qed.

#[export] Hint Resolve through_touch through_require_ready : facade.

Lemma through_getChatById (chatId : string) :
  lets_rejections_through (getChatById chatId).
Proof. unfold getChatById. auto 10 with facade. Qed.

#[export] Hint Resolve through_getChatById : facade.

(** A guarded operation whose catch clause rethrows: on a ready session a
    rejection by the collaborator comes out with the code of the clause. *)
Lemma guarded_rethrow_code {A} (body : M A) (message code : string)
  (env : Env) (s : Session) :
  lets_rejections_through body ->
  isReady s = true ->
  client_threw (client env)
    (calls ((require_ready ;;; try_catch body (rethrow_as message code)) env s)) ->
  fails_with code
    (result ((require_ready ;;; try_catch body (rethrow_as message code)) env s)).
Proof.
  intros Hb R H. rewrite result_bind. rewrite calls_bind in H.
  rewrite (require_ready_ready env s R) in *. simpl in *.
  rewrite result_try_catch. rewrite calls_try_catch in H.
  destruct (result (body env s)) as [a|e] eqn:E.
  - destruct (Hb env s H) as [e' He']. congruence.
  - unfold fails_with, rethrow_as, throw, mkWhatsAppError. simpl. eauto.
Qed.

(** Whatever a guarded, rethrowing operation rejects with is the error of
    the guard or the error of its catch clause. *)
Lemma guarded_rethrow_errors {A} (body : M A) (message code : string)
  (env : Env) (s : Session) (e : Exn) :
  result ((require_ready ;;; try_catch body (rethrow_as message code)) env s) = Throw e ->
  (isReady s = false /\
   e = mkWhatsAppError "Cliente WhatsApp não está pronto" "NOT_READY") \/
  (isReady s = true /\ e = mkWhatsAppError message code).
Proof.
  rewrite result_bind. destruct (isReady s) eqn:R.
  - rewrite (require_ready_ready env s R). simpl.
    rewrite result_try_catch.
    destruct (result (body env s)); [discriminate|].
    unfold rethrow_as, throw. simpl. intros [= <-]. now right.
  - rewrite (require_ready_not_ready env s R). simpl.
    intros [= <-]. now left.
Qed.

Lemma result_fmap {A B} (f : A -> B) (m : M A) (env : Env) (s : Session) :
  result (fmap f m env s) =
  match result (m env s) with
  | Ok a => Ok (f a)
  | Throw e => Throw e
  end.
Proof. reflexivity. Qed.

Lemma fails_with_fmap {A B} (f : A -> B) (m : M A) (env : Env) (s : Session)
  (code : string) :
  fails_with code (result (m env s)) ->
  fails_with code (result (fmap f m env s)).
Proof.
  intros (msg & st & H). rewrite result_fmap, H. now exists msg, st.
Qed.

(** The catch clause of [getProfilePicture]: a rejection becomes [null]. *)
Lemma getProfilePicture_null (contactId : string) (env : Env) (s : Session) :
  isReady s = true ->
  client_threw (client env) (calls (getProfilePicture contactId env s)) ->
  result (getProfilePicture contactId env s) = Ok None.
Proof.
  intros R H. unfold getProfilePicture in *.
  rewrite result_bind. rewrite calls_bind in H.
  rewrite (require_ready_ready env s R) in *. simpl in *.
  rewrite result_try_catch. rewrite calls_try_catch in H.
  match type of H with
  | context [result (?b env s)] =>
      assert (Hb : lets_rejections_through b) by auto 10 with facade;
      destruct (result (b env s)) as [a|e] eqn:E
  end.
  - destruct (Hb env s H) as [e' He']. congruence.
  - reflexivity.
Qed.

(** C3 (counterexample to the specification): with a collaborator that rejects
    every call, [getProfilePicture] on a ready session resolves to [null]
    instead of rejecting with a [WhatsAppError]. *)
Lemma getProfilePicture_swallows_failure :
  ~ surfaces_typed_failure
      (OpGetProfilePicture "5511999999999@c.us") env_rejecting ready_session.
Proof.
  unfold surfaces_typed_failure, typed_failure. intros H.
  destruct H as (m & c & st & H).
  - reflexivity.
  - apply Exists_cons_hd. simpl. eexists. reflexivity.
  - discriminate H.
Qed.

(** Whatever a facade operation rejects with is a [WhatsAppError]. *)
Lemma facade_errors_are_typed (op : Op) (env : Env) (s : Session) (e : Exn) :
  result (perform op env s) = Throw e ->
  exists message code status, e = WhatsAppError message code status.
Proof.
  intros H.
  destruct op; cbn [perform] in H; rewrite result_fmap in H;
    match type of H with
    | match result (?m env s) with _ => _ end = _ =>
        destruct (result (m env s)) as [v|e'] eqn:E; [discriminate H|];
        injection H as ->
    end;
    try (apply guarded_rethrow_errors in E;
         destruct E as [[_ ->]|[_ ->]]; unfold mkWhatsAppError; eauto).
  unfold getProfilePicture in E. rewrite result_bind in E.
  destruct (isReady s) eqn:R.
  - rewrite (require_ready_ready env s R) in E. cbn [result final] in E.
    rewrite result_try_catch in E.
    match type of E with
    | match ?r with _ => _ end = _ => destruct r; discriminate E
    end.
  - rewrite (require_ready_not_ready env s R) in E. cbn [result] in E.
    injection E as <-. unfold mkWhatsAppError. eauto.
Qed.

(** C3 (as the code has it): on a ready session, when the collaborator rejects
    a call made by an operation, every operation other than
    [getProfilePicture] rejects with a [WhatsAppError] carrying the code of
    its own catch clause, and [getProfilePicture] resolves to [null]; no
    operation rejects with anything but a [WhatsAppError]. *)
Theorem facade_failure_codes (op : Op) (env : Env) (s : Session) :
  (isReady s = true ->
   client_threw (client env) (calls (perform op env s)) ->
   match error_code op with
   | Some code => fails_with code (result (perform op env s))
   | None => result (perform op env s) = Ok VNull
   end) /\
  (forall e,
      result (perform op env s) = Throw e ->
      exists message code status, e = WhatsAppError message code status).
Proof.
  split; [|apply facade_errors_are_typed].
  intros R T.
  destruct op; cbn [error_code perform] in *;
    try (apply fails_with_fmap; apply guarded_rethrow_code;
         [auto 12 with facade | exact R | exact T]).
  rewrite result_fmap.
  now rewrite (getProfilePicture_null contactId env s R T).
Qed.

Lemma facade_failure_codes_witness :
  isReady ready_session = true /\
  client_threw (client env_rejecting)
    (calls (perform (OpCreateGroup "Test Group" ["5511999999999@c.us"])
              env_rejecting ready_session)) /\
  fails_with "CREATE_GROUP_ERROR"
    (result (perform (OpCreateGroup "Test Group" ["5511999999999@c.us"])
               env_rejecting ready_session)).
Proof.
  assert (R : isReady ready_session = true) by reflexivity.
  assert (T : client_threw (client env_rejecting)
                (calls (perform (OpCreateGroup "Test Group" ["5511999999999@c.us"])
                          env_rejecting ready_session))).
  { apply Exists_cons_hd. simpl. eexists. reflexivity. }
  split; [exact R | split; [exact T |]].
  exact (proj1 (facade_failure_codes
                  (OpCreateGroup "Test Group" ["5511999999999@c.us"])
                  env_rejecting ready_session) R T).
Defined.

(** ** [lastSeen] after a successful operation *)

Lemma keeps_lastSeen_ret {A} (a : A) : keeps_lastSeen (ret a).
Proof. intros env s. reflexivity. Qed.

Lemma stamps_touch : stamps_on_success touch.
Proof. intros env s a _. reflexivity. Qed.

Lemma stamps_bind_r {A B} (m : M A) (k : A -> M B) :
  (forall a, stamps_on_success (k a)) -> stamps_on_success (bind m k).
Proof.
  intros Hk env s b. rewrite result_bind, final_bind.
  destruct (result (m env s)) as [a|e]; [|discriminate].
  apply Hk.
Qed.

Lemma stamps_bind_l {A B} (m : M A) (k : A -> M B) :
  stamps_on_success m ->
  (forall a, keeps_lastSeen (k a)) ->
  stamps_on_success (bind m k).
Proof.
  intros Hm Hk env s b. rewrite result_bind, final_bind.
  destruct (result (m env s)) as [a|e] eqn:E; [|discriminate].
  intros _. rewrite Hk. now apply (Hm env s a).
Qed.

Lemma stamps_rethrow {A} (body : M A) (message code : string) :
  stamps_on_success body ->
  stamps_on_success (try_catch body (rethrow_as message code)).
Proof.
  intros Hb env s a. rewrite result_try_catch, final_try_catch.
  destruct (result (body env s)) as [a'|e] eqn:E.
  - intros _. now apply (Hb env s a').
  - unfold rethrow_as, throw. simpl. discriminate.
Qed.

Lemma stamps_fmap {A B} (f : A -> B) (m : M A) :
  stamps_on_success m -> stamps_on_success (fmap f m).
Proof.
  intros Hm env s b. rewrite result_fmap.
  destruct (result (m env s)) as [a|e] eqn:E; [|discriminate].
  intros _. now apply (Hm env s a).
Qed.

#[export] Hint Resolve keeps_lastSeen_ret stamps_touch stamps_bind_r stamps_bind_l
  stamps_rethrow stamps_fmap : facade.

(** Every mutating operation other than [markAsRead] sets [lastSeen] to the
    clock when it succeeds. *)
Lemma mutating_success_stamps_lastSeen (op : Op) (env : Env) (s : Session) :
  is_mutating op = true ->
  (forall chatId, op <> OpMarkAsRead chatId) ->
  success_stamps_lastSeen op env s.
Proof.
  intros Hm Hne [v Hv].
  assert (St : stamps_on_success (perform op)).
  { destruct op; try discriminate Hm; cbn [perform];
      try (unfold sendMessage, sendMedia, createGroup, joinGroup, setStatus,
             blockContact, unblockContact, muteChat, unmuteChat, archiveChat,
             unarchiveChat, deleteChat, pinChat, unpinChat;
           auto 12 with facade).
    exfalso. now apply (Hne chatId). }
  now apply (St env s v).
Qed.

(** A successful [sendMessage] resolves to the message the collaborator
    resolved to and sets [lastSeen] to the clock. *)
Lemma sendMessage_success (env : Env) (s : Session) (to content : string)
  (m : Message) :
  result (sendMessage to content env s) = Ok m ->
  client env Message (CSendMessage to content) = Resolved m /\
  lastSeen (final (sendMessage to content env s)) = now env.
Proof.
  intros H. split.
  - unfold sendMessage in H. rewrite result_bind in H.
    destruct (result (require_ready env s)); [|discriminate].
    rewrite result_try_catch, result_bind in H.
    unfold await at 1 in H. simpl in H.
    destruct (client env Message (CSendMessage to content)) as [m'|e];
      simpl in H; [|discriminate].
    now injection H as ->.
  - assert (St : stamps_on_success (sendMessage to content))
      by (unfold sendMessage; auto 12 with facade).
    now apply (St env s m).
Qed.

(** The scenario of the specification: the collaborator resolves
    [sendMessage("5511999999999@c.us", "hi")] with id ["abc"]. *)
Example sendMessage_scenario :
  let r := sendMessage "5511999999999@c.us" "hi" env_resolving ready_session in
  result r = Ok (sample_message "5511999999999@c.us" "hi") /\
  calls r = [Called (CSendMessage "5511999999999@c.us" "hi")] /\
  lastSeen ready_session = 1000%Z /\
  lastSeen (final r) = 2000%Z.
Proof. cbv zeta. repeat split. Qed.

(** ** Operations that leave the session alone *)

Lemma keeps_session_bind {A B} (m : M A) (k : A -> M B) :
  keeps_session m -> (forall a, keeps_session (k a)) -> keeps_session (bind m k).
Proof.
  intros Hm Hk env s. rewrite final_bind.
  destruct (result (m env s)); [rewrite Hk|]; apply Hm.
Qed.

Lemma keeps_session_try {A} (body : M A) (h : Exn -> M A) :
  keeps_session body -> (forall e, keeps_session (h e)) ->
  keeps_session (try_catch body h).
Proof.
  intros Hb Hh env s. rewrite final_try_catch.
  destruct (result (body env s)); [|rewrite Hh]; apply Hb.
Qed.

Lemma keeps_session_await {A} (c : ClientCall A) : keeps_session (await c).
Proof. intros env s. reflexivity. Qed.

Lemma keeps_session_ret {A} (a : A) : keeps_session (ret a).
Proof. intros env s. reflexivity. Qed.

Lemma keeps_session_throw {A} (e : Exn) : keeps_session (@throw A e).
Proof. intros env s. reflexivity. Qed.

Lemma keeps_session_rethrow {A} (message code : string) (e : Exn) :
  keeps_session (@rethrow_as A message code e).
Proof. intros env s. reflexivity. Qed.

Lemma keeps_session_require_ready : keeps_session require_ready.
Proof. intros env s. unfold require_ready, bind, get. simpl. now destruct (isReady s). Qed.

#[export] Hint Resolve keeps_session_bind keeps_session_try keeps_session_await
  keeps_session_ret keeps_session_throw keeps_session_rethrow
  keeps_session_require_ready : facade.

(** [markAsRead] never writes to the session, whatever the collaborator
    answers. *)
Lemma markAsRead_keeps_session (chatId : string) : keeps_session (markAsRead chatId).
Proof. unfold markAsRead, getChatById. auto 12 with facade. Qed.

(** C6 (the code departs from the specification): on a ready session whose
    [lastSeen] is 1000, [markAsRead] run at time 2000 with a collaborator that
    resolves succeeds and leaves [lastSeen] at 1000. *)
Theorem markAsRead_does_not_stamp_lastSeen :
  let op := OpMarkAsRead "5511999999999@c.us" in
  let r := perform op env_resolving ready_session in
  is_mutating op = true /\
  result r = Ok VUndefined /\
  lastSeen ready_session = 1000%Z /\
  now env_resolving = 2000%Z /\
  lastSeen (final r) = 1000%Z /\
  ~ success_stamps_lastSeen op env_resolving ready_session.
Proof.
  cbv zeta. repeat split.
  unfold success_stamps_lastSeen. intros H.
  assert (E : lastSeen
                (final (perform (OpMarkAsRead "5511999999999@c.us")
                          env_resolving ready_session)) = now env_resolving).
  { apply H. now exists VUndefined. }
  discriminate E.
Qed.

(** ** [logout] and [destroy] *)

Lemma await_resolved {A} (c : ClientCall A) (env : Env) (s : Session) (a : A) :
  client env A c = Resolved a ->
  await c env s = {| result := Ok a; final := s; calls := [Called c] |}.
Proof. intros E. unfold await. now rewrite E. Qed.

Lemma await_rejected {A} (c : ClientCall A) (env : Env) (s : Session) (e : Exn) :
  client env A c = Rejected e ->
  await c env s = {| result := Throw e; final := s; calls := [Called c] |}.
Proof. intros E. unfold await. now rewrite E. Qed.

Lemma logout_resolved (env : Env) (s : Session) :
  client env unit CLogout = Resolved tt ->
  result (logout env s) = Ok tt /\
  final (logout env s) =
  {| isReady := false; isAuthenticated := false; qrCode := None;
     phoneNumber := None; name := None; lastSeen := lastSeen s |}.
Proof.
  intros E. unfold logout.
  rewrite result_try_catch, final_try_catch, result_bind, final_bind.
  rewrite (await_resolved _ env s tt E).
  split; reflexivity.
Qed.

Lemma logout_rejected (env : Env) (s : Session) (e : Exn) :
  client env unit CLogout = Rejected e ->
  result (logout env s) = Throw (mkWhatsAppError "Falha ao fazer logout" "LOGOUT_ERROR") /\
  final (logout env s) = s.
Proof.
  intros E. unfold logout.
  rewrite result_try_catch, final_try_catch, result_bind, final_bind.
  rewrite (await_rejected _ env s e E).
  split; reflexivity.
Qed.

Lemma destroy_resolved (env : Env) (s : Session) :
  client env unit CDestroy = Resolved tt ->
  result (destroy env s) = Ok tt /\
  final (destroy env s) =
  {| isReady := false; isAuthenticated := false; qrCode := qrCode s;
     phoneNumber := phoneNumber s; name := name s; lastSeen := lastSeen s |}.
Proof.
  intros E. unfold destroy.
  rewrite result_try_catch, final_try_catch, result_bind, final_bind.
  rewrite (await_resolved _ env s tt E).
  split; reflexivity.
Qed.

(** C7 (counterexample to the specification): a successful [logout] on the
    session left by [ready] at time 1000 keeps [lastSeen = 1000], and a
    successful [destroy] on it keeps the phone number, the name and [lastSeen]
    as well: neither leaves the initial session. *)
Lemma logout_and_destroy_keep_fields :
  ~ resets_to_initial logout env_resolving ready_session /\
  ~ resets_to_initial destroy env_resolving ready_session.
Proof.
  unfold resets_to_initial. split; intros H; specialize (H eq_refl); discriminate H.
Qed.

(** C7 (as the code has it): after a successful [logout] the session has
    [isReady = false], [isAuthenticated = false], [qrCode = null],
    [phoneNumber = null], [name = null] and the [lastSeen] it had before;
    after a [destroy] whose call on the collaborator resolved it has [isReady
    = false] and [isAuthenticated = false], and [qrCode], [phoneNumber],
    [name] and [lastSeen] are as before. *)
Theorem logout_and_destroy_effects (env : Env) (s : Session) :
  (result (logout env s) = Ok tt ->
   final (logout env s) =
   {| isReady := false; isAuthenticated := false; qrCode := None;
      phoneNumber := None; name := None; lastSeen := lastSeen s |}) /\
  (client env unit CDestroy = Resolved tt ->
   result (destroy env s) = Ok tt /\
   final (destroy env s) =
   {| isReady := false; isAuthenticated := false; qrCode := qrCode s;
      phoneNumber := phoneNumber s; name := name s; lastSeen := lastSeen s |}).
Proof.
  split.
  - intros H. destruct (client env unit CLogout) as [[]|e] eqn:E.
    + now apply logout_resolved.
    + destruct (logout_rejected env s e E) as [H1 _]. congruence.
  - apply destroy_resolved.
Qed.

Lemma logout_and_destroy_effects_witness :
  result (logout env_resolving ready_session) = Ok tt /\
  client env_resolving unit CDestroy = Resolved tt /\
  final (logout env_resolving ready_session) =
  {| isReady := false; isAuthenticated := false; qrCode := None;
     phoneNumber := None; name := None; lastSeen := 1000 |} /\
  final (destroy env_resolving ready_session) =
  {| isReady := false; isAuthenticated := false; qrCode := None;
     phoneNumber := Some "5511888888888"; name := Some "Test User";
     lastSeen := 1000 |}.
Proof.
  split; [reflexivity | split; [reflexivity | split]].
  - exact (proj1 (logout_and_destroy_effects env_resolving ready_session) eq_refl).
  - exact (proj2 (proj2 (logout_and_destroy_effects env_resolving ready_session) eq_refl)).
Defined.

(** ** [getGroupInviteLink] *)

(** On a ready session, a chat that is not a group makes the operation
    reject with [GET_INVITE_ERROR] without asking for an invite code: the
    [NOT_GROUP] error thrown inside the [try] block is caught there. *)
Lemma getGroupInviteLink_not_group (groupId : string) (env : Env) (s : Session)
  (chat : Chat) :
  isReady s = true ->
  client env Chat (CGetChatById groupId) = Resolved chat ->
  isGroup chat = false ->
  result (getGroupInviteLink groupId env s) =
    Throw (mkWhatsAppError "Falha ao obter link de convite" "GET_INVITE_ERROR") /\
  calls (getGroupInviteLink groupId env s) = [Called (CGetChatById groupId)].
Proof.
  intros R E G. unfold getGroupInviteLink.
  rewrite result_bind, calls_bind, (require_ready_ready env s R).
  cbn [result final calls app].
  rewrite result_try_catch, calls_try_catch.
  assert (Hc : getChatById groupId env s =
               {| result := Ok chat; final := s;
                  calls := [Called (CGetChatById groupId)] |}).
  { unfold getChatById, bind, try_catch, await.
    rewrite (require_ready_ready env s R). cbn. rewrite E. reflexivity. }
  rewrite result_bind, calls_bind, Hc. cbn [result final calls].
  rewrite result_bind, calls_bind, G. cbn.
  split; reflexivity.
Qed.

(** C10 (counterexample to the specification): on a session that is not ready
    the operation fails with the code [NOT_READY], not with
    [GET_INVITE_ERROR]. *)
Lemma getGroupInviteLink_not_ready :
  ~ failure_is_invite_error "120363123456789012@g.us" env_resolving initial.
Proof.
  unfold failure_is_invite_error. intros H.
  specialize (H _ eq_refl). discriminate H.
Qed.

(** C10 (as the code has it): a call of [getGroupInviteLink] that fails on a
    ready session fails with the code [GET_INVITE_ERROR]; on a session that is
    not ready it fails with [NOT_READY]; in neither case does the code
    [NOT_GROUP] reach the caller. *)
Theorem getGroupInviteLink_failure_code (groupId : string) (env : Env)
  (s : Session) (e : Exn) :
  result (getGroupInviteLink groupId env s) = Throw e ->
  exn_code e <> Some "NOT_GROUP" /\
  (isReady s = true -> exn_code e = Some "GET_INVITE_ERROR") /\
  (isReady s = false -> exn_code e = Some "NOT_READY").
Proof.
  intros H. unfold getGroupInviteLink in H.
  apply guarded_rethrow_errors in H.
  destruct H as [[R ->]|[R ->]]; simpl; rewrite R;
    repeat split; try discriminate; reflexivity.
Qed.

Lemma getGroupInviteLink_failure_code_witness :
  result (getGroupInviteLink "5511999999999@c.us" env_not_group ready_session) =
    Throw (mkWhatsAppError "Falha ao obter link de convite" "GET_INVITE_ERROR") /\
  exn_code (mkWhatsAppError "Falha ao obter link de convite" "GET_INVITE_ERROR")
    <> Some "NOT_GROUP".
Proof.
  split; [reflexivity|].
  exact (proj1 (getGroupInviteLink_failure_code
                  "5511999999999@c.us" env_not_group ready_session _ eq_refl)).
Defined.

(** ** The API-key middleware *)

Lemma truthy_nonempty (s : string) : JS.truthy s = true <-> s <> "".
Proof. destruct s; simpl; split; congruence. Qed.

Lemma config_apiKey_nonempty (API_KEY : option string) : config_apiKey API_KEY <> "".
Proof.
  unfold config_apiKey, JS.or_else. destruct API_KEY as [[|a k]|]; simpl; discriminate.
Qed.

Lemma replace_prefix (pat rest : string) :
  pat <> "" -> JS.replace pat "" (pat ++ rest) = rest.
Proof.
  intros Hne.
  assert (P : forall p r, JS.starts_with p (p ++ r) = true).
  { induction p as [|a p IH]; intros r; simpl; [reflexivity|].
    now rewrite Ascii.eqb_refl. }
  assert (D : forall p r, JS.drop (String.length p) (p ++ r) = r).
  { induction p as [|a p IH]; intros r; simpl; [reflexivity | apply IH]. }
  destruct pat as [|a p]; [congruence|].
  unfold JS.replace. cbn [append].
  change (String a (p ++ rest)) with (String a p ++ rest)%string.
  rewrite P, D. reflexivity.
Qed.

(** What the middleware does, by the key it extracts. *)
Lemma authenticateApiKey_cases (key iso_now : string) (req : Request) :
  (extract_key (headers req) = Some key /\ key <> "" /\
   authenticateApiKey key iso_now req =
     Next {| headers := headers req; req_apiKey := Some key;
             req_isAuthenticated := Some true |}) \/
  (~ (extract_key (headers req) = Some key /\ key <> "") /\
   exists msg,
     authenticateApiKey key iso_now req = Respond (unauthorized msg iso_now)).
Proof.
  unfold authenticateApiKey, check_key, unauthorized.
  destruct (extract_key (headers req)) as [k|] eqn:E; simpl.
  - destruct (JS.truthy k) eqn:T; simpl.
    + destruct (String.eqb k key) eqn:Q; simpl.
      * apply String.eqb_eq in Q. subst k. left.
        repeat split. now apply truthy_nonempty.
      * right. split.
        -- intros [[= ->] _]. rewrite String.eqb_refl in Q. discriminate.
        -- eexists. reflexivity.
    + right. split.
      * intros [[= ->] Hne]. apply truthy_nonempty in Hne. congruence.
      * eexists. reflexivity.
  - right. split.
    + intros [H _]. discriminate.
    + eexists. reflexivity.
Qed.

(** The two forms of the README are accepted: the key in [X-API-Key], and
    [Authorization: Bearer <key>] when [X-API-Key] is absent or empty. *)
Lemma documented_headers_admitted (key iso_now : string) (h : Headers) :
  key <> "" ->
  (x_api_key h = Some key \/
   ((x_api_key h = None \/ x_api_key h = Some "") /\
    authorization h = Some ("Bearer " ++ key)%string)) ->
  admits key iso_now (request_with h).
Proof.
  intros Hne H.
  assert (E : extract_key h = Some key).
  { unfold extract_key, JS.or_else.
    destruct H as [-> | [[-> | ->] ->]]; cbn [option_map JS.truthy].
    - apply truthy_nonempty in Hne. now rewrite Hne.
    - now rewrite (replace_prefix "Bearer " key).
    - now rewrite (replace_prefix "Bearer " key). }
  destruct (authenticateApiKey_cases key iso_now (request_with h))
    as [(_ & _ & Hn) | [Hnot _]].
  - eexists. exact Hn.
  - exfalso. apply Hnot. now split.
Qed.

(** C8 (counterexample to the specification): a request whose [Authorization]
    header holds the bare key, without [Bearer], and that has no [X-API-Key]
    header is let through, although it presents the key in neither of the two
    forms. *)
Lemma bare_authorization_is_admitted :
  let req := request_with {| x_api_key := None;
                             authorization := Some "test-api-key" |} in
  ~ (admits "test-api-key" "2024-01-01T00:00:00.000Z" req <->
     spec_presents_key "test-api-key" (headers req)).
Proof.
  cbv zeta. intros [H _].
  assert (A : admits "test-api-key" "2024-01-01T00:00:00.000Z"
                (request_with {| x_api_key := None;
                                 authorization := Some "test-api-key" |})).
  { eexists. reflexivity. }
  destruct (H A) as [X|X]; discriminate X.
Qed.

(** C8 (as the code has it): the middleware takes the key from [X-API-Key]
    when that header is present and not empty, and otherwise from
    [Authorization] with the first occurrence of ["Bearer "] removed; the
    request goes on to the handler, which then runs once, if and only if that
    key is not empty and equal to the configured key; otherwise the answer has
    status 401 and the body [{success: false, error, timestamp}], and the
    handler does not run. *)
Theorem authenticateApiKey_exact_match (key iso_now : string)
  (handler : Request -> Response) (req : Request) :
  (admits key iso_now req <-> extract_key (headers req) = Some key /\ key <> "") /\
  (admits key iso_now req ->
   route key iso_now handler req =
   (handler {| headers := headers req; req_apiKey := Some key;
               req_isAuthenticated := Some true |}, 1%nat)) /\
  (~ admits key iso_now req ->
   exists msg, route key iso_now handler req = (unauthorized msg iso_now, 0%nat)).
Proof.
  unfold admits, route.
  destruct (authenticateApiKey_cases key iso_now req)
    as [(E & Hne & Hn) | [Hnot [msg Hr]]].
  - rewrite Hn. split; [|split].
    + split; [intros _; now split | intros _; eauto].
    + intros _. reflexivity.
    + intros H. exfalso. apply H. eauto.
  - rewrite Hr. split; [|split].
    + split; [intros [r H]; discriminate H | intros H; now apply Hnot in H].
    + intros [r H]. discriminate H.
    + intros _. now exists msg.
Qed.

Lemma authenticateApiKey_exact_match_witness :
  let req := request_with {| x_api_key := Some "test-api-key";
                             authorization := None |} in
  let ok := fun _ : Request =>
              {| status := 200;
                 body := {| success := true; error := "";
                            timestamp := "2024-01-01T00:00:00.000Z" |} |} in
  admits "test-api-key" "2024-01-01T00:00:00.000Z" req /\
  snd (route "test-api-key" "2024-01-01T00:00:00.000Z" ok req) = 1%nat.
Proof.
  cbv zeta.
  assert (A : admits "test-api-key" "2024-01-01T00:00:00.000Z"
                (request_with {| x_api_key := Some "test-api-key";
                                 authorization := None |})).
  { eexists. reflexivity. }
  split; [exact A|].
  rewrite (proj1 (proj2 (authenticateApiKey_exact_match
                           "test-api-key" "2024-01-01T00:00:00.000Z"
                           (fun _ => {| status := 200;
                                        body := {| success := true; error := "";
                                                   timestamp := "2024-01-01T00:00:00.000Z" |} |})
                           (request_with {| x_api_key := Some "test-api-key";
                                            authorization := None |}))) A).
  reflexivity.
Defined.

(** ** The emitter's registrations *)

Lemma EventName_eqb_eq (a b : EventName) : EventName_eqb a b = true <-> a = b.
Proof. destruct a, b; simpl; split; intros H; congruence. Qed.

Lemma Listener_eqb_eq (a b : Listener) : Listener_eqb a b = true <-> a = b.
Proof.
  destruct a as [x|x], b as [y|y]; simpl; split; intros H; try congruence.
  - apply Nat.eqb_eq in H. now subst.
  - injection H as ->. apply Nat.eqb_refl.
  - apply EventName_eqb_eq in H. now subst.
  - injection H as ->. now apply EventName_eqb_eq.
Qed.

Lemma Registration_eqb_eq (a b : Registration) : Registration_eqb a b = true <-> a = b.
Proof.
  destruct a as [n l], b as [n' l']. unfold Registration_eqb. simpl.
  rewrite andb_true_iff, EventName_eqb_eq, Listener_eqb_eq.
  split; [intros [-> ->]; reflexivity | intros [= -> ->]; now split].
Qed.

Lemma Consumer_eqb_eq (a b : Consumer) : Consumer_eqb a b = true <-> a = b.
Proof.
  destruct a as [x|x], b as [y|y]; simpl; split; intros H; try congruence.
  - apply Nat.eqb_eq in H. now subst.
  - injection H as ->. apply Nat.eqb_refl.
  - apply Nat.eqb_eq in H. now subst.
  - injection H as ->. apply Nat.eqb_refl.
Qed.

Lemma remove_first_In (r x : Registration) (ls : list Registration) :
  In x (remove_first r ls) -> In x ls.
Proof.
  induction ls as [|y ls IH]; simpl; [tauto|].
  destruct (Registration_eqb r y); simpl; tauto.
Qed.

Lemma remove_first_NoDup (r : Registration) (ls : list Registration) :
  NoDup ls -> NoDup (remove_first r ls).
Proof.
  induction 1 as [|y ls Hy Hn IH]; simpl; [constructor|].
  destruct (Registration_eqb r y); [assumption|].
  constructor; [|assumption].
  intros H. apply Hy. now apply remove_first_In in H.
Qed.

Lemma remove_first_gone (r : Registration) (ls : list Registration) :
  NoDup ls -> ~ In r (remove_first r ls).
Proof.
  induction 1 as [|y ls Hy Hn IH]; simpl; [tauto|].
  destruct (Registration_eqb r y) eqn:E.
  - apply Registration_eqb_eq in E. now subst.
  - simpl. intros [H|H]; [|now apply IH].
    subst y. assert (T : Registration_eqb r r = true) by now apply Registration_eqb_eq.
    congruence.
Qed.

Lemma removeListener_In (n : EventName) (l : Listener) (x : Registration)
  (ls : list Registration) :
  In x (removeListener n l ls) -> In x ls.
Proof.
  unfold removeListener. rewrite <- in_rev. intros H.
  apply remove_first_In in H. now apply in_rev.
Qed.

Lemma removeListener_NoDup (n : EventName) (l : Listener) (ls : list Registration) :
  NoDup ls -> NoDup (removeListener n l ls).
Proof.
  intros H. unfold removeListener.
  apply NoDup_rev, remove_first_NoDup, NoDup_rev, H.
Qed.

Lemma removeListener_gone (n : EventName) (l : Listener) (ls : list Registration) :
  NoDup ls -> ~ In (n, l) (removeListener n l ls).
Proof.
  intros H. unfold removeListener. rewrite <- in_rev.
  apply remove_first_gone, NoDup_rev, H.
Qed.

Lemma unsubscribe_In (l : Listener) (ns : list EventName) (x : Registration)
  (ls : list Registration) :
  In x (fold_left (fun acc n => removeListener n l acc) ns ls) -> In x ls.
Proof.
  revert ls. induction ns as [|n ns IH]; intros ls; simpl; [tauto|].
  intros H. apply IH in H. now apply removeListener_In in H.
Qed.

Lemma unsubscribe_NoDup (l : Listener) (ns : list EventName) (ls : list Registration) :
  NoDup ls -> NoDup (fold_left (fun acc n => removeListener n l acc) ns ls).
Proof.
  revert ls. induction ns as [|n ns IH]; intros ls H; simpl; [assumption|].
  apply IH. now apply removeListener_NoDup.
Qed.

(** Once a handler is unsubscribed from a list of names, it is registered
    for none of them: no listener is left dangling. *)
Lemma unsubscribe_gone (l : Listener) (ns : list EventName) (n : EventName)
  (ls : list Registration) :
  NoDup ls -> In n ns ->
  ~ In (n, l) (fold_left (fun acc n => removeListener n l acc) ns ls).
Proof.
  revert ls. induction ns as [|m ns IH]; intros ls Hn Hin; simpl; [destruct Hin|].
  destruct Hin as [->|Hin].
  - intros H. apply unsubscribe_In in H. revert H. now apply removeListener_gone.
  - apply IH; [now apply removeListener_NoDup | assumption].
Qed.

Lemma subscribe_eq (l : Listener) (ns : list EventName) (ls : list Registration) :
  fold_left (fun acc n => on n l acc) ns ls = ls ++ map (fun n => (n, l)) ns.
Proof.
  revert ls. induction ns as [|n ns IH]; intros ls; simpl.
  - now rewrite app_nil_r.
  - rewrite IH. unfold on. now rewrite <- app_assoc.
Qed.

Lemma remove_nat_In (x y : nat) (l : list nat) :
  In y (remove_nat x l) <-> In y l /\ y <> x.
Proof.
  unfold remove_nat. rewrite filter_In, negb_true_iff, Nat.eqb_neq.
  split; intros [H1 H2]; split; auto.
Qed.

Lemma existsb_eqb_In (x : nat) (l : list nat) :
  existsb (Nat.eqb x) l = true <-> In x l.
Proof.
  rewrite existsb_exists. split.
  - intros (y & Hy & E). apply Nat.eqb_eq in E. now subst.
  - intros H. exists x. split; [assumption | apply Nat.eqb_refl].
Qed.

(** ** One emission *)

Lemma step_raises (c : Context) (ev : RawEvent) (ts : string) (a : App) :
  step (ClientRaises c ev ts) a =
  emit (emission_of ev) ts (with_session (fst (on_event c ev (session a))) a).
Proof.
  unfold step. pose proof (on_event_emits c ev (session a)) as E.
  destruct (on_event c ev (session a)) as [s out]. simpl in E. now subst out.
Qed.

Lemma listeners_for_In (n : EventName) (l : Listener) (ls : list Registration) :
  In l (listeners_for n ls) <-> In (n, l) ls.
Proof.
  unfold listeners_for. rewrite in_map_iff. split.
  - intros ([n' l'] & E & H). simpl in E. subst l'.
    apply filter_In in H. destruct H as [H Q]. simpl in Q.
    apply EventName_eqb_eq in Q. now subst.
  - intros H. exists (n, l). split; [reflexivity|].
    apply filter_In. split; [assumption|]. now apply EventName_eqb_eq.
Qed.

Lemma listeners_for_NoDup (n : EventName) (ls : list Registration) :
  NoDup ls -> NoDup (listeners_for n ls).
Proof.
  intros H. unfold listeners_for.
  apply NoDup_map_NoDup_ForallPairs; [|now apply NoDup_filter].
  intros [n1 l1] [n2 l2] H1 H2 E. simpl in E. subst l2.
  apply filter_In in H1, H2. destruct H1 as [_ Q1], H2 as [_ Q2]. simpl in *.
  apply EventName_eqb_eq in Q1, Q2. now subst.
Qed.

Lemma audience_Sse (e : Emission) (ts : string) (socks : list nat) (l : Listener)
  (conn : nat) :
  In (Sse conn) (audience e ts socks l) -> l = SseHandler conn.
Proof.
  destruct l as [c|n]; simpl.
  - intros [[= ->]|[]]. reflexivity.
  - destruct (bridge_payload e ts); simpl; [|tauto].
    rewrite in_map_iff. intros (x & E & _). discriminate E.
Qed.

Lemma audience_Sock (e : Emission) (ts : string) (socks : list nat) (l : Listener)
  (id : nat) :
  In (Sock id) (audience e ts socks l) -> (exists n, l = Bridge n) /\ In id socks.
Proof.
  destruct l as [c|n]; simpl.
  - intros [E|[]]. discriminate E.
  - destruct (bridge_payload e ts); simpl; [|tauto].
    rewrite in_map_iff. intros (x & [= ->] & H). split; [now exists n | assumption].
Qed.

Lemma audience_NoDup (e : Emission) (ts : string) (socks : list nat) (l : Listener) :
  NoDup socks -> NoDup (audience e ts socks l).
Proof.
  intros H. destruct l as [c|n]; simpl.
  - constructor; [simpl; tauto | constructor].
  - destruct (bridge_payload e ts); [|constructor].
    apply NoDup_map_NoDup_ForallPairs; [|assumption].
    intros x y _ _ [= ->]. reflexivity.
Qed.

Lemma notify_keys (k : nat) (e : Emission) (ts : string) (socks : list nat)
  (l : Listener) :
  event_keys (notify k e ts socks l) = map (fun c => (c, k)) (audience e ts socks l).
Proof.
  destruct l as [c|n]; simpl; [reflexivity|].
  destruct (bridge_payload e ts); [|reflexivity].
  induction socks as [|x socks IH]; simpl; [reflexivity | now rewrite IH].
Qed.

Lemma event_keys_app (xs ys : list Delivery) :
  event_keys (xs ++ ys) = event_keys xs ++ event_keys ys.
Proof. unfold event_keys. apply flat_map_app. Qed.

Lemma frames_keys (k : nat) (e : Emission) (ts : string) (socks : list nat)
  (ls : list Listener) :
  event_keys (flat_map (notify k e ts socks) ls) =
  map (fun c => (c, k)) (flat_map (audience e ts socks) ls).
Proof.
  induction ls as [|l ls IH]; simpl; [reflexivity|].
  now rewrite event_keys_app, map_app, notify_keys, IH.
Qed.

(** Called in turn, distinct listeners of which at most one is a bridge
    write to pairwise distinct consumers. *)
Lemma audiences_NoDup (e : Emission) (ts : string) (socks : list nat)
  (n : EventName) (ls : list Listener) :
  NoDup socks -> NoDup ls ->
  (forall x, In (Bridge x) ls -> x = n) ->
  NoDup (flat_map (audience e ts socks) ls).
Proof.
  intros Hs Hl. induction Hl as [|l ls Hl Hn IH]; intros Hb; simpl; [constructor|].
  apply NoDup_app.
  - now apply audience_NoDup.
  - apply IH. intros x Hx. apply Hb. now right.
  - intros c Hc Hc'. apply in_flat_map in Hc'. destruct Hc' as (l' & Hl' & Hc').
    apply Hl. destruct c as [conn|id].
    + apply audience_Sse in Hc, Hc'. now subst.
    + apply audience_Sock in Hc, Hc'.
      destruct Hc as [[x ->] _], Hc' as [[y ->] _].
      rewrite (Hb x) by now left. rewrite (Hb y) in Hl' by now right.
      assumption.
Qed.

Lemma frames_cause (e : Emission) (ts : string) (a : App) (d : Delivery) :
  In d (frames_of_emission e ts a) -> cause d = Some (emissions a).
Proof.
  unfold frames_of_emission. rewrite in_flat_map. intros (l & _ & H).
  destruct l as [c|n]; simpl in H.
  - destruct H as [<-|[]]. reflexivity.
  - destruct (bridge_payload e ts); [|destruct H].
    apply in_map_iff in H. destruct H as (x & <- & _). reflexivity.
Qed.

(** A frame caused by an emission goes to a stream whose handler is
    registered for the name, or to a socket that is connected. *)
Lemma frames_recipient (e : Emission) (ts : string) (a : App) (d : Delivery) :
  In d (frames_of_emission e ts a) ->
  match recipient d with
  | Sse conn => In (ename e, SseHandler conn) (listeners a)
  | Sock id => In id (sockets a)
  end.
Proof.
  unfold frames_of_emission. rewrite in_flat_map. intros (l & Hl & H).
  apply listeners_for_In in Hl.
  destruct l as [c|n]; simpl in H.
  - destruct H as [<-|[]]. exact Hl.
  - destruct (bridge_payload e ts); [|destruct H].
    apply in_map_iff in H. destruct H as (x & <- & Hx). exact Hx.
Qed.

Lemma frames_keys_NoDup (e : Emission) (ts : string) (a : App) :
  Wf a -> NoDup (event_keys (frames_of_emission e ts a)).
Proof.
  intros W. unfold frames_of_emission. rewrite frames_keys.
  apply NoDup_map_NoDup_ForallPairs.
  - intros x y _ _ [= ->]. reflexivity.
  - apply (audiences_NoDup e ts (sockets a) (ename e)).
    + apply (wf_sockets a W).
    + apply listeners_for_NoDup, (wf_listeners a W).
    + intros x Hx. apply listeners_for_In in Hx. now apply (wf_bridges a W).
Qed.

Lemma event_keys_In (ds : list Delivery) (c : Consumer) (k : nat) :
  In (c, k) (event_keys ds) <->
  exists d, In d ds /\ recipient d = c /\ cause d = Some k.
Proof.
  unfold event_keys. rewrite in_flat_map. split.
  - intros (d & Hd & H). exists d. destruct (cause d) as [j|]; [|destruct H].
    destruct H as [[= <- <-]|[]]. auto.
  - intros (d & Hd & <- & E). exists d. split; [assumption|].
    rewrite E. now left.
Qed.

(** ** Every reachable state is well formed *)

Lemma Wf_boot : Wf boot.
Proof.
  constructor; simpl.
  - repeat constructor; simpl; intuition discriminate.
  - constructor.
  - intros n conn H. repeat (destruct H as [H|H]; [discriminate H|]). destruct H.
  - intros n l H.
    repeat (destruct H as [H|H]; [now injection H as <- <-|]). destruct H.
  - intros conn [].
  - intros conn [].
  - intros id [].
  - intros d [].
  - intros d k [].
  - constructor.
Qed.

Lemma Wf_with_session (s : Session) (a : App) : Wf a -> Wf (with_session s a).
Proof. intros [w1 w2 w3 w4 w5 w6 w7 w8 w9 w10]. constructor; assumption. Qed.

Lemma Wf_emit (e : Emission) (ts : string) (a : App) : Wf a -> Wf (emit e ts a).
Proof.
  intros W. pose proof W as [w1 w2 w3 w4 w5 w6 w7 w8 w9 w10].
  constructor; simpl; try assumption.
  - intros d Hd. apply in_app_or in Hd. destruct Hd as [Hd|Hd].
    + apply w8 in Hd. destruct (recipient d); exact Hd.
    + apply frames_recipient in Hd. destruct (recipient d) as [conn|id]; simpl.
      * apply w5. now apply (w3 (ename e) conn).
      * now apply w7.
  - intros d k Hd E. apply in_app_or in Hd. destruct Hd as [Hd|Hd].
    + specialize (w9 d k Hd E). lia.
    + apply frames_cause in Hd. rewrite Hd in E. injection E as <-. lia.
  - rewrite event_keys_app. apply NoDup_app.
    + assumption.
    + now apply frames_keys_NoDup.
    + intros [c k] H1 H2.
      apply event_keys_In in H1, H2.
      destruct H1 as (d1 & Hd1 & _ & E1), H2 as (d2 & Hd2 & _ & E2).
      specialize (w9 d1 k Hd1 E1).
      apply frames_cause in Hd2. rewrite Hd2 in E2. injection E2 as <-. lia.
Qed.

(** Writing a frame that no emission caused to a known consumer. *)
Lemma Wf_write (d : Delivery) (a : App) :
  cause d = None -> known (recipient d) a -> Wf a -> Wf (write d a).
Proof.
  intros Hc Hk [w1 w2 w3 w4 w5 w6 w7 w8 w9 w10].
  constructor; simpl; try assumption.
  - intros d' Hd. apply in_app_or in Hd. destruct Hd as [Hd|[<-|[]]].
    + apply w8 in Hd. destruct (recipient d'); exact Hd.
    + destruct (recipient d); exact Hk.
  - intros d' k Hd E. apply in_app_or in Hd. destruct Hd as [Hd|[<-|[]]].
    + now apply (w9 d' k).
    + congruence.
  - rewrite event_keys_app. simpl. rewrite Hc. simpl. now rewrite app_nil_r.
Qed.

Lemma Wf_step (act : Action) (a : App) : Wf a -> Wf (step act a).
Proof.
  intros W. destruct act as [c ev ts|ts|conn|conn ts| |id|id].
  - rewrite step_raises. now apply Wf_emit, Wf_with_session.
  - (* a stream opens *)
    pose proof W as [w1 w2 w3 w4 w5 w6 w7 w8 w9 w10].
    unfold step. constructor; cbn [session listeners sockets streams pings
      next_conn next_sock emissions wire write].
    + rewrite subscribe_eq. apply NoDup_app.
      * assumption.
      * apply NoDup_map_NoDup_ForallPairs.
        -- intros x y _ _ [= ->]. reflexivity.
        -- unfold sse_events. repeat constructor; simpl; intuition discriminate.
      * intros [n l] H1 H2. apply in_map_iff in H2.
        destruct H2 as (m & [= -> <-] & _).
        apply w3 in H1. destruct H1 as [H1 _]. apply w5 in H1. lia.
    + assumption.
    + intros n conn H. rewrite subscribe_eq in H. apply in_app_or in H.
      rewrite in_map_iff in H. destruct H as [H|(m & [= -> ->] & Hm)].
      * apply w3 in H. destruct H as [H1 H2]. split; [|assumption].
        apply in_or_app. now left.
      * split; [|assumption]. apply in_or_app. right. now left.
    + intros n l H. rewrite subscribe_eq in H. apply in_app_or in H.
      rewrite in_map_iff in H.
      destruct H as [H|(m & E & _)]; [now apply w4 | discriminate E].
    + intros conn Hc. apply in_app_or in Hc. destruct Hc as [Hc|[<-|[]]].
      * apply w5 in Hc. lia.
      * lia.
    + intros conn Hc. apply in_app_or in Hc. destruct Hc as [Hc|[<-|[]]].
      * apply w6 in Hc. lia.
      * lia.
    + assumption.
    + intros d Hd. apply in_app_or in Hd. destruct Hd as [Hd|[<-|[]]].
      * apply w8 in Hd. destruct (recipient d); simpl in *; [lia | exact Hd].
      * simpl. lia.
    + intros d k Hd E. apply in_app_or in Hd. destruct Hd as [Hd|[<-|[]]].
      * now apply (w9 d k).
      * discriminate E.
    + rewrite event_keys_app. simpl. now rewrite app_nil_r.
  - (* a stream closes *)
    unfold step. destruct (existsb (Nat.eqb conn) (streams a)) eqn:X; [|assumption].
    pose proof W as [w1 w2 w3 w4 w5 w6 w7 w8 w9 w10].
    constructor; cbn [session listeners sockets streams pings
      next_conn next_sock emissions wire]; try assumption.
    + now apply unsubscribe_NoDup.
    + intros n c' H.
      destruct (Nat.eq_dec c' conn) as [->|Hne].
      * exfalso. pose proof (unsubscribe_In _ _ _ _ H) as H0.
        apply w3 in H0. destruct H0 as [_ Hn].
        revert H. now apply unsubscribe_gone.
      * apply unsubscribe_In in H. apply w3 in H. destruct H as [H1 H2].
        split; [|assumption]. apply remove_nat_In. now split.
    + intros n l H. apply unsubscribe_In in H. now apply w4.
    + intros c' H. apply remove_nat_In in H. now apply w5.
    + intros c' H. apply remove_nat_In in H. now apply w6.
  - (* the ping interval fires *)
    unfold step. destruct (existsb (Nat.eqb conn) (pings a)) eqn:X; [|assumption].
    apply Wf_write; [reflexivity | | assumption].
    simpl. apply (wf_pings a W). now apply existsb_eqb_In.
  - (* a socket connects *)
    pose proof W as [w1 w2 w3 w4 w5 w6 w7 w8 w9 w10].
    unfold step. constructor; cbn [session listeners sockets streams pings
      next_conn next_sock emissions wire write]; try assumption.
    + apply NoDup_app; [assumption | repeat constructor; simpl; tauto |].
      intros x Hx [<-|[]]. apply w7 in Hx. lia.
    + intros id Hd. apply in_app_or in Hd. destruct Hd as [Hd|[<-|[]]].
      * apply w7 in Hd. lia.
      * lia.
    + intros d Hd. apply in_app_or in Hd. destruct Hd as [Hd|[<-|[]]].
      * apply w8 in Hd. destruct (recipient d); simpl in *; [exact Hd | lia].
      * simpl. lia.
    + intros d k Hd E. apply in_app_or in Hd. destruct Hd as [Hd|[<-|[]]].
      * now apply (w9 d k).
      * discriminate E.
    + rewrite event_keys_app. simpl. now rewrite app_nil_r.
  - (* a socket disconnects *)
    pose proof W as [w1 w2 w3 w4 w5 w6 w7 w8 w9 w10].
    unfold step. constructor; cbn [session listeners sockets streams pings
      next_conn next_sock emissions wire]; try assumption.
    + unfold remove_nat. now apply NoDup_filter.
    + intros x H. apply remove_nat_In in H. now apply w7.
  - (* a socket asks for the status *)
    unfold step. destruct (existsb (Nat.eqb id) (sockets a)) eqn:X; [|assumption].
    apply Wf_write; [reflexivity | | assumption].
    simpl. apply (wf_socks a W). now apply existsb_eqb_In.
Qed.

Lemma run_snoc (tr : list Action) (act : Action) (a : App) :
  run (tr ++ [act]) a = step act (run tr a).
Proof. unfold run. now rewrite fold_left_app. Qed.

Lemma run_app (xs ys : list Action) (a : App) :
  run (xs ++ ys) a = run ys (run xs a).
Proof. unfold run. apply fold_left_app. Qed.

Lemma Wf_run (tr : list Action) (a : App) : Wf a -> Wf (run tr a).
Proof.
  revert a. induction tr as [|act tr IH]; intros a W; simpl; [assumption|].
  now apply IH, Wf_step.
Qed.

(** ** What a step writes *)

(** A step appends frames to the wire; each new frame either was caused by
    no emission, or the step is a raw event of the client, the frame carries
    the number of its emission and goes to a consumer attached at that
    moment. *)
Lemma step_wire (act : Action) (a : App) :
  Wf a ->
  exists news,
    wire (step act a) = wire a ++ news /\
    forall d, In d news ->
      cause d = None \/
      (exists c ev ts, act = ClientRaises c ev ts) /\
      cause d = Some (emissions a) /\
      attached (recipient d) a.
Proof.
  intros W. destruct act as [c ev ts|ts|conn|conn ts| |id|id].
  - rewrite step_raises.
    exists (frames_of_emission (emission_of ev) ts
              (with_session (fst (on_event c ev (session a))) a)).
    split; [reflexivity|]. intros d Hd. right. split; [eauto|]. split.
    + now apply frames_cause in Hd.
    + apply frames_recipient in Hd. simpl in Hd.
      destruct (recipient d) as [conn|id]; simpl.
      * now apply (wf_handlers a W) in Hd.
      * exact Hd.
  - eexists. split; [reflexivity|]. intros d [<-|[]]. now left.
  - exists []. split; [|intros d []].
    unfold step. destruct (existsb (Nat.eqb conn) (streams a)); simpl;
      now rewrite app_nil_r.
  - unfold step. destruct (existsb (Nat.eqb conn) (pings a)).
    + eexists. split; [reflexivity|]. intros d [<-|[]]. now left.
    + exists []. split; [now rewrite app_nil_r | intros d []].
  - eexists. split; [reflexivity|]. intros d [<-|[]]. now left.
  - exists []. split; [simpl; now rewrite app_nil_r | intros d []].
  - unfold step. destruct (existsb (Nat.eqb id) (sockets a)).
    + eexists. split; [reflexivity|]. intros d [<-|[]]. now left.
    + exists []. split; [now rewrite app_nil_r | intros d []].
Qed.

Lemma emissions_step (act : Action) (a : App) :
  (emissions a <= emissions (step act a))%nat.
Proof.
  destruct act as [c ev ts|ts|conn|conn ts| |id|id]; unfold step.
  - fold (step (ClientRaises c ev ts) a). rewrite step_raises. simpl. lia.
  - simpl. lia.
  - destruct (existsb (Nat.eqb conn) (streams a)); simpl; lia.
  - destruct (existsb (Nat.eqb conn) (pings a)); simpl; lia.
  - simpl. lia.
  - simpl. lia.
  - destruct (existsb (Nat.eqb id) (sockets a)); simpl; lia.
Qed.

Lemma emissions_run (tr : list Action) (a : App) :
  (emissions a <= emissions (run tr a))%nat.
Proof.
  revert a. induction tr as [|act tr IH]; intros a; simpl; [lia|].
  specialize (IH (step act a)). pose proof (emissions_step act a). lia.
Qed.

(** The consumer that an action creates was not known before. *)
Lemma attaches_fresh (act : Action) (a : App) (c : Consumer) :
  attaches act a = Some c -> ~ known c a.
Proof.
  destruct act; simpl; intros [= <-]; simpl; lia.
Qed.

(** Frames that reach a consumer created by [act] were caused by emissions
    made after [act]. *)
Lemma late_consumer_frames (post : list Action) (act : Action) (a : App)
  (c : Consumer) (d : Delivery) (k : nat) :
  Wf a ->
  attaches act a = Some c ->
  In d (wire (run (act :: post) a)) ->
  recipient d = c -> cause d = Some k ->
  (emissions a <= k)%nat.
Proof.
  intros W At. revert d k.
  induction post as [|x post IH] using rev_ind; intros d k Hd Hr Hc.
  - simpl in Hd. destruct (step_wire act a W) as (news & E & N).
    rewrite E in Hd. apply in_app_or in Hd. destruct Hd as [Hd|Hd].
    + exfalso. apply (attaches_fresh act a c At). rewrite <- Hr.
      now apply (wf_recipients a W).
    + destruct (N d Hd) as [Hn|[(c0 & ev & ts & ->) _]]; [congruence|].
      discriminate At.
  - rewrite app_comm_cons, run_snoc in Hd.
    assert (W' : Wf (run (act :: post) a)) by now apply Wf_run.
    destruct (step_wire x _ W') as (news & E & N).
    rewrite E in Hd. apply in_app_or in Hd. destruct Hd as [Hd|Hd].
    + now apply (IH d k).
    + destruct (N d Hd) as [Hn|(_ & Hk & _)]; [congruence|].
      rewrite Hk in Hc. injection Hc as <-.
      apply (emissions_run (act :: post) a).
Qed.

Lemma received_In (c : Consumer) (k : nat) (a : App) (d : Delivery) :
  In d (received c k a) <-> In d (wire a) /\ recipient d = c /\ cause d = Some k.
Proof.
  unfold received. rewrite filter_In, andb_true_iff, Consumer_eqb_eq.
  destruct (cause d) as [j|].
  - rewrite Nat.eqb_eq. split.
    + intros (H1 & H2 & ->). auto.
    + intros (H1 & H2 & [= ->]). auto.
  - split; [intros (_ & _ & H) | intros (_ & _ & H)]; discriminate H.
Qed.

Lemma received_at_most_once (c : Consumer) (k : nat) (a : App) :
  NoDup (event_keys (wire a)) -> (length (received c k a) <= 1)%nat.
Proof.
  unfold received. generalize (wire a). intros ds.
  induction ds as [|d ds IH]; intros H; simpl; [lia|].
  simpl in H. destruct (cause d) as [j|] eqn:Ej; simpl in H.
  - inversion H as [|x xs Hx Hn]; subst.
    destruct (Consumer_eqb (recipient d) c && Nat.eqb j k) eqn:Q; simpl.
    + apply andb_true_iff in Q. destruct Q as [Q1 Q2].
      apply Consumer_eqb_eq in Q1. apply Nat.eqb_eq in Q2. subst.
      assert (Z : filter (fun d0 => Consumer_eqb (recipient d0) (recipient d) &&
                                    match cause d0 with
                                    | Some j => Nat.eqb j k
                                    | None => false
                                    end) ds = []).
      { destruct (filter _ ds) as [|d' rest] eqn:F; [reflexivity|].
        exfalso. apply Hx. apply event_keys_In.
        assert (Hd' : In d' (d' :: rest)) by now left.
        rewrite <- F in Hd'. apply filter_In in Hd'. destruct Hd' as [Hin Hm].
        apply andb_true_iff in Hm. destruct Hm as [M1 M2].
        apply Consumer_eqb_eq in M1.
        destruct (cause d') as [j'|] eqn:Ej'; [|discriminate M2].
        apply Nat.eqb_eq in M2. subst j'. now exists d'. }
      rewrite Z. simpl. lia.
    + now apply IH.
  - rewrite andb_false_r. now apply IH.
Qed.

(** ** No replay *)

(** C9: a consumer that attaches after an event was emitted receives no frame
    for that event, however the run goes on; no consumer receives more than
    one frame for one emission; and every frame caused by an emission went to
    a consumer that was attached when the emission was made. *)
Theorem no_replay_at_most_once :
  (forall pre act post c k,
      attaches act (run pre boot) = Some c ->
      (k < emissions (run pre boot))%nat ->
      received c k (run (pre ++ act :: post) boot) = []) /\
  (forall tr c k, (length (received c k (run tr boot)) <= 1)%nat) /\
  (forall tr d k,
      In d (wire (run tr boot)) -> cause d = Some k ->
      exists pre c ev ts post,
        tr = pre ++ ClientRaises c ev ts :: post /\
        emissions (run pre boot) = k /\
        attached (recipient d) (run pre boot)).
Proof.
  split; [|split].
  - intros pre act post c k At Hk.
    destruct (received c k (run (pre ++ act :: post) boot)) as [|d rest] eqn:R;
      [reflexivity|].
    exfalso.
    assert (Hd : In d (received c k (run (pre ++ act :: post) boot)))
      by (rewrite R; now left).
    apply received_In in Hd. destruct Hd as (Hd & Hr & Hc).
    rewrite run_app in Hd.
    pose proof (late_consumer_frames post act (run pre boot) c d k
                  (Wf_run pre boot Wf_boot) At Hd Hr Hc).
    lia.
  - intros tr c k. apply received_at_most_once.
    apply (wf_keys _ (Wf_run tr boot Wf_boot)).
  - intros tr. induction tr as [|x tr IH] using rev_ind; intros d k Hd Hc.
    + destruct Hd.
    + rewrite run_snoc in Hd.
      destruct (step_wire x _ (Wf_run tr boot Wf_boot)) as (news & E & N).
      rewrite E in Hd. apply in_app_or in Hd. destruct Hd as [Hd|Hd].
      * destruct (IH d k Hd Hc) as (pre & c & ev & ts & post & -> & He & Ha).
        exists pre, c, ev, ts, (post ++ [x]). split; [|now split].
        now rewrite <- app_assoc.
      * destruct (N d Hd) as [Hn|((c & ev & ts & ->) & Hk & Ha)]; [congruence|].
        exists tr, c, ev, ts, []. split; [reflexivity|]. split; [|assumption].
        congruence.
Qed.

Lemma no_replay_at_most_once_witness :
  let opens := SseOpen "2024-01-01T00:00:01.000Z" in
  attaches opens (run [message_arrives] boot) = Some (Sse 0) /\
  emissions (run [message_arrives] boot) = 1%nat /\
  received (Sse 0) 0 (run ([message_arrives] ++ opens :: [message_arrives]) boot) = [] /\
  length (received (Sse 0) 1
            (run ([message_arrives] ++ opens :: [message_arrives]) boot)) = 1%nat.
Proof.
  cbv zeta. split; [reflexivity | split; [reflexivity | split; [|reflexivity]]].
  apply (proj1 no_replay_at_most_once
           [message_arrives] (SseOpen "2024-01-01T00:00:01.000Z") [message_arrives]
           (Sse 0) 0%nat).
  - reflexivity.
  - apply Nat.lt_0_1.
Defined.

(** Two sockets are connected when a message arrives: each receives one
    frame for it, with the same payload; a socket that connects afterwards
    receives the status snapshot only. *)
Example two_sockets_one_message :
  let a := run [SocketConnect; SocketConnect; message_arrives; SocketConnect] boot in
  map frame (received (Sock 0) 0 a) =
    [SockEvent "whatsapp:message" (PMessage incoming_message)] /\
  map frame (received (Sock 1) 0 a) =
    [SockEvent "whatsapp:message" (PMessage incoming_message)] /\
  received (Sock 2) 0 a = [] /\
  map frame (filter (fun d => Consumer_eqb (recipient d) (Sock 2)) (wire a)) =
    [SockStatus (set_lastSeen 1000 initial)].
Proof. cbv zeta. repeat split. Qed.

(** A closed stream receives nothing more, the other stream goes on. *)
Example closed_stream_is_detached :
  let a := run [SseOpen "t0"; SseOpen "t1"; SseClose 0; message_arrives] boot in
  received (Sse 0) 0 a = [] /\
  length (received (Sse 1) 0 a) = 1%nat /\
  listeners_for message (listeners a) = [Bridge message; SseHandler 1].
Proof. cbv zeta. repeat split. Qed.

(** * Further properties of the code *)

(** ** The guard and the session under the facade operations *)

Lemma guarded_not_ready {A} (k : M A) (env : Env) (s : Session) :
  isReady s = false ->
  (require_ready ;;; k) env s =
  {| result := Throw (mkWhatsAppError "Cliente WhatsApp não está pronto" "NOT_READY");
     final := s; calls := [] |}.
Proof. intros R. unfold bind. now rewrite (require_ready_not_ready env s R). Qed.

(** X1: on a session that is not ready every guarded operation of the
    facade rejects with the [WhatsAppError] of code [NOT_READY], makes no
    call on the wrapped client and leaves the session as it was. *)
Theorem guard_blocks_every_operation (op : Op) (env : Env) (s : Session) :
  isReady s = false ->
  perform op env s =
  {| result := Throw (WhatsAppError "Cliente WhatsApp não está pronto" "NOT_READY" 500);
     final := s; calls := [] |}.
Proof.
  intros R.
  destruct op; cbn [perform];
    unfold fmap, sendMessage, sendMedia, getContacts, getChats, getChatById,
      createGroup, getGroupInviteLink, joinGroup, getProfilePicture, setStatus,
      blockContact, unblockContact, getMessages, markAsRead, muteChat,
      unmuteChat, archiveChat, unarchiveChat, deleteChat, pinChat, unpinChat,
      getClientInfo;
    rewrite (guarded_not_ready _ env s R); reflexivity.
Qed.

Lemma guard_blocks_every_operation_witness :
  isReady initial = false /\
  perform (OpCreateGroup "Test Group" ["5511999999999@c.us"]) env_resolving initial =
  {| result := Throw (WhatsAppError "Cliente WhatsApp não está pronto" "NOT_READY" 500);
     final := initial; calls := [] |}.
Proof.
  split; [reflexivity|].
  exact (guard_blocks_every_operation
           (OpCreateGroup "Test Group" ["5511999999999@c.us"])
           env_resolving initial eq_refl).
Defined.

Lemma keeps_session_get : keeps_session get.
Proof. intros env s. reflexivity. Qed.

Lemma keeps_session_read_info : keeps_session read_info.
Proof. intros env s. reflexivity. Qed.

Lemma keeps_session_getChatById (chatId : string) : keeps_session (getChatById chatId).
Proof. unfold getChatById. auto 10 with facade. Qed.

Lemma keeps_session_if {A} (b : bool) (m1 m2 : M A) :
  keeps_session m1 -> keeps_session m2 -> keeps_session (if b then m1 else m2).
Proof. now destruct b. Qed.

Lemma keeps_session_fmap {A B} (f : A -> B) (m : M A) :
  keeps_session m -> keeps_session (fmap f m).
Proof. intros H env s. apply H. Qed.

#[export] Hint Resolve keeps_session_get keeps_session_read_info
  keeps_session_getChatById keeps_session_if keeps_session_fmap : facade.

Lemma stamps_or_keeps_of_keeps {A} (m : M A) : keeps_session m -> stamps_or_keeps m.
Proof.
  intros H env s. destruct (result (m env s)); [left|]; apply H.
Qed.

Lemma stamps_or_keeps_touch : stamps_or_keeps touch.
Proof. intros env s. simpl. now right. Qed.

Lemma stamps_or_keeps_touch_ret {A} (a : A) : stamps_or_keeps (touch ;;; ret a).
Proof. intros env s. simpl. now right. Qed.

Lemma stamps_or_keeps_bind {A B} (m : M A) (k : A -> M B) :
  keeps_session m -> (forall a, stamps_or_keeps (k a)) -> stamps_or_keeps (bind m k).
Proof.
  intros Hm Hk env s. rewrite result_bind, final_bind.
  destruct (result (m env s)) as [a|e].
  - rewrite (Hm env s). apply Hk.
  - apply Hm.
Qed.

Lemma stamps_or_keeps_rethrow {A} (body : M A) (message code : string) :
  stamps_or_keeps body ->
  stamps_or_keeps (try_catch body (rethrow_as message code)).
Proof.
  intros Hb env s. rewrite result_try_catch, final_try_catch.
  specialize (Hb env s). destruct (result (body env s)) as [a|e]; assumption.
Qed.

Lemma stamps_or_keeps_fmap {A B} (f : A -> B) (m : M A) :
  stamps_or_keeps m -> stamps_or_keeps (fmap f m).
Proof.
  intros Hm env s. rewrite result_fmap. specialize (Hm env s).
  change (final (fmap f m env s)) with (final (m env s)).
  destruct (result (m env s)); assumption.
Qed.

Lemma keeps_session_getProfilePicture (contactId : string) :
  keeps_session (getProfilePicture contactId).
Proof. unfold getProfilePicture. auto 12 with facade. Qed.

Lemma perform_stamps_or_keeps (op : Op) : stamps_or_keeps (perform op).
Proof.
  destruct op; cbn [perform]; apply stamps_or_keeps_fmap;
    unfold sendMessage, sendMedia, getContacts, getChats,
      createGroup, getGroupInviteLink, joinGroup, setStatus,
      blockContact, unblockContact, getMessages, markAsRead, muteChat,
      unmuteChat, archiveChat, unarchiveChat, deleteChat, pinChat, unpinChat,
      getClientInfo;
    try (apply stamps_or_keeps_of_keeps; auto 12 with facade; fail);
    repeat first
      [ apply stamps_or_keeps_touch
      | apply stamps_or_keeps_touch_ret
      | apply stamps_or_keeps_rethrow
      | apply stamps_or_keeps_bind; [auto 12 with facade | intros ?] ].
  apply stamps_or_keeps_of_keeps. auto 12 with facade.
Qed.

Lemma perform_keeps_session (op : Op) :
  is_mutating op = false \/ (exists chatId, op = OpMarkAsRead chatId) ->
  keeps_session (perform op).
Proof.
  intros [H|[chatId ->]].
  - destruct op; try discriminate H; cbn [perform]; apply keeps_session_fmap;
      try apply keeps_session_getProfilePicture;
      unfold getContacts, getChats, getGroupInviteLink, getMessages, getClientInfo;
      auto 12 with facade.
  - cbn [perform]. apply keeps_session_fmap, markAsRead_keeps_session.
Qed.





(** ** An operation stops at the first rejected call *)

Lemma resolves_or_rejects (cl : Client) (k : AnyCall) :
  resolves cl k \/ rejects cl k.
Proof.
  destruct k as [A c]. simpl. destruct (cl A c) as [a|e]; [left|right]; eauto.
Qed.

Lemma resolves_not_rejects (cl : Client) (k : AnyCall) :
  resolves cl k -> ~ rejects cl k.
Proof. destruct k as [A c]. simpl. intros [a Ha] [e He]. congruence. Qed.

(** A computation that lets rejections through and succeeds saw all its
    calls resolved. *)
Lemma success_means_resolved {A} (m : M A) (env : Env) (s : Session) (a : A) :
  lets_rejections_through m ->
  result (m env s) = Ok a ->
  Forall (resolves (client env)) (calls (m env s)).
Proof.
  intros Hm Ha. apply Forall_forall. intros k Hk.
  destruct (resolves_or_rejects (client env) k) as [H|H]; [assumption|].
  exfalso. destruct (Hm env s) as [e He].
  - apply Exists_exists. now exists k.
  - congruence.
Qed.

Lemma Forall_removelast {A} (P : A -> Prop) (l : list A) :
  Forall P l -> Forall P (removelast l).
Proof.
  induction 1 as [|x l Hx Hl IH]; simpl; [constructor|].
  destruct l; [constructor | now constructor].
Qed.

Lemma removelast_app_Forall {A} (P : A -> Prop) (xs ys : list A) :
  Forall P xs -> Forall P (removelast ys) -> Forall P (removelast (xs ++ ys)).
Proof.
  intros Hx Hy. destruct ys as [|y ys].
  - rewrite app_nil_r. now apply Forall_removelast.
  - rewrite removelast_app by discriminate. apply Forall_app. now split.
Qed.

Lemma stops_nil {A} (m : M A) :
  (forall env s, calls (m env s) = []) -> stops_at_rejection m.
Proof. intros H env s. rewrite H. constructor. Qed.

Lemma stops_await {A} (c : ClientCall A) : stops_at_rejection (await c).
Proof. intros env s. simpl. constructor. Qed.

Lemma stops_bind {A B} (m : M A) (k : A -> M B) :
  lets_rejections_through m -> stops_at_rejection m ->
  (forall a, stops_at_rejection (k a)) ->
  stops_at_rejection (bind m k).
Proof.
  intros Ht Hm Hk env s. rewrite calls_bind.
  destruct (result (m env s)) as [a|e] eqn:E.
  - apply removelast_app_Forall; [|apply Hk].
    now apply (success_means_resolved m env s a).
  - apply Hm.
Qed.

Lemma stops_try {A} (body : M A) (h : Exn -> M A) :
  stops_at_rejection body ->
  (forall e env s, calls (h e env s) = []) ->
  stops_at_rejection (try_catch body h).
Proof.
  intros Hb Hh env s. rewrite calls_try_catch.
  destruct (result (body env s)); [|rewrite Hh, app_nil_r]; apply Hb.
Qed.

Lemma stops_if {A} (b : bool) (m1 m2 : M A) :
  stops_at_rejection m1 -> stops_at_rejection m2 ->
  stops_at_rejection (if b then m1 else m2).
Proof. now destruct b. Qed.

Lemma stops_ret {A} (a : A) : stops_at_rejection (ret a).
Proof. now apply stops_nil. Qed.

Lemma stops_throw {A} (e : Exn) : stops_at_rejection (@throw A e).
Proof. now apply stops_nil. Qed.

Lemma stops_touch : stops_at_rejection touch.
Proof. now apply stops_nil. Qed.

Lemma stops_read_info : stops_at_rejection read_info.
Proof. now apply stops_nil. Qed.

Lemma stops_require_ready : stops_at_rejection require_ready.
Proof.
  apply stops_nil. intros env s. unfold require_ready, bind, get. simpl.
  now destruct (isReady s).
Qed.

Lemma stops_rethrow {A} (body : M A) (message code : string) :
  stops_at_rejection body ->
  stops_at_rejection (try_catch body (rethrow_as message code)).
Proof. intros Hb. now apply stops_try. Qed.

Lemma stops_catch_ret {A} (body : M A) (a : A) :
  stops_at_rejection body ->
  stops_at_rejection (try_catch body (fun _ => ret a)).
Proof. intros Hb. now apply stops_try. Qed.

#[export] Hint Resolve stops_await stops_bind stops_if stops_ret stops_throw
  stops_touch stops_read_info stops_require_ready stops_rethrow stops_catch_ret
  : facade.

Lemma stops_getChatById (chatId : string) : stops_at_rejection (getChatById chatId).
Proof. unfold getChatById. auto 12 with facade. Qed.

#[export] Hint Resolve stops_getChatById : facade.

Lemma perform_stops_at_rejection (op : Op) : stops_at_rejection (perform op).
Proof.
  assert (F : forall A B (f : A -> B) (m : M A),
             stops_at_rejection m -> stops_at_rejection (fmap f m))
    by (intros A B f m H env s; apply H).
  destruct op; cbn [perform]; apply F;
    unfold sendMessage, sendMedia, getContacts, getChats,
      createGroup, getGroupInviteLink, joinGroup, getProfilePicture, setStatus,
      blockContact, unblockContact, getMessages, markAsRead, muteChat,
      unmuteChat, archiveChat, unarchiveChat, deleteChat, pinChat, unpinChat,
      getClientInfo;
    auto 14 with facade.
Qed.

(** X4: an operation of the facade makes no further call on the wrapped
    client once a call was rejected: a rejected call is the last call of the
    run. *)
Theorem rejected_call_is_the_last (op : Op) (env : Env) (s : Session)
  (pre post : list AnyCall) (k : AnyCall) :
  calls (perform op env s) = pre ++ k :: post ->
  rejects (client env) k ->
  post = [].
Proof.
  intros Hc Hk. pose proof (perform_stops_at_rejection op env s) as H.
  rewrite Hc in H. destruct post as [|p post]; [reflexivity|]. exfalso.
  rewrite removelast_app in H by discriminate.
  apply Forall_app in H. destruct H as [_ H]. simpl in H.
  inversion H as [|x l Hx Hl]; subst.
  now apply (resolves_not_rejects (client env) k).
Qed.

Lemma rejected_call_is_the_last_witness :
  calls (perform (OpBlockContact "5511999999999@c.us") env_rejecting ready_session) =
    [] ++ Called (CGetContactById "5511999999999@c.us") :: [] /\
  rejects (client env_rejecting) (Called (CGetContactById "5511999999999@c.us")) /\
  @nil AnyCall = [].
Proof.
  assert (C : calls (perform (OpBlockContact "5511999999999@c.us")
                       env_rejecting ready_session) =
              [] ++ Called (CGetContactById "5511999999999@c.us") :: [])
    by reflexivity.
  assert (R : rejects (client env_rejecting)
                (Called (CGetContactById "5511999999999@c.us")))
    by (simpl; eexists; reflexivity).
  split; [exact C | split; [exact R|]].
  exact (rejected_call_is_the_last
           (OpBlockContact "5511999999999@c.us") env_rejecting ready_session
           [] [] (Called (CGetContactById "5511999999999@c.us")) C R).
Defined.

(** ** Lifecycle operations *)

(** X5: [destroy] always resolves: when the client rejects its call the
    session stays as it was, when the client resolves the two flags are
    cleared; [logout] is all or nothing: it clears flags, identity and
    challenge when the client resolves, and rejects with [LOGOUT_ERROR]
    leaving the session as it was when the client rejects; [initialize]
    rejects with [INIT_ERROR] when the client rejects and never writes the
    session. Each makes exactly one call. *)
Theorem lifecycle_outcomes (env : Env) (s : Session) :
  (result (destroy env s) = Ok tt /\
   calls (destroy env s) = [Called CDestroy] /\
   final (destroy env s) =
   match client env unit CDestroy with
   | Resolved _ => flags_cleared s
   | Rejected _ => s
   end) /\
  (calls (logout env s) = [Called CLogout] /\
   match client env unit CLogout with
   | Resolved _ =>
       result (logout env s) = Ok tt /\
       final (logout env s) =
       set_qrCode None (set_name None (set_phoneNumber None (flags_cleared s)))
   | Rejected _ =>
       result (logout env s) =
         Throw (WhatsAppError "Falha ao fazer logout" "LOGOUT_ERROR" 500) /\
       final (logout env s) = s
   end) /\
  (calls (initialize env s) = [Called CInitialize] /\
   final (initialize env s) = s /\
   result (initialize env s) =
   match client env unit CInitialize with
   | Resolved _ => Ok tt
   | Rejected _ =>
       Throw (WhatsAppError "Falha ao inicializar cliente WhatsApp" "INIT_ERROR" 500)
   end).
Proof.
  split; [|split].
  - unfold destroy.
    rewrite result_try_catch, final_try_catch, calls_try_catch,
      result_bind, final_bind, calls_bind.
    destruct (client env unit CDestroy) as [[]|e] eqn:E.
    + rewrite (await_resolved _ env s tt E). repeat split.
    + rewrite (await_rejected _ env s e E). repeat split.
  - unfold logout.
    rewrite result_try_catch, final_try_catch, calls_try_catch,
      result_bind, final_bind, calls_bind.
    destruct (client env unit CLogout) as [[]|e] eqn:E.
    + rewrite (await_resolved _ env s tt E). repeat split.
    + rewrite (await_rejected _ env s e E). repeat split.
  - unfold initialize.
    rewrite result_try_catch, final_try_catch, calls_try_catch.
    destruct (client env unit CInitialize) as [[]|e] eqn:E.
    + rewrite (await_resolved _ env s tt E). repeat split.
    + rewrite (await_rejected _ env s e E). repeat split.
Qed.

Lemma destroy_run (env : Env) (s : Session) :
  result (destroy env s) = Ok tt /\
  final (destroy env s) =
  match client env unit CDestroy with
  | Resolved _ => flags_cleared s
  | Rejected _ => s
  end.
Proof.
  unfold destroy.
  rewrite result_try_catch, final_try_catch, result_bind, final_bind.
  destruct (client env unit CDestroy) as [[]|e] eqn:E.
  - rewrite (await_resolved _ env s tt E). split; reflexivity.
  - rewrite (await_rejected _ env s e E). split; reflexivity.
Qed.



(** ** The flags along a sequence of raw events *)

Lemma state_after_app_cons (pre post : list Stimulus) (c : Context) (ev : RawEvent)
  (x : Stimulus) :
  pre ++ (c, ev) :: post ++ [x] = (pre ++ (c, ev) :: post) ++ [x].
Proof. now rewrite app_comm_cons, app_assoc. Qed.

Lemma on_event_keeps_isReady (c : Context) (ev : RawEvent) (s : Session) :
  keeps_isReady ev = true -> isReady (fst (on_event c ev s)) = isReady s.
Proof. destruct ev; simpl; intros H; try reflexivity; discriminate. Qed.

Lemma on_event_keeps_isAuthenticated (c : Context) (ev : RawEvent) (s : Session) :
  keeps_isAuthenticated ev = true ->
  isAuthenticated (fst (on_event c ev s)) = isAuthenticated s.
Proof. destruct ev; simpl; intros H; try reflexivity; discriminate. Qed.

Lemma isReady_after (evs : list Stimulus) :
  isReady (state_after evs) = true <->
  exists pre c post,
    evs = pre ++ (c, EvReady) :: post /\
    Forall (fun x => keeps_isReady (snd x) = true) post.
Proof.
  induction evs as [|[c ev] evs IH] using rev_ind.
  - split; [discriminate|]. intros (pre & c & post & E & _).
    destruct pre; discriminate E.
  - rewrite state_after_snoc. destruct (keeps_isReady ev) eqn:K.
    + rewrite on_event_keeps_isReady by assumption. rewrite IH. split.
      * intros (pre & c0 & post & -> & F).
        exists pre, c0, (post ++ [(c, ev)]). split.
        -- now rewrite <- app_assoc.
        -- apply Forall_app. split; [assumption | now constructor].
      * intros (pre & c0 & post & E & F).
        destruct post as [|p post] using rev_ind.
        -- apply app_inj_tail in E. destruct E as [_ [= _ ->]]. discriminate K.
        -- rewrite state_after_app_cons in E. apply app_inj_tail in E.
           destruct E as [-> _]. apply Forall_app in F. destruct F as [F _].
           now exists pre, c0, post.
    + destruct ev; try discriminate K; simpl.
      * split; [intros _|reflexivity].
        exists evs, c, []. split; [reflexivity | constructor].
      * split; [discriminate|]. intros (pre & c0 & post & E & F).
        destruct post as [|p post] using rev_ind.
        -- apply app_inj_tail in E. destruct E as [_ E]. discriminate E.
        -- rewrite state_after_app_cons in E. apply app_inj_tail in E.
           destruct E as [_ <-]. apply Forall_app in F. destruct F as [_ F].
           inversion F as [|y l Hy Hl]; subst. discriminate Hy.
Qed.

Lemma isAuthenticated_after (evs : list Stimulus) :
  isAuthenticated (state_after evs) = true <->
  exists pre c ev post,
    evs = pre ++ (c, ev) :: post /\
    (ev = EvReady \/ ev = EvAuthenticated) /\
    Forall (fun x => keeps_isAuthenticated (snd x) = true) post.
Proof.
  induction evs as [|[c ev] evs IH] using rev_ind.
  - split; [discriminate|]. intros (pre & c & ev & post & E & _).
    destruct pre; discriminate E.
  - rewrite state_after_snoc. destruct (keeps_isAuthenticated ev) eqn:K.
    + rewrite on_event_keeps_isAuthenticated by assumption. rewrite IH. split.
      * intros (pre & c0 & ev0 & post & -> & Hev & F).
        exists pre, c0, ev0, (post ++ [(c, ev)]). split; [|split].
        -- now rewrite <- app_assoc.
        -- assumption.
        -- apply Forall_app. split; [assumption | now constructor].
      * intros (pre & c0 & ev0 & post & E & Hev & F).
        destruct post as [|p post] using rev_ind.
        -- apply app_inj_tail in E. destruct E as [_ [= _ ->]].
           destruct Hev as [->| ->]; discriminate K.
        -- rewrite state_after_app_cons in E. apply app_inj_tail in E.
           destruct E as [-> _]. apply Forall_app in F. destruct F as [F _].
           now exists pre, c0, ev0, post.
    + assert (T : forall P : Prop,
                 (exists pre c0 ev0 post,
                     evs ++ [(c, ev)] = pre ++ (c0, ev0) :: post /\
                     (ev0 = EvReady \/ ev0 = EvAuthenticated) /\
                     Forall (fun x => keeps_isAuthenticated (snd x) = true) post) ->
                 (ev = EvReady \/ ev = EvAuthenticated -> P) -> P).
      { intros P (pre & c0 & ev0 & post & E & Hev & F) HP.
        destruct post as [|p post] using rev_ind.
        - apply app_inj_tail in E. destruct E as [_ [= _ ->]]. now apply HP.
        - rewrite state_after_app_cons in E. apply app_inj_tail in E.
          destruct E as [_ <-]. apply Forall_app in F. destruct F as [_ F].
          inversion F as [|y l Hy Hl]; subst. simpl in Hy. congruence. }
      destruct ev; try discriminate K; simpl.
      * split; [intros _|reflexivity].
        exists evs, c, EvAuthenticated, []. split; [reflexivity|].
        split; [now right | constructor].
      * split; [discriminate|]. intros H. apply (T _ H).
        intros [E|E]; discriminate E.
      * split; [intros _|reflexivity].
        exists evs, c, EvReady, []. split; [reflexivity|].
        split; [now left | constructor].
      * split; [discriminate|]. intros H. apply (T _ H).
        intros [E|E]; discriminate E.
Qed.

(** X7: along every sequence of raw events, [isReady] is true exactly when
    a [ready] event arrived and no [disconnected] event followed it, and
    [isAuthenticated] is true exactly when the last of the [authenticated],
    [auth_failure], [ready] and [disconnected] events is an [authenticated]
    or a [ready] event. *)
Theorem flags_follow_last_lifecycle_event (evs : list Stimulus) :
  (isReady (state_after evs) = true <->
   exists pre c post,
     evs = pre ++ (c, EvReady) :: post /\
     Forall (fun x => keeps_isReady (snd x) = true) post) /\
  (isAuthenticated (state_after evs) = true <->
   exists pre c ev post,
     evs = pre ++ (c, ev) :: post /\
     (ev = EvReady \/ ev = EvAuthenticated) /\
     Forall (fun x => keeps_isAuthenticated (snd x) = true) post).
Proof. split; [apply isReady_after | apply isAuthenticated_after]. Qed.

Lemma flags_follow_last_lifecycle_event_witness :
  isReady (state_after [(sample_context, EvReady);
                        (sample_context, EvMessage incoming_message);
                        (sample_context, EvAuthFailure "x")]) = true.
Proof.
  apply (proj1 (flags_follow_last_lifecycle_event
                  [(sample_context, EvReady);
                   (sample_context, EvMessage incoming_message);
                   (sample_context, EvAuthFailure "x")])).
  exists [], sample_context,
    [(sample_context, EvMessage incoming_message); (sample_context, EvAuthFailure "x")].
  split; [reflexivity|]. repeat constructor.
Defined.

(** ** Identity, message traffic and [lastSeen] along a sequence *)

Lemma on_event_keeps_identity (c : Context) (ev : RawEvent) (s : Session) :
  is_ready_event ev = false ->
  phoneNumber (fst (on_event c ev s)) = phoneNumber s /\
  name (fst (on_event c ev s)) = name s.
Proof. destruct ev; simpl; intros H; try (split; reflexivity); discriminate. Qed.

Lemma or_null_nonempty (o : option string) : JS.or_null o <> Some "".
Proof. destruct o as [[|a s]|]; simpl; discriminate. Qed.

Lemma identity_kept_after (post pre : list Stimulus) :
  Forall (fun x => is_ready_event (snd x) = false) post ->
  phoneNumber (state_after (pre ++ post)) = phoneNumber (state_after pre) /\
  name (state_after (pre ++ post)) = name (state_after pre).
Proof.
  induction post as [|[c ev] post IH] using rev_ind; intros F.
  - rewrite app_nil_r. split; reflexivity.
  - apply Forall_app in F. destruct F as [F1 F2].
    rewrite app_assoc, state_after_snoc.
    destruct (on_event_keeps_identity c ev (state_after (pre ++ post))) as [H1 H2].
    + now inversion F2.
    + rewrite H1, H2. now apply IH.
Qed.



Lemma same_but_lastSeen_refl (s : Session) : same_but_lastSeen s s.
Proof. reflexivity. Qed.

Lemma on_event_same_but_lastSeen (c c' : Context) (ev : RawEvent) (s1 s2 : Session) :
  info c = info c' ->
  same_but_lastSeen s1 s2 ->
  same_but_lastSeen (fst (on_event c ev s1)) (fst (on_event c' ev s2)).
Proof.
  unfold same_but_lastSeen, info_user, info_pushname.
  intros Hi H. destruct s1, s2. injection H as -> -> -> -> ->.
  destruct ev; simpl; unfold set_lastSeen, info_user, info_pushname; simpl;
    rewrite ?Hi; reflexivity.
Qed.

Lemma on_event_traffic (c : Context) (ev : RawEvent) (s1 s2 : Session) :
  is_lifecycle ev = false ->
  same_but_lastSeen s1 s2 ->
  same_but_lastSeen (fst (on_event c ev s1)) s2.
Proof.
  unfold same_but_lastSeen.
  intros L H. destruct s1, s2. injection H as -> -> -> -> ->.
  destruct ev; try discriminate L; reflexivity.
Qed.

Lemma feed_lifecycle_only (evs : list Stimulus) (s1 s2 : Session) :
  same_but_lastSeen s1 s2 ->
  same_but_lastSeen (fst (feed evs s1)) (fst (feed (lifecycle_only evs) s2)).
Proof.
  revert s1 s2. induction evs as [|[c ev] evs IH]; intros s1 s2 H; simpl.
  - assumption.
  - destruct (on_event c ev s1) as [s1' out1] eqn:E1.
    destruct (feed evs s1') as [s1'' out1'] eqn:F1.
    destruct (is_lifecycle ev) eqn:L; simpl.
    + destruct (on_event c ev s2) as [s2' out2] eqn:E2.
      destruct (feed (lifecycle_only evs) s2') as [s2'' out2'] eqn:F2. simpl.
      specialize (IH s1' s2').
      rewrite F1, F2 in IH. simpl in IH. apply IH.
      pose proof (on_event_same_but_lastSeen c c ev s1 s2 eq_refl H) as Q.
      now rewrite E1, E2 in Q.
    + specialize (IH s1' s2). rewrite F1 in IH. simpl in IH. apply IH.
      pose proof (on_event_traffic c ev s1 s2 L H) as Q.
      now rewrite E1 in Q.
Qed.

(** X9: message traffic never changes the connection state: after any
    sequence of raw events the flags, the challenge and the identity of the
    session are what the lifecycle events of the sequence alone would have
    made them; only [lastSeen] can differ. *)
Theorem traffic_changes_lastSeen_only (evs : list Stimulus) :
  same_but_lastSeen (state_after evs) (state_after (lifecycle_only evs)).
Proof. apply feed_lifecycle_only, same_but_lastSeen_refl. Qed.

Lemma lastSeen_bounds (evs : list Stimulus) (t : Z) (s : Session) :
  (lastSeen s <= t)%Z ->
  clock_ascends t evs ->
  (lastSeen s <= lastSeen (fst (feed evs s)))%Z.
Proof.
  revert t s. induction evs as [|[c ev] evs IH]; intros t s Hs Ha; simpl.
  - lia.
  - destruct Ha as [Ht Ha].
    destruct (on_event c ev s) as [s1 out1] eqn:E.
    destruct (feed evs s1) as [s2 out2] eqn:F. simpl.
    assert (B : (lastSeen s <= lastSeen s1 <= clock c)%Z).
    { replace s1 with (fst (on_event c ev s)) by now rewrite E.
      destruct ev; simpl; lia. }
    specialize (IH (clock c) s1). rewrite F in IH. simpl in IH.
    assert (lastSeen s1 <= lastSeen s2)%Z by (apply IH; [lia | assumption]).
    lia.
Qed.

Lemma clock_ascends_app (xs ys : list Stimulus) (t : Z) :
  clock_ascends t (xs ++ ys) ->
  clock_ascends t xs /\
  exists t', (t <= t')%Z /\ clock_ascends t' ys /\
             forall s, (lastSeen s <= t)%Z -> (lastSeen (fst (feed xs s)) <= t')%Z.
Proof.
  revert t. induction xs as [|[c ev] xs IH]; intros t H; simpl in *.
  - split; [exact I|]. exists t. split; [lia|]. split; [assumption|]. trivial.
  - destruct H as [Ht H]. destruct (IH (clock c) H) as (H1 & t' & Ht' & H2 & H3).
    split; [now split|]. exists t'. split; [lia|]. split; [assumption|].
    intros s Hs. destruct (on_event c ev s) as [s1 out1] eqn:E.
    destruct (feed xs s1) as [s2 out2] eqn:F. simpl.
    specialize (H3 s1). rewrite F in H3. simpl in H3. apply H3.
    replace s1 with (fst (on_event c ev s)) by now rewrite E.
    destruct ev; simpl; lia.
Qed.

(** X10: [lastSeen] never goes back as long as the clock does not: when
    the clock readings of the listeners are non-negative and ascend along a
    sequence of raw events, [lastSeen] after a prefix of the sequence is at
    most [lastSeen] after the whole sequence. *)
Theorem lastSeen_is_monotone (pre post : list Stimulus) :
  clock_ascends 0 (pre ++ post) ->
  (lastSeen (state_after pre) <= lastSeen (state_after (pre ++ post)))%Z.
Proof.
  intros H. destruct (clock_ascends_app pre post 0 H) as (_ & t' & _ & Hp & Hb).
  unfold state_after. rewrite feed_app. simpl.
  apply (lastSeen_bounds post t').
  - apply Hb. simpl. lia.
  - assumption.
Qed.

Lemma lastSeen_is_monotone_witness :
  (lastSeen (state_after [(sample_context, EvReady)]) <=
   lastSeen (state_after ([(sample_context, EvReady)] ++
                          [({| clock := 1500; info := sample_info |},
                            EvMessage incoming_message)])))%Z.
Proof.
  apply (lastSeen_is_monotone
           [(sample_context, EvReady)]
           [({| clock := 1500; info := sample_info |}, EvMessage incoming_message)]).
  simpl. repeat split; discriminate.
Defined.

(** ** [optionalAuth], the answers of [authenticateApiKey], [generateApiKey] *)

Lemma admits_iff (key iso_now : string) (req : Request) :
  admits key iso_now req <-> extract_key (headers req) = Some key /\ key <> "".
Proof.
  unfold admits.
  destruct (authenticateApiKey_cases key iso_now req)
    as [(E & Hne & Hn) | [Hnot [msg Hr]]].
  - rewrite Hn. split; [intros _; now split | intros _; eauto].
  - rewrite Hr. split; [intros [r H]; discriminate H | intros H; now apply Hnot in H].
Qed.

(** X11: [optionalAuth] never turns a request away, and it marks the
    request as authenticated exactly when [authenticateApiKey] would let it
    through; it then records the key, and otherwise leaves [apiKey] as it
    was and sets [isAuthenticated] to false. The headers are not touched. *)
Theorem optionalAuth_agrees (key iso_now : string) (req : Request) :
  headers (optionalAuth key req) = headers req /\
  (req_isAuthenticated (optionalAuth key req) = Some true <-> admits key iso_now req) /\
  (admits key iso_now req -> req_apiKey (optionalAuth key req) = Some key) /\
  (~ admits key iso_now req ->
   req_isAuthenticated (optionalAuth key req) = Some false /\
   req_apiKey (optionalAuth key req) = req_apiKey req).
Proof.
  rewrite admits_iff. unfold optionalAuth.
  destruct (extract_key (headers req)) as [k|] eqn:E; simpl.
  - destruct (JS.truthy k) eqn:T; simpl.
    + destruct (String.eqb k key) eqn:Q; simpl.
      * apply String.eqb_eq in Q. subst k. apply truthy_nonempty in T.
        split; [reflexivity|]. split; [|split].
        -- split; [intros _; now split | reflexivity].
        -- reflexivity.
        -- intros N. exfalso. apply N. now split.
      * apply String.eqb_neq in Q.
        split; [reflexivity|]. split; [|split].
        -- split; [discriminate | intros [[= ->] _]; congruence].
        -- intros [[= ->] _]. congruence.
        -- intros _. split; reflexivity.
    + assert (k = "") as -> by (destruct k; [reflexivity | discriminate T]).
      split; [reflexivity|]. split; [|split].
      * split; [discriminate | intros [[= <-] H]; congruence].
      * intros [[= <-] H]. congruence.
      * intros _. split; reflexivity.
  - split; [reflexivity|]. split; [|split].
    + split; [discriminate | intros [H _]; discriminate H].
    + intros [H _]. discriminate H.
    + intros _. split; reflexivity.
Qed.

Lemma optionalAuth_agrees_witness :
  req_isAuthenticated
    (optionalAuth "test-api-key"
       (request_with {| x_api_key := None;
                        authorization := Some "Bearer test-api-key" |})) = Some true.
Proof.
  apply (proj1 (proj2 (optionalAuth_agrees "test-api-key" "2024-01-01T00:00:00.000Z"
                         (request_with {| x_api_key := None;
                                          authorization := Some "Bearer test-api-key" |})))).
  eexists. reflexivity.
Defined.

(** X12: the answers of [authenticateApiKey]: when no key or an empty one
    is extracted it answers 401 with "API key é obrigatória"; when a
    non-empty key other than the configured one is extracted it answers 401
    with "API key inválida", in particular for a wrong non-empty [X-API-Key]
    whatever the [Authorization] header holds; it never answers 500. *)
Theorem authenticateApiKey_answers (key iso_now : string) (req : Request) :
  (JS.falsy (extract_key (headers req)) = true ->
   authenticateApiKey key iso_now req =
     Respond (unauthorized "API key é obrigatória" iso_now)) /\
  (forall k,
      extract_key (headers req) = Some k -> k <> "" -> k <> key ->
      authenticateApiKey key iso_now req =
        Respond (unauthorized "API key inválida" iso_now)) /\
  (forall k,
      x_api_key (headers req) = Some k -> k <> "" -> k <> key ->
      authenticateApiKey key iso_now req =
        Respond (unauthorized "API key inválida" iso_now)) /\
  (forall res, authenticateApiKey key iso_now req = Respond res -> status res = 401%Z).
Proof.
  assert (A : forall k,
             extract_key (headers req) = Some k -> k <> "" -> k <> key ->
             authenticateApiKey key iso_now req =
               Respond (unauthorized "API key inválida" iso_now)).
  { intros k E Hne Hk. unfold authenticateApiKey, check_key. rewrite E. simpl.
    apply truthy_nonempty in Hne. rewrite Hne. simpl.
    apply String.eqb_neq in Hk. now rewrite Hk. }
  split; [|split; [exact A | split]].
  - intros F. unfold authenticateApiKey, check_key. now rewrite F.
  - intros k X Hne Hk. apply (A k); try assumption.
    unfold extract_key, JS.or_else. rewrite X.
    apply truthy_nonempty in Hne. now rewrite Hne.
  - intros res H. unfold authenticateApiKey, check_key in H.
    destruct (JS.falsy (extract_key (headers req))).
    + injection H as <-. reflexivity.
    + destruct (extract_key (headers req)) as [k|].
      * destruct (String.eqb k key); simpl in H; [discriminate H|].
        injection H as <-. reflexivity.
      * injection H as <-. reflexivity.
Qed.

Lemma authenticateApiKey_answers_witness :
  authenticateApiKey "test-api-key" "2024-01-01T00:00:00.000Z"
    (request_with {| x_api_key := Some "wrong";
                     authorization := Some "Bearer test-api-key" |}) =
  Respond (unauthorized "API key inválida" "2024-01-01T00:00:00.000Z").
Proof.
  apply (proj1 (proj2 (proj2 (authenticateApiKey_answers
                                "test-api-key" "2024-01-01T00:00:00.000Z"
                                (request_with {| x_api_key := Some "wrong";
                                                 authorization := Some "Bearer test-api-key" |}))))
           "wrong").
  - reflexivity.
  - discriminate.
  - discriminate.
Defined.

Lemma list_ascii_of_string_app (a b : string) :
  list_ascii_of_string (a ++ b)%string =
  list_ascii_of_string a ++ list_ascii_of_string b.
Proof. induction a as [|x a IH]; simpl; [reflexivity | now rewrite IH]. Qed.

Lemma string_length_list (s : string) :
  String.length s = length (list_ascii_of_string s).
Proof. induction s as [|x s IH]; simpl; [reflexivity | now rewrite IH]. Qed.

Lemma charAt_in_range (s : string) (i : nat) :
  (i < String.length s)%nat ->
  exists c, charAt s i = String c EmptyString /\ In c (list_ascii_of_string s).
Proof.
  unfold charAt. revert i. induction s as [|x s IH]; intros i H; simpl in *; [lia|].
  destruct i as [|i]; simpl.
  - exists x. split; [reflexivity | now left].
  - destruct (IH i) as (c & Hc & Hin); [lia|].
    destruct (String.get i s); [|discriminate Hc].
    exists c. split; [assumption | now right].
Qed.

Lemma generate_from_spec (n i : nat) (draw : nat -> nat) (r : string) :
  (forall j, (i <= j < i + n)%nat -> (draw j < String.length key_chars)%nat) ->
  String.length (generate_from n i draw r) = (String.length r + n)%nat /\
  (Forall (fun c => In c (list_ascii_of_string key_chars)) (list_ascii_of_string r) ->
   Forall (fun c => In c (list_ascii_of_string key_chars))
     (list_ascii_of_string (generate_from n i draw r))).
Proof.
  revert i r. induction n as [|n IH]; intros i r H; simpl.
  - split; [lia | trivial].
  - destruct (charAt_in_range key_chars (draw i)) as (c & Hc & Hin);
      [apply H; lia|].
    destruct (IH (S i) (r ++ charAt key_chars (draw i))%string) as [L F];
      [intros j Hj; apply H; lia|].
    split.
    + rewrite L, !string_length_list, list_ascii_of_string_app, length_app, Hc.
      simpl. lia.
    + intros Fr. apply F. rewrite list_ascii_of_string_app, Hc. simpl.
      apply Forall_app. split; [assumption | now constructor].
Qed.

(** X13: when every draw of [generateApiKey] is an index into its
    alphabet, the key has 32 characters, all of them letters or digits of
    the alphabet, and a request that sends it in [X-API-Key] is let through
    when it is the configured key. *)
Theorem generateApiKey_spec (draw : nat -> nat) (iso_now : string) :
  (forall i, (i < 32)%nat -> (draw i < 62)%nat) ->
  String.length (generateApiKey draw) = 32%nat /\
  Forall (fun c => In c (list_ascii_of_string key_chars))
    (list_ascii_of_string (generateApiKey draw)) /\
  admits (generateApiKey draw) iso_now
    (request_with {| x_api_key := Some (generateApiKey draw); authorization := None |}).
Proof.
  intros H. unfold generateApiKey.
  destruct (generate_from_spec 32 0 draw "") as [L F].
  { intros j Hj. change (String.length key_chars) with 62%nat. apply H. lia. }
  split; [exact L | split; [apply F; constructor|]].
  apply documented_headers_admitted; [|now left].
  intros E. rewrite E in L. discriminate L.
Qed.

Lemma generateApiKey_spec_witness :
  generateApiKey (fun i => i) = "ABCDEFGHIJKLMNOPQRSTUVWXYZabcdef" /\
  String.length (generateApiKey (fun i => i)) = 32%nat.
Proof.
  split; [reflexivity|].
  apply (generateApiKey_spec (fun i => i) "2024-01-01T00:00:00.000Z").
  intros i H. lia.
Defined.

(** ** Validation after authentication *)

Lemma check_part_nil {V} (name : string) (check : option (Check V)) (v : V) :
  check_part name check v = [] <-> passes check v.
Proof.
  unfold check_part, passes. destruct check as [f|]; [|tauto].
  destruct (f v); split; intros H; try reflexivity; discriminate H.
Qed.

Lemma check_part_fields {V} (name : string) (check : option (Check V)) (v : V) :
  map issue_field (check_part name check v) = [] \/
  map issue_field (check_part name check v) = [name].
Proof.
  unfold check_part. destruct check as [f|]; [|now left].
  destruct (f v); [now right | now left].
Qed.

Lemma validate_valid {V} (schema : ValidationSchema V) (iso_now : string)
  (req : Parts V) :
  validate schema iso_now req = Valid <-> all_pass schema req.
Proof.
  unfold validate, all_pass, validation_errors.
  rewrite <- (check_part_nil "body"), <- (check_part_nil "query"),
    <- (check_part_nil "params"), <- (check_part_nil "headers").
  destruct (check_part "body" (schema_body schema) (part_body req));
    destruct (check_part "query" (schema_query schema) (part_query req));
    destruct (check_part "params" (schema_params schema) (part_params req));
    destruct (check_part "headers" (schema_headers schema) (part_headers req));
    simpl; split; intros E; try reflexivity; try discriminate E;
    try (repeat split; reflexivity);
    destruct E as (E1 & E2 & E3 & E4); discriminate.
Qed.

(** X14: on a route with [authenticateApiKey] before [validate(schema)],
    the handler runs, once, exactly when the key is accepted and every
    present schema accepts its part of the request; a request without an
    accepted key is answered by the key check alone, whatever its parts
    hold; an accepted request with a rejected part is answered 400 "Dados
    inválidos" with one entry per rejected part, in the order body, query,
    params, headers. *)
Theorem validation_comes_after_authentication {V H : Type}
  (key iso_now : string) (schema : ValidationSchema V)
  (handler : Request -> Parts V -> H) (req : Request) (parts : Parts V) :
  (snd (validated_route key iso_now schema handler req parts) = 1%nat <->
   admits key iso_now req /\ all_pass schema parts) /\
  (snd (validated_route key iso_now schema handler req parts) = 0%nat \/
   snd (validated_route key iso_now schema handler req parts) = 1%nat) /\
  (~ admits key iso_now req ->
   exists res,
     authenticateApiKey key iso_now req = Respond res /\
     validated_route key iso_now schema handler req parts = (Refused res, 0%nat)) /\
  (admits key iso_now req -> ~ all_pass schema parts ->
   validated_route key iso_now schema handler req parts =
   (Rejected_input
      (Invalid 400 false "Dados inválidos" (validation_errors schema parts) iso_now),
    0%nat) /\
   exists picked,
     map issue_field (validation_errors schema parts) =
       filter picked ["body"; "query"; "params"; "headers"]).
Proof.
  unfold validated_route, admits.
  pose proof (validate_valid schema iso_now parts) as VV.
  destruct (authenticateApiKey key iso_now req) as [req'|res] eqn:A.
  - destruct (validate schema iso_now parts) as [|st ok err det t] eqn:Vd.
    + assert (P : all_pass schema parts) by now apply VV.
      split; [|split; [|split]]; simpl.
      * split; [intros _; split; eauto | reflexivity].
      * now right.
      * intros N. exfalso. apply N. eauto.
      * intros _ N. contradiction.
    + assert (P : ~ all_pass schema parts)
        by (intros P; apply VV in P; discriminate P).
      split; [|split; [|split]]; simpl.
      * split; [discriminate | intros [_ Q]; contradiction].
      * now left.
      * intros N. exfalso. apply N. eauto.
      * intros _ _. unfold validate in Vd.
        destruct (0 <? length (validation_errors schema parts))%nat;
          [|discriminate Vd].
        injection Vd as <- <- <- <- <-. split; [reflexivity|].
        unfold validation_errors. rewrite !map_app.
        destruct (check_part_fields "body" (schema_body schema) (part_body parts))
          as [-> | ->];
          destruct (check_part_fields "query" (schema_query schema) (part_query parts))
            as [-> | ->];
          destruct (check_part_fields "params" (schema_params schema) (part_params parts))
            as [-> | ->];
          destruct (check_part_fields "headers" (schema_headers schema)
                      (part_headers parts)) as [-> | ->];
          simpl;
          [ exists (fun _ => false)
          | exists (String.eqb "headers")
          | exists (String.eqb "params")
          | exists (fun n => String.eqb "params" n || String.eqb "headers" n)
          | exists (String.eqb "query")
          | exists (fun n => String.eqb "query" n || String.eqb "headers" n)
          | exists (fun n => String.eqb "query" n || String.eqb "params" n)
          | exists (fun n => negb (String.eqb "body" n))
          | exists (String.eqb "body")
          | exists (fun n => String.eqb "body" n || String.eqb "headers" n)
          | exists (fun n => String.eqb "body" n || String.eqb "params" n)
          | exists (fun n => negb (String.eqb "query" n))
          | exists (fun n => String.eqb "body" n || String.eqb "query" n)
          | exists (fun n => negb (String.eqb "params" n))
          | exists (fun n => negb (String.eqb "headers" n))
          | exists (fun _ => true) ];
          reflexivity.
  - split; [|split; [|split]]; simpl.
    + split; [discriminate | intros [[r Hr] _]; discriminate Hr].
    + now left.
    + intros _. now exists res.
    + intros [r Hr]. discriminate Hr.
Qed.

Lemma validation_comes_after_authentication_witness :
  let schema := {| schema_body := Some (fun b : string =>
                                          if String.eqb b "" then Some "empty" else None);
                   schema_query := None; schema_params := None;
                   schema_headers := None |} in
  let parts := {| part_body := ""; part_query := ""; part_params := "";
                  part_headers := "" |} in
  exists res,
    validated_route "test-api-key" "t" schema (fun _ _ => tt)
      (request_with {| x_api_key := None; authorization := None |}) parts =
    (Refused res, 0%nat).
Proof.
  cbv zeta.
  destruct (proj1 (proj2 (proj2 (validation_comes_after_authentication
                                   "test-api-key" "t"
                                   {| schema_body := Some (fun b : string =>
                                                             if String.eqb b ""
                                                             then Some "empty" else None);
                                      schema_query := None; schema_params := None;
                                      schema_headers := None |}
                                   (fun _ _ => tt)
                                   (request_with {| x_api_key := None;
                                                    authorization := None |})
                                   {| part_body := ""; part_query := "";
                                      part_params := ""; part_headers := "" |}))))
    as (res & _ & R).
  - intros [r Hr]. discriminate Hr.
  - now exists res.
Defined.

(** ** The controllers over the facade *)

Lemma bind_ok {A B} (m : M A) (k : A -> M B) (env : Env) (s s' : Session) (a : A)
  (cs : list AnyCall) :
  m env s = {| result := Ok a; final := s'; calls := cs |} ->
  bind m k env s =
  {| result := result (k a env s'); final := final (k a env s');
     calls := cs ++ calls (k a env s') |}.
Proof. intros E. unfold bind. now rewrite E. Qed.

Lemma bind_throw {A B} (m : M A) (k : A -> M B) (env : Env) (s s' : Session) (e : Exn)
  (cs : list AnyCall) :
  m env s = {| result := Throw e; final := s'; calls := cs |} ->
  bind m k env s = {| result := Throw e; final := s'; calls := cs |}.
Proof. intros E. unfold bind. now rewrite E. Qed.

Lemma try_ok {A} (body : M A) (h : Exn -> M A) (env : Env) (s s' : Session) (a : A)
  (cs : list AnyCall) :
  body env s = {| result := Ok a; final := s'; calls := cs |} ->
  try_catch body h env s = {| result := Ok a; final := s'; calls := cs |}.
Proof. intros E. unfold try_catch. now rewrite E. Qed.

Lemma try_throw {A} (body : M A) (h : Exn -> M A) (env : Env) (s s' : Session) (e : Exn)
  (cs : list AnyCall) :
  body env s = {| result := Throw e; final := s'; calls := cs |} ->
  try_catch body h env s =
  {| result := result (h e env s'); final := final (h e env s');
     calls := cs ++ calls (h e env s') |}.
Proof. intros E. unfold try_catch. now rewrite E. Qed.

Lemma consistent_replied (d : option Api.Data) (msg iso_now : string) :
  consistent iso_now (replied d msg iso_now).
Proof.
  split; [reflexivity|]. left. simpl. repeat split. discriminate.
Qed.

Lemma consistent_failed (code : Z) (err iso_now : string) :
  code = 400%Z \/ code = 404%Z \/ code = 500%Z ->
  consistent iso_now (failed code err iso_now).
Proof.
  intros H. split; [reflexivity|]. right. simpl. repeat split; try assumption.
  discriminate.
Qed.

Lemma yields_ret {A} (P : A -> Prop) (a : A) : P a -> yields P (ret a).
Proof. intros H env s b E. simpl in E. now injection E as <-. Qed.

Lemma yields_bind {A B} (P : B -> Prop) (m : M A) (k : A -> M B) :
  (forall a, yields P (k a)) -> yields P (bind m k).
Proof.
  intros H env s b. rewrite result_bind.
  destruct (result (m env s)) as [a|e]; [apply H | discriminate].
Qed.

Lemma handler_answers {A} (P : A -> Prop) (body : M A) (fallback : A) :
  yields P body -> P fallback ->
  forall env s,
    exists a, result (try_catch body (fun _ => ret fallback) env s) = Ok a /\ P a.
Proof.
  intros Hb Hf env s. rewrite result_try_catch.
  destruct (result (body env s)) as [a|e] eqn:E.
  - exists a. split; [reflexivity | now apply (Hb env s)].
  - exists fallback. now split.
Qed.

(** X15: every modelled endpoint answers: its handler resolves to a reply
    (no exception leaves it), stamped with the handler's clock, and the
    status code and the envelope agree: 200 goes with [success: true], a
    message and no error; 400, 404 or 500 go with [success: false], an
    error and neither data nor message. *)
Theorem every_endpoint_answers (iso_now : string) (e : Endpoint) (env : Env)
  (s : Session) :
  exists r, result (serve iso_now e env s) = Ok r /\ consistent iso_now r.
Proof.
  assert (F : forall code err,
             code = 400%Z \/ code = 404%Z \/ code = 500%Z ->
             consistent iso_now (failed code err iso_now))
    by (intros; now apply consistent_failed).
  destruct e; cbn [serve];
    unfold WhatsAppController.getStatus, WhatsAppController.getQRCode,
      WhatsAppController.initialize, WhatsAppController.restart,
      WhatsAppController.logout, WhatsAppController.getClientInfo,
      WhatsAppController.setStatusMessage, MessageController.sendMessage,
      MessageController.getMessages, ContactController.getProfilePicture,
      ContactController.blockContact, ContactController.markChatAsRead,
      GroupController.getInviteLink;
    apply handler_answers; try (apply F; tauto).
  - apply yields_bind. intros a. apply yields_ret, consistent_replied.
  - apply yields_bind. intros a.
    destruct (JS.or_null (qrCode (getStatus a)));
      apply yields_ret; [apply consistent_replied | apply F; tauto].
  - apply yields_bind. intros a. apply yields_ret, consistent_replied.
  - apply yields_bind. intros a. apply yields_ret, consistent_replied.
  - apply yields_bind. intros a. apply yields_ret, consistent_replied.
  - apply yields_bind. intros a. apply yields_ret, consistent_replied.
  - destruct (JS.or_null _).
    + apply yields_bind. intros a. apply yields_ret, consistent_replied.
    + apply yields_ret, F. tauto.
  - cbv zeta.
    destruct (JS.or_null (send_to req)); [|apply yields_ret, F; tauto].
    destruct (JS.or_null (send_message req)); [|apply yields_ret, F; tauto].
    destruct (String.eqb _ "text").
    + apply yields_bind. intros a. apply yields_ret, consistent_replied.
    + destruct (send_media req); [|apply yields_ret, F; tauto].
      apply yields_bind. intros a. apply yields_ret, consistent_replied.
  - cbv zeta. apply yields_bind. intros a. apply yields_ret, consistent_replied.
  - apply yields_bind. intros a.
    destruct (JS.or_null a);
      apply yields_ret; [apply consistent_replied | apply F; tauto].
  - apply yields_bind. intros a. apply yields_ret, consistent_replied.
  - apply yields_bind. intros a. apply yields_ret, consistent_replied.
  - apply yields_bind. intros a. apply yields_ret, consistent_replied.
Qed.

Lemma failed_by_guard {A} (op : M A) (k : A -> M Api.Reply) (err iso_now : string)
  (env : Env) (s : Session) (x : Exn) :
  op env s = {| result := Throw x; final := s; calls := [] |} ->
  try_catch (bind op k) (fun _ => ret (failed 500 err iso_now)) env s =
  {| result := Ok (failed 500 err iso_now); final := s; calls := [] |}.
Proof.
  intros E. rewrite (try_throw _ _ env s s x []); [reflexivity|].
  now apply bind_throw.
Qed.

(** X16: on a session that is not ready, every endpoint whose handler
    calls a guarded operation answers with an error, 500 (or 400 when the
    handler refuses the request itself), makes no call on the wrapped client
    and leaves the session as it was. *)
Theorem not_ready_endpoint_makes_no_call (iso_now : string) (e : Endpoint)
  (env : Env) (s : Session) :
  isReady s = false ->
  needs_ready e = true ->
  exists code err,
    (code = 400 \/ code = 500)%Z /\
    serve iso_now e env s =
    {| result := Ok (failed code err iso_now); final := s; calls := [] |}.
Proof.
  intros R N.
  destruct e; try discriminate N; cbn [serve];
    unfold WhatsAppController.getClientInfo,
      WhatsAppController.setStatusMessage, MessageController.sendMessage,
      MessageController.getMessages, ContactController.getProfilePicture,
      ContactController.blockContact, ContactController.markChatAsRead,
      GroupController.getInviteLink.
  - eexists 500%Z, _. split; [now right|].
    apply failed_by_guard with (x := mkWhatsAppError "Cliente WhatsApp não está pronto" "NOT_READY").
    unfold getClientInfo. now apply guarded_not_ready.
  - destruct (JS.or_null _).
    + eexists 500%Z, _. split; [now right|].
      apply failed_by_guard with (x := mkWhatsAppError "Cliente WhatsApp não está pronto" "NOT_READY").
      unfold setStatus. now apply guarded_not_ready.
    + eexists 400%Z, _. split; [now left | reflexivity].
  - cbv zeta.
    destruct (JS.or_null (send_to req));
      [|eexists 400%Z, _; split; [now left | reflexivity]].
    destruct (JS.or_null (send_message req));
      [|eexists 400%Z, _; split; [now left | reflexivity]].
    destruct (String.eqb _ "text").
    + eexists 500%Z, _. split; [now right|].
      apply failed_by_guard with (x := mkWhatsAppError "Cliente WhatsApp não está pronto" "NOT_READY").
      unfold sendMessage. now apply guarded_not_ready.
    + destruct (send_media req);
        [|eexists 400%Z, _; split; [now left | reflexivity]].
      eexists 500%Z, _. split; [now right|].
      apply failed_by_guard with (x := mkWhatsAppError "Cliente WhatsApp não está pronto" "NOT_READY").
      unfold sendMedia. now apply guarded_not_ready.
  - cbv zeta. eexists 500%Z, _. split; [now right|].
    apply failed_by_guard with (x := mkWhatsAppError "Cliente WhatsApp não está pronto" "NOT_READY").
    unfold getMessages. now apply guarded_not_ready.
  - eexists 500%Z, _. split; [now right|].
    apply failed_by_guard with (x := mkWhatsAppError "Cliente WhatsApp não está pronto" "NOT_READY").
    unfold getProfilePicture. now apply guarded_not_ready.
  - eexists 500%Z, _. split; [now right|].
    apply failed_by_guard with (x := mkWhatsAppError "Cliente WhatsApp não está pronto" "NOT_READY").
    unfold blockContact. now apply guarded_not_ready.
  - eexists 500%Z, _. split; [now right|].
    apply failed_by_guard with (x := mkWhatsAppError "Cliente WhatsApp não está pronto" "NOT_READY").
    unfold markAsRead. now apply guarded_not_ready.
  - eexists 500%Z, _. split; [now right|].
    apply failed_by_guard with (x := mkWhatsAppError "Cliente WhatsApp não está pronto" "NOT_READY").
    unfold getGroupInviteLink. now apply guarded_not_ready.
Qed.

Lemma not_ready_endpoint_makes_no_call_witness :
  exists code err,
    (code = 400 \/ code = 500)%Z /\
    serve "2024-01-01T00:00:00.000Z" (PostBlock "5511999999999@c.us")
      env_resolving initial =
    {| result := Ok (failed code err "2024-01-01T00:00:00.000Z");
       final := initial; calls := [] |}.
Proof.
  apply (not_ready_endpoint_makes_no_call "2024-01-01T00:00:00.000Z"
           (PostBlock "5511999999999@c.us") env_resolving initial);
    reflexivity.
Defined.

Lemma honest_handler (body : M Api.Reply) (err iso_now : string) :
  lets_rejections_through body ->
  honest (try_catch body (fun _ => ret (failed 500 err iso_now))).
Proof.
  intros Hb env s r. rewrite result_try_catch, calls_try_catch.
  destruct (result (body env s)) as [a|e] eqn:E.
  - intros _ _. now apply (success_means_resolved body env s a).
  - simpl. intros [= <-]. discriminate.
Qed.

Lemma calls_require_ready (env : Env) (s : Session) : calls (require_ready env s) = [].
Proof.
  unfold require_ready, bind, get. simpl. now destruct (negb (isReady s)).
Qed.

Lemma final_require_ready (env : Env) (s : Session) : final (require_ready env s) = s.
Proof.
  unfold require_ready, bind, get. simpl. now destruct (negb (isReady s)).
Qed.

Lemma getProfilePicture_url (contactId : string) (env : Env) (s : Session)
  (url : string) :
  result (getProfilePicture contactId env s) = Ok (Some url) ->
  Forall (resolves (client env)) (calls (getProfilePicture contactId env s)).
Proof.
  unfold getProfilePicture. rewrite result_bind, calls_bind.
  destruct (result (require_ready env s)) as [[]|e] eqn:R; [|discriminate].
  rewrite calls_require_ready, final_require_ready. simpl.
  rewrite result_try_catch, calls_try_catch.
  match goal with
  | |- context [result (?b env s)] =>
      assert (Hb : lets_rejections_through b) by auto 10 with facade;
      destruct (result (b env s)) as [a|e] eqn:E
  end.
  - intros _. now apply (success_means_resolved _ env s a Hb).
  - simpl. discriminate.
Qed.

(** X17: a reply with status 200 is never given over a failure of the
    wrapped client: for every modelled endpoint but [restart] (whose
    teardown swallows a failure), when the handler answers 200, every call
    it made on the client was resolved. *)
Theorem ok_reply_means_no_rejected_call (iso_now : string) (e : Endpoint)
  (env : Env) (s : Session) (r : Api.Reply) :
  is_restart e = false ->
  result (serve iso_now e env s) = Ok r ->
  Api.status r = 200%Z ->
  Forall (resolves (client env)) (calls (serve iso_now e env s)).
Proof.
  intros N. revert env s r. change (honest (serve iso_now e)).
  destruct e; try discriminate N; cbn [serve];
    unfold WhatsAppController.getStatus, WhatsAppController.getQRCode,
      WhatsAppController.initialize,
      WhatsAppController.logout, WhatsAppController.getClientInfo,
      WhatsAppController.setStatusMessage, MessageController.sendMessage,
      MessageController.getMessages, ContactController.blockContact,
      ContactController.markChatAsRead, GroupController.getInviteLink.
  - apply honest_handler. auto with facade.
  - apply honest_handler. apply through_bind; [auto with facade|].
    intros a. destruct (JS.or_null _); auto with facade.
  - apply honest_handler. unfold initialize. auto 10 with facade.
  - apply honest_handler. unfold logout. auto 12 with facade.
  - apply honest_handler. unfold getClientInfo. auto 10 with facade.
  - apply honest_handler. destruct (JS.or_null _); [|auto with facade].
    unfold setStatus. auto 12 with facade.
  - apply honest_handler. cbv zeta.
    destruct (JS.or_null (send_to req)); [|auto with facade].
    destruct (JS.or_null (send_message req)); [|auto with facade].
    destruct (String.eqb _ "text").
    + unfold sendMessage. auto 12 with facade.
    + destruct (send_media req); [|auto with facade].
      unfold sendMedia. auto 12 with facade.
  - apply honest_handler. cbv zeta. unfold getMessages. auto 12 with facade.
  - intros env s r. unfold ContactController.getProfilePicture.
    rewrite result_try_catch, calls_try_catch, result_bind, calls_bind.
    destruct (result (getProfilePicture contactId env s)) as [[url|]|x] eqn:E;
      simpl.
    + destruct (JS.truthy url); simpl.
      * intros _ _. rewrite app_nil_r. now apply (getProfilePicture_url _ _ _ url).
      * intros [= <-]. discriminate.
    + intros [= <-]. discriminate.
    + intros [= <-]. discriminate.
  - apply honest_handler. unfold blockContact. auto 12 with facade.
  - apply honest_handler. unfold markAsRead. auto 12 with facade.
  - apply honest_handler. unfold getGroupInviteLink. auto 14 with facade.
Qed.

Lemma ok_reply_means_no_rejected_call_witness :
  Forall (resolves (client env_resolving))
    (calls (serve "2024-01-01T00:00:00.000Z" (PostBlock "5511999999999@c.us")
              env_resolving ready_session)).
Proof.
  eapply (ok_reply_means_no_rejected_call "2024-01-01T00:00:00.000Z"
            (PostBlock "5511999999999@c.us") env_resolving ready_session);
    reflexivity.
Defined.

Lemma run_eq {A} (r : Run A) (a : Result A) (s : Session) (cs : list AnyCall) :
  result r = a -> final r = s -> calls r = cs ->
  r = {| result := a; final := s; calls := cs |}.
Proof. destruct r. simpl. now intros -> -> ->. Qed.

Lemma guarded_ready {A} (k : M A) (env : Env) (s : Session) :
  isReady s = true -> (require_ready ;;; k) env s = k env s.
Proof.
  intros R. rewrite (bind_ok _ _ env s s tt [] (require_ready_ready env s R)).
  now destruct (k env s).
Qed.

Lemma touch_run (env : Env) (s : Session) :
  touch env s = {| result := Ok tt; final := set_lastSeen (now env) s; calls := [] |}.
Proof. reflexivity. Qed.

Lemma sendMessage_run (to content : string) (env : Env) (s : Session) (m : Message) :
  isReady s = true ->
  client env Message (CSendMessage to content) = Resolved m ->
  sendMessage to content env s =
  {| result := Ok m; final := set_lastSeen (now env) s;
     calls := [Called (CSendMessage to content)] |}.
Proof.
  intros R E. unfold sendMessage. rewrite (guarded_ready _ env s R).
  apply try_ok.
  rewrite (bind_ok _ _ env s s m _ (await_resolved _ env s m E)).
  reflexivity.
Qed.

Lemma sendMedia_run (to : string) (media : MessageMedia) (caption : option string)
  (env : Env) (s : Session) (m : Message) :
  isReady s = true ->
  client env Message (CSendMedia to media caption) = Resolved m ->
  sendMedia to media caption env s =
  {| result := Ok m; final := set_lastSeen (now env) s;
     calls := [Called (CSendMedia to media caption)] |}.
Proof.
  intros R E. unfold sendMedia. rewrite (guarded_ready _ env s R).
  apply try_ok.
  rewrite (bind_ok _ _ env s s m _ (await_resolved _ env s m E)).
  reflexivity.
Qed.



(** X19: [GET /contacts/:id/profile-picture] on a ready session never
    answers 500: it answers 200 with a non-empty URL or 404 "Foto de
    perfil não encontrada", and 404 it is whenever a call on the client was
    rejected; the session is left as it was. *)
Theorem profile_picture_endpoint (iso_now contactId : string) (env : Env)
  (s : Session) :
  isReady s = true ->
  final (ContactController.getProfilePicture iso_now contactId env s) = s /\
  (result (ContactController.getProfilePicture iso_now contactId env s) =
     Ok (failed 404 "Foto de perfil não encontrada" iso_now) \/
   exists url,
     url <> "" /\
     result (ContactController.getProfilePicture iso_now contactId env s) =
       Ok (replied (Some (Api.ProfilePic url)) "Foto de perfil obtida com sucesso"
             iso_now)) /\
  (client_threw (client env)
     (calls (ContactController.getProfilePicture iso_now contactId env s)) ->
   result (ContactController.getProfilePicture iso_now contactId env s) =
     Ok (failed 404 "Foto de perfil não encontrada" iso_now)).
Proof.
  intros R. unfold ContactController.getProfilePicture.
  rewrite final_try_catch, result_try_catch, calls_try_catch, result_bind,
    final_bind, calls_bind.
  rewrite (keeps_session_getProfilePicture contactId env s).
  assert (P : exists p, result (getProfilePicture contactId env s) = Ok p).
  { unfold getProfilePicture. rewrite (guarded_ready _ env s R), result_try_catch.
    match goal with
    | |- context [result (?b env s)] => destruct (result (b env s)) as [a|e]
    end; simpl; eexists; reflexivity. }
  destruct P as [p P].
  pose proof (getProfilePicture_null contactId env s R) as N.
  rewrite P in *.
  destruct p as [url|]; simpl.
  - destruct (JS.truthy url) eqn:T; simpl.
    + split; [reflexivity|]. split.
      * right. exists url. split; [now apply truthy_nonempty | reflexivity].
      * rewrite app_nil_r. intros H. apply N in H. discriminate H.
    + split; [reflexivity|]. split; [now left | reflexivity].
  - split; [reflexivity|]. split; [now left | reflexivity].
Qed.

Lemma profile_picture_endpoint_witness :
  result (ContactController.getProfilePicture "2024-01-01T00:00:00.000Z"
            "5511999999999@c.us" env_rejecting ready_session) =
  Ok (failed 404 "Foto de perfil não encontrada" "2024-01-01T00:00:00.000Z").
Proof.
  apply (proj2 (proj2 (profile_picture_endpoint "2024-01-01T00:00:00.000Z"
                         "5511999999999@c.us" env_rejecting ready_session
                         eq_refl))).
  apply Exists_cons_hd. simpl. eexists. reflexivity.
Defined.

(** X20: [GET /whatsapp/qr] after any sequence of events: it answers 200
    with a code exactly when that code is not empty and was carried by a
    [qr] event that no later [qr] or [ready] event followed, and 404
    otherwise; it never answers 500, makes no call on the client and leaves
    the session as it is. *)
Theorem qr_endpoint_after_events (iso_now : string) (evs : list Stimulus) (env : Env) :
  final (WhatsAppController.getQRCode iso_now env (state_after evs)) = state_after evs /\
  calls (WhatsAppController.getQRCode iso_now env (state_after evs)) = [] /\
  (forall code,
      result (WhatsAppController.getQRCode iso_now env (state_after evs)) =
        Ok (replied (Some (Api.QrCode code)) "QR Code obtido com sucesso" iso_now) <->
      code <> "" /\
      exists (pre : list Stimulus) (c : Context) (post : list Stimulus),
        evs = pre ++ (c, EvQr code) :: post /\
        Forall (fun x => keeps_qr (snd x) = true) post) /\
  (result (WhatsAppController.getQRCode iso_now env (state_after evs)) =
     Ok (failed 404
           "QR Code não disponível. Cliente pode estar pronto ou não inicializado."
           iso_now) \/
   exists code,
     result (WhatsAppController.getQRCode iso_now env (state_after evs)) =
       Ok (replied (Some (Api.QrCode code)) "QR Code obtido com sucesso" iso_now)).
Proof.
  unfold WhatsAppController.getQRCode, try_catch, bind, get. simpl.
  destruct (qrCode (state_after evs)) as [stored|] eqn:Q; simpl.
  - destruct (JS.truthy stored) eqn:T; simpl.
    + split; [reflexivity|]. split; [reflexivity|]. split.
      * intros code. split.
        -- intros [= <-]. split; [now apply truthy_nonempty|].
           now apply qr_comes_from_a_qr_event.
        -- intros (_ & pre & c & post & -> & F).
           rewrite (qr_stays_until_ready_or_qr post pre c code F) in Q.
           now injection Q as ->.
      * right. now exists stored.
    + split; [reflexivity|]. split; [reflexivity|]. split.
      * intros code. split; [discriminate|].
        intros (Hne & pre & c & post & -> & F).
        rewrite (qr_stays_until_ready_or_qr post pre c code F) in Q.
        injection Q as ->. apply truthy_nonempty in Hne. congruence.
      * now left.
  - split; [reflexivity|]. split; [reflexivity|]. split.
    + intros code. split; [discriminate|].
      intros (_ & pre & c & post & -> & F).
      rewrite (qr_stays_until_ready_or_qr post pre c code F) in Q. discriminate Q.
    + now left.
Qed.

(** ** Pagination of [GET /messages/:chatId] *)

Lemma js_slice_window {A} (start stop : Z) (l : list A) :
  (0 <= start <= stop)%Z ->
  js_slice start stop l =
  firstn (Z.to_nat (stop - start)) (skipn (Z.to_nat start) l).
Proof.
  intros H. unfold js_slice.
  destruct (Z.ltb_spec start 0); [lia|].
  destruct (Z.ltb_spec stop 0); [lia|].
  destruct (Z_lt_le_dec start (Z.of_nat (length l))) as [Hlt|Hge].
  - rewrite (Z.min_l start) by lia.
    destruct (Z_le_gt_dec stop (Z.of_nat (length l))) as [Hs|Hs].
    + now rewrite (Z.min_l stop) by lia.
    + rewrite (Z.min_r stop) by lia.
      rewrite !firstn_all2; [reflexivity | |]; rewrite length_skipn; lia.
  - rewrite (Z.min_r start) by lia.
    rewrite (skipn_all2 l (n := Z.to_nat (Z.of_nat (length l)))) by lia.
    rewrite (skipn_all2 l (n := Z.to_nat start)) by lia.
    now rewrite !firstn_nil.
Qed.

Lemma firstn_plus {A} (n m : nat) (l : list A) :
  firstn (n + m) l = firstn n l ++ firstn m (skipn n l).
Proof.
  revert l. induction n as [|n IH]; intros l; [reflexivity|].
  destruct l as [|x l]; simpl.
  - now rewrite firstn_nil.
  - now rewrite IH.
Qed.

Lemma ceil_quotient_spec (total limitNum : Z) :
  (1 <= limitNum)%Z ->
  exists q,
    ceil_quotient total limitNum = Some q /\
    ((q - 1) * limitNum < total <= q * limitNum)%Z.
Proof.
  intros H. unfold ceil_quotient.
  destruct (Z.eqb_spec limitNum 0); [lia|].
  eexists. split; [reflexivity|].
  pose proof (Z.div_mod (- total) limitNum) as D.
  pose proof (Z.mod_pos_bound (- total) limitNum) as B.
  nia.
Qed.

Lemma getChatById_run (chatId : string) (env : Env) (s : Session) (chat : Chat) :
  isReady s = true ->
  client env Chat (CGetChatById chatId) = Resolved chat ->
  getChatById chatId env s =
  {| result := Ok chat; final := s; calls := [Called (CGetChatById chatId)] |}.
Proof.
  intros R E. unfold getChatById. rewrite (guarded_ready _ env s R).
  apply try_ok.
  rewrite (bind_ok _ _ env s s chat _ (await_resolved _ env s chat E)).
  reflexivity.
Qed.

Lemma getMessages_run (chatId : string) (limit : Z) (env : Env) (s : Session)
  (chat : Chat) (messages : list Message) :
  isReady s = true ->
  client env Chat (CGetChatById chatId) = Resolved chat ->
  client env (list Message) (ChatFetchMessages chat limit) = Resolved messages ->
  getMessages chatId limit env s =
  {| result := Ok messages; final := s;
     calls := [Called (CGetChatById chatId); Called (ChatFetchMessages chat limit)] |}.
Proof.
  intros R E F. unfold getMessages. rewrite (guarded_ready _ env s R).
  apply try_ok.
  rewrite (bind_ok _ _ env s s chat _ (getChatById_run chatId env s chat R E)).
  rewrite (bind_ok _ _ env s s messages _ (await_resolved _ env s messages F)).
  reflexivity.
Qed.



(** X22: the windows that the handler of [GET /messages/:chatId] cuts for
    the pages 1 to [n] out of one list, put one after the other, are the
    first [n * limit] entries of the list: between consecutive pages no
    entry is left out and none comes twice. *)
Theorem pages_follow_each_other {A} (limitNum : Z) (n : nat) (l : list A) :
  (0 <= limitNum)%Z ->
  concat (map (fun pageNum : nat =>
                 let offset := ((Z.of_nat pageNum - 1) * limitNum)%Z in
                 js_slice offset (offset + limitNum) l)
            (seq 1 n)) =
  firstn (n * Z.to_nat limitNum) l.
Proof.
  intros H. induction n as [|n IH]; [reflexivity|].
  rewrite seq_S, map_app, concat_app, IH. cbn [map concat]. cbv zeta.
  rewrite app_nil_r.
  assert (Q : ((Z.of_nat (1 + n) - 1) * limitNum = Z.of_nat n * limitNum)%Z) by lia.
  rewrite Q, js_slice_window by nia.
  assert (Q1 : Z.to_nat (Z.of_nat n * limitNum + limitNum - Z.of_nat n * limitNum) =
               Z.to_nat limitNum) by lia.
  assert (Q2 : Z.to_nat (Z.of_nat n * limitNum) = (n * Z.to_nat limitNum)%nat) by nia.
  rewrite Q1, Q2, <- firstn_plus. f_equal. lia.
Qed.

Lemma pages_follow_each_other_witness :
  js_slice 0 2 [1; 2; 3; 4; 5]%nat ++ js_slice 2 4 [1; 2; 3; 4; 5]%nat ++
  js_slice 4 6 [1; 2; 3; 4; 5]%nat = [1; 2; 3; 4; 5]%nat.
Proof.
  assert (H : (0 <= 2)%Z) by lia.
  exact (pages_follow_each_other 2 3 [1; 2; 3; 4; 5]%nat H).
Defined.

(** ** Delivery to the attached consumers *)

Lemma remove_first_other (r x : Registration) (ls : list Registration) :
  In x ls -> x <> r -> In x (remove_first r ls).
Proof.
  intros H N. induction ls as [|y ls IH]; [destruct H|]. simpl.
  destruct (Registration_eqb r y) eqn:E.
  - apply Registration_eqb_eq in E. subst y.
    destruct H as [H|H]; [congruence | assumption].
  - destruct H as [H|H]; [now left | right; now apply IH].
Qed.

Lemma remove_first_length (r : Registration) (ls : list Registration) :
  In r ls -> S (length (remove_first r ls)) = length ls.
Proof.
  induction ls as [|y ls IH]; intros H; [destruct H|]. simpl.
  destruct (Registration_eqb r y) eqn:E; [reflexivity|].
  destruct H as [H|H].
  - subst y. assert (Q : Registration_eqb r r = true) by now apply Registration_eqb_eq.
    congruence.
  - simpl. now rewrite IH.
Qed.

Lemma removeListener_other (n : EventName) (l : Listener) (x : Registration)
  (ls : list Registration) :
  In x ls -> x <> (n, l) -> In x (removeListener n l ls).
Proof.
  intros H N. unfold removeListener. apply in_rev. rewrite rev_involutive.
  apply remove_first_other; [|assumption]. now apply in_rev in H.
Qed.

Lemma removeListener_length (n : EventName) (l : Listener) (ls : list Registration) :
  In (n, l) ls -> S (length (removeListener n l ls)) = length ls.
Proof.
  intros H. unfold removeListener. rewrite length_rev.
  rewrite remove_first_length by now apply in_rev in H.
  apply length_rev.
Qed.

Lemma unsubscribe_other (l : Listener) (ns : list EventName) (x : Registration)
  (ls : list Registration) :
  In x ls -> snd x <> l ->
  In x (fold_left (fun acc n => removeListener n l acc) ns ls).
Proof.
  revert ls. induction ns as [|n ns IH]; intros ls H N; [assumption|]. simpl.
  apply IH; [|assumption]. apply removeListener_other; [assumption|].
  intros ->. now apply N.
Qed.

Lemma unsubscribe_length (l : Listener) (ns : list EventName) (ls : list Registration) :
  NoDup ns ->
  (forall n, In n ns -> In (n, l) ls) ->
  (length (fold_left (fun acc n => removeListener n l acc) ns ls) + length ns)%nat =
  length ls.
Proof.
  revert ls. induction ns as [|n ns IH]; intros ls D H; simpl; [lia|].
  inversion D as [|? ? Hn D']. subst.
  rewrite <- (removeListener_length n l ls) by (apply H; now left).
  rewrite <- (IH (removeListener n l ls) D'); [lia|].
  intros n' Hn'. apply removeListener_other; [apply H; now right|].
  intros [= ->]. contradiction.
Qed.

Lemma remove_nat_length (x : nat) (l : list nat) :
  NoDup l -> In x l -> S (length (remove_nat x l)) = length l.
Proof.
  intros D. induction D as [|y l Hy D IH]; intros H; [destruct H|].
  unfold remove_nat in *. simpl.
  destruct (Nat.eqb_spec x y) as [->|N]; simpl.
  - f_equal. clear IH D H. induction l as [|z l IH]; [reflexivity|]. simpl.
    destruct (Nat.eqb_spec y z) as [->|N]; simpl.
    + exfalso. apply Hy. now left.
    + f_equal. apply IH. intros H. apply Hy. now right.
  - destruct H as [H|H]; [congruence|]. f_equal. now apply IH.
Qed.

Lemma remove_nat_NoDup (x : nat) (l : list nat) : NoDup l -> NoDup (remove_nat x l).
Proof. apply NoDup_filter. Qed.

Lemma NoDup_sse_events : NoDup sse_events.
Proof. repeat constructor; simpl; intuition discriminate. Qed.

Lemma Full_boot : Full boot.
Proof.
  constructor; simpl.
  - intros conn n [].
  - intros n H. repeat (destruct H as [<-|H]; [tauto|]). destruct H.
  - constructor.
  - reflexivity.
  - reflexivity.
Qed.

Lemma Full_step (act : Action) (a : App) : Wf a -> Full a -> Full (step act a).
Proof.
  intros W [f1 f2 f3 f4 f5].
  destruct act as [c ev ts|ts|conn|conn ts| |id|id].
  - rewrite step_raises. constructor; simpl; assumption.
  - unfold step. constructor; cbn [session listeners sockets streams pings
      next_conn next_sock emissions wire write].
    + intros conn n Hc Hn. rewrite subscribe_eq. apply in_or_app.
      apply in_app_or in Hc. destruct Hc as [Hc|[<-|[]]].
      * left. now apply f1.
      * right. apply in_map_iff. now exists n.
    + intros n Hn. rewrite subscribe_eq. apply in_or_app. left. now apply f2.
    + apply NoDup_app; [assumption | repeat constructor; intros [] |].
      intros x Hx [<-|[]]. apply (wf_streams a W) in Hx. lia.
    + now rewrite f4.
    + rewrite subscribe_eq, !length_app, length_map. simpl. lia.
  - unfold step. destruct (existsb (Nat.eqb conn) (streams a)) eqn:E;
      [|constructor; assumption].
    apply existsb_eqb_In in E.
    constructor; cbn [session listeners sockets streams pings
      next_conn next_sock emissions wire write].
    + intros conn' n Hc Hn. apply remove_nat_In in Hc. destruct Hc as [Hc Hne].
      apply unsubscribe_other; [now apply f1|]. simpl. congruence.
    + intros n Hn. apply unsubscribe_other; [now apply f2|]. simpl. discriminate.
    + now apply remove_nat_NoDup.
    + now rewrite f4.
    + pose proof (unsubscribe_length (SseHandler conn) sse_events (listeners a)
                    NoDup_sse_events (fun n Hn => f1 conn n E Hn)) as L.
      pose proof (remove_nat_length conn (streams a) f3 E) as S.
      change (length sse_events) with 7%nat in L. lia.
  - simpl. destruct (existsb (Nat.eqb conn) (pings a)); constructor; assumption.
  - constructor; simpl; assumption.
  - constructor; simpl; assumption.
  - simpl. destruct (existsb (Nat.eqb id) (sockets a)); constructor; assumption.
Qed.

Lemma Full_run (tr : list Action) : Full (run tr boot).
Proof.
  induction tr as [|act tr IH] using rev_ind; [exact Full_boot|].
  rewrite run_snoc. apply Full_step; [|assumption]. apply Wf_run, Wf_boot.
Qed.

Lemma filter_flat_map_nil {A B} (p : B -> bool) (f : A -> list B) (xs : list A) :
  (forall x, In x xs -> filter p (f x) = []) -> filter p (flat_map f xs) = [].
Proof.
  induction xs as [|x xs IH]; intros H; simpl; [reflexivity|].
  rewrite filter_app, (H x) by now left.
  apply IH. intros y Hy. apply H. now right.
Qed.

Lemma filter_flat_map_one {A B} (p : B -> bool) (f : A -> list B) (xs : list A)
  (x0 : A) :
  NoDup xs -> In x0 xs ->
  (forall x, In x xs -> x <> x0 -> filter p (f x) = []) ->
  filter p (flat_map f xs) = filter p (f x0).
Proof.
  intros D. induction D as [|x xs Hx D IH]; intros Hin H; [destruct Hin|].
  simpl. rewrite filter_app. destruct Hin as [->|Hin].
  - rewrite (filter_flat_map_nil p f xs); [apply app_nil_r|].
    intros y Hy. apply H; [now right|]. intros ->. contradiction.
  - rewrite (H x); [|now left | intros ->; contradiction]. simpl.
    apply IH; [assumption|]. intros y Hy. apply H. now right.
Qed.

Lemma to_socket_filter (id : nat) (mk : nat -> Frame) (k : nat) (socks : list nat) :
  NoDup socks ->
  filter (fun d => Consumer_eqb (recipient d) (Sock id))
    (map (fun i => {| recipient := Sock i; frame := mk i; cause := Some k |}) socks) =
  if existsb (Nat.eqb id) socks
  then [{| recipient := Sock id; frame := mk id; cause := Some k |}]
  else [].
Proof.
  intros D. induction D as [|y socks Hy D IH]; [reflexivity|]. simpl.
  rewrite IH. rewrite (Nat.eqb_sym id y).
  destruct (Nat.eqb_spec y id) as [->|N]; simpl; [|reflexivity].
  destruct (existsb (Nat.eqb id) socks) eqn:E; [|reflexivity].
  apply existsb_eqb_In in E. contradiction.
Qed.

Lemma to_stream_of_bridge (conn k : nat) (e : Emission) (ts : string)
  (socks : list nat) (n : EventName) :
  filter (fun d => Consumer_eqb (recipient d) (Sse conn))
    (notify k e ts socks (Bridge n)) = [].
Proof.
  simpl. destruct (bridge_payload e ts); [|reflexivity].
  induction socks as [|y socks IH]; [reflexivity | exact IH].
Qed.

Lemma payload_is_of_a_bridged_event (e : Emission) (ts : string) (p : Payload) :
  bridge_payload e ts = Some p -> In (ename e) bridged_events.
Proof.
  unfold bridge_payload, bridged_events.
  destruct (ename e); try discriminate; simpl; tauto.
Qed.

Lemma written_by_emission (consumer : Consumer) (c : Context) (ev : RawEvent)
  (ts : string) (a : App) :
  written_to consumer a (step (ClientRaises c ev ts) a) =
  filter (fun d => Consumer_eqb (recipient d) consumer)
    (flat_map (notify (emissions a) (emission_of ev) ts (sockets a))
       (listeners_for (ename (emission_of ev)) (listeners a))).
Proof.
  unfold written_to. rewrite step_raises. unfold emit, frames_of_emission.
  cbn [wire with_session listeners sockets emissions].
  rewrite skipn_app, skipn_all, Nat.sub_diag. reflexivity.
Qed.

(** X23: when the client raises an event, every consumer attached at that
    moment is written exactly the frame the event has for it: a stream one
    [whatsapp_event] frame with the first argument when the event is one of
    the seven it subscribes to, nothing for the others ([qr],
    [authenticated], [auth_failure], [message_reaction], [battery_changed],
    [state_changed]); a socket one frame on the event's channel when the
    event is bridged, nothing for the others ([message_ack],
    [message_reaction], [battery_changed], [state_changed]). A consumer
    that is not attached is written nothing. *)
Theorem event_reaches_every_attached_consumer (tr : list Action) (c : Context)
  (ev : RawEvent) (ts : string) (consumer : Consumer) :
  (attached consumer (run tr boot) ->
   written_to consumer (run tr boot) (step (ClientRaises c ev ts) (run tr boot)) =
   match frame_for consumer (emission_of ev) ts with
   | Some f => [{| recipient := consumer; frame := f;
                   cause := Some (emissions (run tr boot)) |}]
   | None => []
   end) /\
  (~ attached consumer (run tr boot) ->
   written_to consumer (run tr boot) (step (ClientRaises c ev ts) (run tr boot)) = []).
Proof.
  pose proof (Wf_run tr boot Wf_boot) as W.
  pose proof (Full_run tr) as F.
  rewrite written_by_emission.
  set (a := run tr boot) in *. set (e := emission_of ev).
  pose proof (listeners_for_NoDup (ename e) (listeners a) (wf_listeners a W)) as D.
  destruct consumer as [conn|id]; unfold frame_for, attached.
  - split.
    + intros Hin. destruct (existsb (EventName_eqb (ename e)) sse_events) eqn:E.
      * assert (Hn : In (ename e) sse_events).
        { apply existsb_exists in E. destruct E as (n & Hn & Q).
          apply EventName_eqb_eq in Q. now subst n. }
        rewrite (filter_flat_map_one _ _ _ (SseHandler conn) D).
        -- simpl. now rewrite Nat.eqb_refl.
        -- apply listeners_for_In. now apply (full_handlers a F).
        -- intros [conn'|n] _ N; [|apply to_stream_of_bridge].
           simpl. destruct (Nat.eqb_spec conn' conn) as [->|]; [congruence | reflexivity].
      * apply filter_flat_map_nil. intros [conn'|n] Hl; [|apply to_stream_of_bridge].
        apply listeners_for_In in Hl. apply (wf_handlers a W) in Hl.
        destruct Hl as [_ Hn]. exfalso.
        assert (Q : existsb (EventName_eqb (ename e)) sse_events = true).
        { apply existsb_exists. exists (ename e). split; [assumption|].
          now apply EventName_eqb_eq. }
        congruence.
    + intros Hout. apply filter_flat_map_nil.
      intros [conn'|n] Hl; [|apply to_stream_of_bridge].
      apply listeners_for_In in Hl. apply (wf_handlers a W) in Hl.
      destruct Hl as [Hs _]. simpl.
      destruct (Nat.eqb_spec conn' conn) as [->|]; [contradiction | reflexivity].
  - assert (B : forall n,
               filter (fun d => Consumer_eqb (recipient d) (Sock id))
                 (notify (emissions a) e ts (sockets a) (Bridge n)) =
               match bridge_payload e ts with
               | Some p =>
                   if existsb (Nat.eqb id) (sockets a)
                   then [{| recipient := Sock id;
                            frame := SockEvent (channel_of (ename e)) p;
                            cause := Some (emissions a) |}]
                   else []
               | None => []
               end).
    { intros n. simpl. destruct (bridge_payload e ts) as [p|]; [|reflexivity].
      apply (to_socket_filter id (fun _ => SockEvent (channel_of (ename e)) p)).
      exact (wf_sockets a W). }
    split.
    + intros Hin. apply existsb_eqb_In in Hin.
      destruct (bridge_payload e ts) as [p|] eqn:P; simpl.
      * rewrite (filter_flat_map_one _ _ _ (Bridge (ename e)) D).
        -- now rewrite B, Hin.
        -- apply listeners_for_In. apply (full_bridges a F).
           now apply (payload_is_of_a_bridged_event e ts p).
        -- intros [conn'|n] Hl N; [reflexivity|].
           apply listeners_for_In in Hl. apply (wf_bridges a W) in Hl. congruence.
      * apply filter_flat_map_nil. intros [conn'|n] _; [reflexivity|].
        now rewrite B.
    + intros Hout. apply filter_flat_map_nil. intros [conn'|n] _; [reflexivity|].
      rewrite B. destruct (bridge_payload e ts); [|reflexivity].
      destruct (existsb (Nat.eqb id) (sockets a)) eqn:E; [|reflexivity].
      apply existsb_eqb_In in E. contradiction.
Qed.

Lemma event_reaches_every_attached_consumer_witness :
  written_to (Sock 0) (run [SocketConnect; SseOpen "t0"] boot)
    (step (ClientRaises sample_context (EvQr "2@abc") "t1")
       (run [SocketConnect; SseOpen "t0"] boot)) =
  [{| recipient := Sock 0;
      frame := SockEvent "whatsapp:qr" (PQr (Some (AStr "2@abc")) "t1");
      cause := Some 0%nat |}] /\
  written_to (Sse 0) (run [SocketConnect; SseOpen "t0"] boot)
    (step (ClientRaises sample_context (EvQr "2@abc") "t1")
       (run [SocketConnect; SseOpen "t0"] boot)) = [].
Proof.
  split.
  - apply (proj1 (event_reaches_every_attached_consumer [SocketConnect; SseOpen "t0"]
                    sample_context (EvQr "2@abc") "t1" (Sock 0))).
    simpl. now left.
  - apply (proj1 (event_reaches_every_attached_consumer [SocketConnect; SseOpen "t0"]
                    sample_context (EvQr "2@abc") "t1" (Sse 0))).
    simpl. now left.
Defined.

(** X24: closing an event stream takes away all it registered, and nothing
    else is ever registered: in every state the application can reach the
    listeners on the service are the nine bridges and seven for each open
    stream, each open stream has its handler under each of the seven names,
    a handler is registered for open streams only and no registration is
    there twice, and the ping timers that run are those of the open
    streams. *)
Theorem no_listener_is_left_behind (tr : list Action) :
  length (listeners (run tr boot)) = (9 + 7 * length (streams (run tr boot)))%nat /\
  NoDup (listeners (run tr boot)) /\
  (forall n conn,
      In (n, SseHandler conn) (listeners (run tr boot)) <->
      In conn (streams (run tr boot)) /\ In n sse_events) /\
  (forall n l,
      In (n, Bridge l) (listeners (run tr boot)) <-> l = n /\ In n bridged_events) /\
  pings (run tr boot) = streams (run tr boot).
Proof.
  pose proof (Wf_run tr boot Wf_boot) as W.
  pose proof (Full_run tr) as F.
  split; [apply (full_count _ F)|].
  split; [apply (wf_listeners _ W)|].
  split; [|split; [|apply (full_pings _ F)]].
  - intros n conn. split.
    + apply (wf_handlers _ W).
    + intros [H1 H2]. now apply (full_handlers _ F).
  - intros n l. split.
    + intros H. pose proof (wf_bridges _ W n l H) as ->. split; [reflexivity|].
      clear F. revert H. induction tr as [|act tr IH] using rev_ind.
      * simpl. intros H.
        repeat (destruct H as [H|H]; [injection H as <-; simpl; tauto|]).
        destruct H.
      * rewrite run_snoc. pose proof (Wf_run tr boot Wf_boot) as W'.
        destruct act as [c ev ts|ts|conn|conn ts| |id|id].
        -- rewrite step_raises. simpl. intros H. apply IH; [now apply W' | exact H].
        -- unfold step. cbn [session listeners sockets streams pings
             next_conn next_sock emissions wire write].
           rewrite subscribe_eq. intros H. apply in_app_or in H.
           destruct H as [H|H]; [apply IH; [exact W' | exact H]|].
           apply in_map_iff in H. destruct H as (m & E & _). discriminate E.
        -- unfold step. destruct (existsb (Nat.eqb conn) (streams (run tr boot)));
             [|intros H; apply IH; [exact W' | exact H]].
           cbn [listeners]. intros H. apply unsubscribe_In in H.
           apply IH; [exact W' | exact H].
        -- simpl. destruct (existsb (Nat.eqb conn) (pings (run tr boot)));
             intros H; apply IH; [exact W' | exact H | exact W' | exact H].
        -- simpl. intros H. apply IH; [exact W' | exact H].
        -- simpl. intros H. apply IH; [exact W' | exact H].
        -- simpl. destruct (existsb (Nat.eqb id) (sockets (run tr boot)));
             intros H; apply IH; [exact W' | exact H | exact W' | exact H].
    + intros [-> H]. now apply (full_bridges _ F).
Qed.

(** ** The phone helpers *)

Lemma strip_app (a b : string) :
  strip_non_digits (a ++ b)%string =
  (strip_non_digits a ++ strip_non_digits b)%string.
Proof.
  induction a as [|c a IH]; simpl; [reflexivity|].
  destruct (is_digit c); simpl; now rewrite IH.
Qed.

Lemma strip_strip (s : string) :
  strip_non_digits (strip_non_digits s) = strip_non_digits s.
Proof.
  induction s as [|c s IH]; simpl; [reflexivity|].
  destruct (is_digit c) eqn:E; simpl; [|assumption]. now rewrite E, IH.
Qed.

Lemma string_app_nil_r (s : string) : (s ++ "")%string = s.
Proof. induction s as [|c s IH]; simpl; [reflexivity | now rewrite IH]. Qed.

Lemma string_length_app (a b : string) :
  String.length (a ++ b)%string = (String.length a + String.length b)%nat.
Proof. induction a as [|c a IH]; simpl; [reflexivity | now rewrite IH]. Qed.

Lemma matches_brazilian_shape (s : string) :
  matches_brazilian s = true ->
  JS.starts_with "55" s = true /\
  (String.length s = 11 \/ String.length s = 12)%nat.
Proof.
  unfold matches_brazilian.
  destruct s as [|a [|b [|d rest]]]; try discriminate.
  - destruct a as [[] [] [] [] [] [] [] []]; discriminate.
  - destruct a as [[] [] [] [] [] [] [] []]; try discriminate.
    destruct b as [[] [] [] [] [] [] [] []]; discriminate.
  - destruct a as [[] [] [] [] [] [] [] []]; try discriminate.
    destruct b as [[] [] [] [] [] [] [] []]; try discriminate.
    intros H. apply andb_prop in H. destruct H as [_ H].
    split; [reflexivity|]. simpl.
    apply orb_prop in H. destruct H as [H|H]; apply Nat.eqb_eq in H; lia.
Qed.

(** X25: the phone helpers look at the digits only. [formatPhoneForWhatsApp]
    gives the digits of its input, with [55] put in front unless they start
    with it, followed by [@c.us]; formatting what it returned changes
    nothing. A phone that [validateBrazilianPhone] accepts has eleven or
    twelve digits, is formatted to these digits and [@c.us] with nothing
    put in front, and what it is formatted to is accepted as well. *)
Theorem phone_helpers (phone : string) :
  formatPhoneForWhatsApp (formatPhoneForWhatsApp phone) = formatPhoneForWhatsApp phone /\
  formatPhoneForWhatsApp (strip_non_digits phone) = formatPhoneForWhatsApp phone /\
  validateBrazilianPhone (strip_non_digits phone) = validateBrazilianPhone phone /\
  (exists digits,
      formatPhoneForWhatsApp phone = (digits ++ "@c.us")%string /\
      JS.starts_with "55" digits = true /\ all_digits digits = true) /\
  (validateBrazilianPhone phone = true ->
   formatPhoneForWhatsApp phone = (strip_non_digits phone ++ "@c.us")%string /\
   (String.length (strip_non_digits phone) = 11 \/
    String.length (strip_non_digits phone) = 12)%nat /\
   validateBrazilianPhone (formatPhoneForWhatsApp phone) = true).
Proof.
  assert (D : forall s, all_digits (strip_non_digits s) = true).
  { induction s as [|c s IH]; simpl; [reflexivity|].
    destruct (is_digit c) eqn:E; simpl; [now rewrite E|assumption]. }
  assert (I : formatPhoneForWhatsApp (formatPhoneForWhatsApp phone) =
              formatPhoneForWhatsApp phone).
  { unfold formatPhoneForWhatsApp.
    destruct (JS.starts_with "55" (strip_non_digits phone)) eqn:S.
    - rewrite strip_app, strip_strip. cbn [strip_non_digits is_digit nat_of_ascii].
      simpl (strip_non_digits "@c.us"). now rewrite string_app_nil_r, S.
    - rewrite !strip_app, strip_strip. simpl (strip_non_digits "@c.us").
      simpl (strip_non_digits "55"). rewrite string_app_nil_r.
      reflexivity. }
  split; [exact I|].
  split; [unfold formatPhoneForWhatsApp; now rewrite strip_strip|].
  split; [unfold validateBrazilianPhone; now rewrite strip_strip|].
  split.
  - unfold formatPhoneForWhatsApp.
    destruct (JS.starts_with "55" (strip_non_digits phone)) eqn:S.
    + exists (strip_non_digits phone). repeat split; auto.
    + exists ("55" ++ strip_non_digits phone)%string. split; [reflexivity|].
      split; [reflexivity|]. simpl. apply D.
  - intros V. unfold validateBrazilianPhone in V.
    destruct (matches_brazilian_shape _ V) as [S L].
    assert (Q : formatPhoneForWhatsApp phone =
                (strip_non_digits phone ++ "@c.us")%string)
      by (unfold formatPhoneForWhatsApp; now rewrite S).
    split; [exact Q|]. split; [exact L|].
    rewrite Q. unfold validateBrazilianPhone.
    rewrite strip_app, strip_strip. simpl (strip_non_digits "@c.us").
    now rewrite string_app_nil_r.
Qed.

Lemma phone_helpers_witness :
  validateBrazilianPhone "+55 (11) 9999-9999" = true /\
  formatPhoneForWhatsApp "+55 (11) 9999-9999" = "551199999999@c.us" /\
  formatPhoneForWhatsApp "(11) 9999-9999" = "551199999999@c.us".
Proof.
  split; [reflexivity|]. split; [|reflexivity].
  apply (proj2 (proj2 (proj2 (proj2 (phone_helpers "+55 (11) 9999-9999"))))).
  reflexivity.
Defined.

(** X26: the key the middleware checks against is never empty, whatever
    the environment: with [API_KEY] unset or empty it is the default of the
    configuration. So [authenticateApiKey] lets a request through exactly
    when the key it extracts is the configured one, a request that carries
    no key is turned away under every configuration, and with [API_KEY]
    unset or empty the default key opens the routes. *)
Theorem configured_key_guards_every_configuration (API_KEY : option string)
  (iso_now : string) (req : Request) :
  (admits (config_apiKey API_KEY) iso_now req <->
   extract_key (headers req) = Some (config_apiKey API_KEY)) /\
  (JS.falsy (extract_key (headers req)) = true ->
   ~ admits (config_apiKey API_KEY) iso_now req) /\
  (JS.falsy API_KEY = true ->
   x_api_key (headers req) = Some "your-secret-api-key-here" ->
   admits (config_apiKey API_KEY) iso_now req) /\
  (forall k, API_KEY = Some k -> k <> "" ->
             x_api_key (headers req) = Some k ->
             admits (config_apiKey API_KEY) iso_now req).
Proof.
  pose proof (config_apiKey_nonempty API_KEY) as N.
  assert (X : forall k, k <> "" -> x_api_key (headers req) = Some k ->
                        extract_key (headers req) = Some k).
  { intros k Hk E. unfold extract_key, JS.or_else. rewrite E.
    apply truthy_nonempty in Hk. now rewrite Hk. }
  split; [|split; [|split]].
  - rewrite admits_iff. tauto.
  - intros F A. apply admits_iff in A. destruct A as [A _]. rewrite A in F.
    simpl in F. apply truthy_nonempty in N. rewrite N in F. discriminate F.
  - intros F E. apply admits_iff. split; [|assumption].
    assert (Q : config_apiKey API_KEY = "your-secret-api-key-here").
    { unfold config_apiKey, JS.or_else.
      destruct API_KEY as [[|a k]|]; [reflexivity | discriminate F | reflexivity]. }
    rewrite Q. apply X; [discriminate | assumption].
  - intros k -> Hk E. apply admits_iff. split; [|assumption].
    assert (Q : config_apiKey (Some k) = k).
    { unfold config_apiKey, JS.or_else. apply truthy_nonempty in Hk.
      now rewrite Hk. }
    rewrite Q. now apply X.
Qed.

Lemma configured_key_guards_every_configuration_witness :
  admits (config_apiKey (Some "")) "2024-01-01T00:00:00.000Z"
    (request_with {| x_api_key := Some "your-secret-api-key-here";
                     authorization := None |}).
Proof.
  apply (proj1 (proj2 (proj2 (configured_key_guards_every_configuration
                                (Some "") "2024-01-01T00:00:00.000Z"
                                (request_with
                                   {| x_api_key := Some "your-secret-api-key-here";
                                      authorization := None |}))))).
  - reflexivity.
  - reflexivity.
Defined.
